(** * ZapGrpc: the gRPC connection and subscription manager of zap-desktop

    A shallow embedding of [src/services/grpc/grpc.js] (class [ZapGrpc]) and
    the properties of its connection life cycle and of its subscription
    table.

    The class is an event-driven object: its methods run to completion (or
    to their first [await]) on a single thread, and between two of them the
    environment delivers events (stream events, transport events).  The
    embedding is therefore

    - a [World]: the fields of the one [ZapGrpc] instance together with the
      objects it shares with the rest of the program (the table object of
      [INITIAL_STATE], stream handles, promises, the log);
    - every method as a function in a small state-and-exception monad [M];
    - one [Event] per method call and per event the environment delivers,
      with [step] and [run] to replay a trace. *)

From stdpp Require Import base list strings gmap.
From Stdlib Require Import ZArith Lia.

Open Scope string_scope.
Open Scope list_scope.

Set Warnings "-clear-no-such-hyp".

(** ** JavaScript values *)

(** The primitive values that reach the code: option fields compared with
    [===], and the [synced_to_chain] flag tested for truthiness. *)
Inductive jsval :=
| JUndefined
| JNull
| JBool (b : bool)
| JNum (n : Z)
| JStr (s : string).

#[global] Instance jsval_eq_dec : EqDecision jsval.
Proof. solve_decision. Defined.

(** ToBoolean. *)
Definition truthy (v : jsval) : bool :=
  match v with
  | JUndefined | JNull => false
  | JBool b => b
  | JNum n => negb (n =? 0)%Z
  | JStr s => negb (String.eqb s "")
  end.

(** [a === b] on primitives. *)
Definition strict_eq (a b : jsval) : bool := bool_decide (a = b).

(** [a && b]: the left operand when it is falsy, the right one otherwise. *)
Definition js_and (a b : jsval) : jsval := if truthy a then b else a.

(** ** Connection options and settings *)

(** The properties [getConnectionSettings] destructures from [this.options];
    a property the object lacks reads as [JUndefined]. *)
Record Options := {
  o_id : jsval;
  o_type : jsval;
  o_host : jsval;
  o_cert : jsval;
  o_macaroon : jsval;
  o_protoDir : jsval;
}.

(** The object literal [{}]. *)
Definition empty_options : Options :=
  {| o_id := JUndefined; o_type := JUndefined; o_host := JUndefined;
     o_cert := JUndefined; o_macaroon := JUndefined; o_protoDir := JUndefined |}.

(** The object [getConnectionSettings] returns. *)
Record ConnectionSettings := {
  cs_host : jsval;
  cs_cert : jsval;
  cs_macaroon : jsval;
  cs_waitForMacaroon : jsval;
  cs_waitForCert : jsval;
  cs_useMacaroon : jsval;
  cs_protoDir : jsval;
}.

(** ** Subscription table *)

Abbreviation Handle := nat (only parsing).
Abbreviation PromiseId := nat (only parsing).
Abbreviation Loc := nat (only parsing).

(** A plain object used as a map from subscription key to stream handle.
    [Object.keys] lists string keys in insertion order, and [unsubscribe]
    iterates in that order, so the table is an association list: assignment
    to a new key appends, assignment to a present key keeps its position. *)
Definition Table := list (string * Handle).

Fixpoint tlookup (k : string) (t : Table) : option Handle :=
  match t with
  | [] => None
  | (k', h) :: t' => if String.eqb k' k then Some h else tlookup k t'
  end.

Fixpoint tset (k : string) (h : Handle) (t : Table) : Table :=
  match t with
  | [] => [(k, h)]
  | (k', h') :: t' =>
      if String.eqb k' k then (k', h) :: t' else (k', h') :: tset k h t'
  end.

Fixpoint tdelete (k : string) (t : Table) : Table :=
  match t with
  | [] => []
  | (k', h) :: t' =>
      if String.eqb k' k then tdelete k t' else (k', h) :: tdelete k t'
  end.

Definition Object_keys (t : Table) : list string := t.*1.

(** [static SUBSCRIPTIONS], grpc.js:25-30, in source order. *)
Definition SUBSCRIPTIONS : list (string * string) :=
  [ ("invoices", "subscribeInvoices");
    ("transactions", "subscribeChannelGraph");
    ("channelgraph", "subscribeTransactions");
    ("info", "subscribeGetInfo") ].

(** The own property [key] of [ZapGrpc.SUBSCRIPTIONS]: [None] when the
    object has none. *)
Fixpoint assoc (k : string) (l : list (string * string)) : option string :=
  match l with
  | [] => None
  | (k', v) :: l' => if String.eqb k' k then Some v else assoc k l'
  end.

Definition includes (x : string) (l : list string) : bool :=
  existsb (String.eqb x) l.

(** The table and [ZapGrpc.SUBSCRIPTIONS] are plain objects, written as
    object literals: a read [o[key]] that finds no own property goes on to
    [Object.prototype].  Its members (ECMAScript, "Properties of the Object
    Prototype Object" and the additions of Annex B) are functions, and for
    ["__proto__"] the prototype itself: all truthy, none a string, none
    with a method [on] or [cancel].  An own property hides the member of
    the same name; [Object.keys] and [delete] see own properties only. *)
Definition Object_prototype : list string :=
  ["constructor"; "hasOwnProperty"; "isPrototypeOf"; "propertyIsEnumerable";
   "toLocaleString"; "toString"; "valueOf"; "__proto__";
   "__defineGetter__"; "__defineSetter__";
   "__lookupGetter__"; "__lookupSetter__"].

(** What a read [o[key]] gives: the own property, a member of
    [Object.prototype], or [undefined]. *)
Inductive Read (A : Type) :=
| Own (a : A)
| Inherited
| Undefined.
Arguments Own {A} a.
Arguments Inherited {A}.
Arguments Undefined {A}.

(** [o[key]], given the own property of [o] if it has one. *)
Definition read {A} (key : string) (own : option A) : Read A :=
  match own with
  | Some a => Own a
  | None => if includes key Object_prototype then Inherited else Undefined
  end.

(** The own properties of the two objects are stream handles and method
    names, truthy like the members of the prototype. *)
Definition read_truthy {A} (r : Read A) : bool :=
  match r with
  | Undefined => false
  | Own _ | Inherited => true
  end.

(** [intersection] of the package lodash.intersection, at two arrays: the
    unique values of the first array that the second includes, in the order
    of the first. *)
Fixpoint intersection_from (seen xs ys : list string) : list string :=
  match xs with
  | [] => []
  | x :: xs' =>
      if includes x ys && negb (includes x seen)
      then x :: intersection_from (x :: seen) xs' ys
      else intersection_from seen xs' ys
  end.

Definition intersection (xs ys : list string) : list string :=
  intersection_from [] xs ys.

(** ** Streams, promises, transport *)

(** The four closures the class registers on a stream handle.  Each closes
    over the subscription [key] (not over the handle), and the two of
    [cancelSubscription] also over the [resolve] of their promise. *)
Inductive Listener :=
| SubscribeEnd (key : string)                     (* grpc.js:150-153 *)
| SubscribeStatus (key : string)                  (* grpc.js:155-160 *)
| CancelStatus (key : string) (p : PromiseId)     (* grpc.js:203-209 *)
| CancelEnd (key : string) (p : PromiseId).       (* grpc.js:211-215 *)

Definition listener_key (l : Listener) : string :=
  match l with
  | SubscribeEnd k | SubscribeStatus k | CancelStatus k _ | CancelEnd k _ => k
  end.

Definition listener_promise (l : Listener) : option PromiseId :=
  match l with
  | SubscribeEnd _ | SubscribeStatus _ => None
  | CancelStatus _ p | CancelEnd _ p => Some p
  end.

(** A stream handle: the remote method that opened it, the listeners
    registered with [.on('end')] and [.on('status')] in registration order,
    and how many times [.cancel()] was called on it. *)
Record Stream := {
  s_method : string;
  on_end : list Listener;
  on_status : list Listener;
  cancel_calls : nat;
}.

(** [status.CANCELLED] of @grpc/grpc-js. *)
Definition CANCELLED : Z := 1.

(** The [Lightning] member of the service registry: the names of the methods
    it has, and the methods whose events are forwarded to the bus. *)
Record LightningService := {
  methods : list string;
  forwarded : list string;
}.

(** [this.services]: the object [{}] has no [Lightning]. *)
Record Services := { Lightning : option LightningService }.

(** The three closures [connect] registers on the transport. *)
Inductive GrpcHandler :=
| OnLocked           (* grpc.js:59-61 *)
| OnActive           (* grpc.js:62-65 *)
| OnDisconnected.    (* grpc.js:66-68 *)

(** An [LndGrpc] instance as the class sees it: which instance it is, the
    settings it was built with, its [state], the answer of
    [can('disconnect')], and the listeners registered on it.  [state] and
    [can_disconnect] belong to the package lnd-grpc and move only when the
    environment says so. *)
Record LndGrpc := {
  gid : nat;
  g_settings : ConnectionSettings;
  state : string;
  can_disconnect : bool;
  g_listeners : list (string * GrpcHandler);
}.

Inductive LogEntry :=
| InfoSubscribing (keys : list string)      (* grpc.js:130 *)
| WarnAlreadyActive (key : string)          (* grpc.js:135 *)
| InfoStarted (key : string)                (* grpc.js:143 *)
| InfoEnded (key : string)                  (* grpc.js:151 *)
| InfoCancelled (key : string)              (* grpc.js:158 *)
| InfoUnsubscribing (keys : list string)    (* grpc.js:179 *)
| WarnNotActive (key : string)              (* grpc.js:190 *)
| InfoUnsubscribingFrom (key : string)      (* grpc.js:194 *)
| InfoUnsubscribed (key : string).          (* grpc.js:206, 213 *)

#[global] Instance LogEntry_eq_dec : EqDecision LogEntry.
Proof. solve_decision. Defined.

(** The payload of a [subscribeGetInfo.data] event. *)
Record InfoData := { synced_to_chain : jsval }.

(** ** The world *)

(** The first seven fields are the instance ([this]); [useMacaroon] is the
    property [getConnectionSettings] reads, which no method of the class
    assigns.  [subscriptions] is a reference: [tables] is the heap of table
    objects, where [INITIAL_subscriptions] is the object the literal of
    [static INITIAL_STATE] created.  [streams] and [promises] are the heaps
    of stream handles and of promises (a handle or promise is its index;
    [true] is a resolved promise). *)
Record World := {
  grpc : option LndGrpc;
  options : Options;
  services : Services;
  subscriptions : Loc;
  useMacaroon : jsval;
  info_handlers : nat;
  emitted : list string;
  tables : gmap Loc Table;
  streams : list Stream;
  promises : list bool;
  next_gid : nat;
  log : list LogEntry;
}.

Definition set_grpc (x : option LndGrpc) (w : World) : World :=
  {| grpc := x; options := options w; services := services w;
     subscriptions := subscriptions w; useMacaroon := useMacaroon w;
     info_handlers := info_handlers w; emitted := emitted w;
     tables := tables w;
     streams := streams w; promises := promises w; next_gid := next_gid w;
     log := log w |}.

Definition set_options (x : Options) (w : World) : World :=
  {| grpc := grpc w; options := x; services := services w;
     subscriptions := subscriptions w; useMacaroon := useMacaroon w;
     info_handlers := info_handlers w; emitted := emitted w;
     tables := tables w;
     streams := streams w; promises := promises w; next_gid := next_gid w;
     log := log w |}.

Definition set_services (x : Services) (w : World) : World :=
  {| grpc := grpc w; options := options w; services := x;
     subscriptions := subscriptions w; useMacaroon := useMacaroon w;
     info_handlers := info_handlers w; emitted := emitted w;
     tables := tables w;
     streams := streams w; promises := promises w; next_gid := next_gid w;
     log := log w |}.

Definition set_subscriptions (x : Loc) (w : World) : World :=
  {| grpc := grpc w; options := options w; services := services w;
     subscriptions := x; useMacaroon := useMacaroon w;
     info_handlers := info_handlers w; emitted := emitted w;
     tables := tables w;
     streams := streams w; promises := promises w; next_gid := next_gid w;
     log := log w |}.

Definition set_info_handlers (x : nat) (w : World) : World :=
  {| grpc := grpc w; options := options w; services := services w;
     subscriptions := subscriptions w; useMacaroon := useMacaroon w;
     info_handlers := x; emitted := emitted w; tables := tables w;
     streams := streams w; promises := promises w; next_gid := next_gid w;
     log := log w |}.

Definition set_emitted (x : list string) (w : World) : World :=
  {| grpc := grpc w; options := options w; services := services w;
     subscriptions := subscriptions w; useMacaroon := useMacaroon w;
     info_handlers := info_handlers w; emitted := x; tables := tables w;
     streams := streams w; promises := promises w; next_gid := next_gid w;
     log := log w |}.

Definition set_tables (x : gmap Loc Table) (w : World) : World :=
  {| grpc := grpc w; options := options w; services := services w;
     subscriptions := subscriptions w; useMacaroon := useMacaroon w;
     info_handlers := info_handlers w; emitted := emitted w; tables := x;
     streams := streams w; promises := promises w; next_gid := next_gid w;
     log := log w |}.

Definition set_streams (x : list Stream) (w : World) : World :=
  {| grpc := grpc w; options := options w; services := services w;
     subscriptions := subscriptions w; useMacaroon := useMacaroon w;
     info_handlers := info_handlers w; emitted := emitted w;
     tables := tables w;
     streams := x; promises := promises w; next_gid := next_gid w;
     log := log w |}.

Definition set_promises (x : list bool) (w : World) : World :=
  {| grpc := grpc w; options := options w; services := services w;
     subscriptions := subscriptions w; useMacaroon := useMacaroon w;
     info_handlers := info_handlers w; emitted := emitted w;
     tables := tables w;
     streams := streams w; promises := x; next_gid := next_gid w;
     log := log w |}.

Definition set_next_gid (x : nat) (w : World) : World :=
  {| grpc := grpc w; options := options w; services := services w;
     subscriptions := subscriptions w; useMacaroon := useMacaroon w;
     info_handlers := info_handlers w; emitted := emitted w;
     tables := tables w;
     streams := streams w; promises := promises w; next_gid := x;
     log := log w |}.

Definition set_log (x : list LogEntry) (w : World) : World :=
  {| grpc := grpc w; options := options w; services := services w;
     subscriptions := subscriptions w; useMacaroon := useMacaroon w;
     info_handlers := info_handlers w; emitted := emitted w;
     tables := tables w;
     streams := streams w; promises := promises w; next_gid := next_gid w;
     log := x |}.

(** [static INITIAL_STATE], grpc.js:19-23.  The three object literals are
    evaluated once, when the class is defined; the [subscriptions] one lives
    at [INITIAL_subscriptions] in the heap of tables. *)
Definition INITIAL_options : Options := empty_options.
Definition INITIAL_services : Services := {| Lightning := None |}.
Definition INITIAL_subscriptions : Loc := 0.

(** [Object.assign(this, ZapGrpc.INITIAL_STATE)]: copies the three property
    values; for [subscriptions] that value is a reference to the one table
    object, whose contents the copy does not touch.  ([options] and
    [services] are held by value: the class never mutates the two objects
    of [INITIAL_STATE] they come from.) *)
Definition assign_INITIAL_STATE (w : World) : World :=
  set_subscriptions INITIAL_subscriptions
    (set_services INITIAL_services (set_options INITIAL_options w)).

(** The world after the class definition and [new ZapGrpc()], grpc.js:32-35. *)
Definition initial_world : World :=
  assign_INITIAL_STATE
    {| grpc := None; options := empty_options;
       services := {| Lightning := None |}; subscriptions := 0;
       useMacaroon := JUndefined; info_handlers := 0; emitted := [];
       tables := {[ INITIAL_subscriptions := [] ]}; streams := [];
       promises := []; next_gid := 0; log := [] |}.

(** The table [this.subscriptions] refers to. *)
Definition table (w : World) : Table :=
  default [] (tables w !! subscriptions w).

Definition set_table (t : Table) (w : World) : World :=
  set_tables (<[subscriptions w := t]> (tables w)) w.

(** ** The monad of methods *)

Inductive Error :=
| AlreadyConnected                (* grpc.js:42 *)
| TypeError (what : string)       (* a call or property read on undefined *)
| TeardownError.                  (* the awaited grpc.disconnect rejected *)

Inductive Outcome (A : Type) :=
| Ret (a : A)
| Throw (e : Error).
Arguments Ret {A} a.
Arguments Throw {A} e.

Definition M (A : Type) : Type := World -> Outcome A * World.

Definition ret {A} (a : A) : M A := fun w => (Ret a, w).
Definition throw {A} (e : Error) : M A := fun w => (Throw e, w).
Definition bind {A B} (m : M A) (f : A -> M B) : M B :=
  fun w => match m w with
           | (Ret a, w') => f a w'
           | (Throw e, w') => (Throw e, w')
           end.
Definition gets {A} (f : World -> A) : M A := fun w => (Ret (f w), w).
Definition modify (f : World -> World) : M unit := fun w => (Ret tt, f w).

Declare Scope zap_scope.
Delimit Scope zap_scope with zap.
Notation "'let*' x ':=' m 'in' k" := (bind m (fun x => k))
  (at level 10, x name, m at level 100, k at level 200) : zap_scope.
Notation "'do' m 'then' k" := (bind m (fun _ => k))
  (at level 10, m at level 100, k at level 200) : zap_scope.
Open Scope zap_scope.

(** [array.forEach(f)]: a throwing callback ends the loop. *)
Fixpoint forEach {A} (l : list A) (f : A -> M unit) : M unit :=
  match l with
  | [] => ret tt
  | x :: l' => do f x then forEach l' f
  end.

(** [array.map(f)]. *)
Fixpoint mapM {A B} (l : list A) (f : A -> M B) : M (list B) :=
  match l with
  | [] => ret []
  | x :: l' => let* y := f x in let* ys := mapM l' f in ret (y :: ys)
  end.

(** What an [async] method hands back: it returned without awaiting
    ([Fulfilled]), it threw ([Rejected]), or it returned the promise [p]
    made with [new Promise] ([Deferred]). *)
Inductive Promise :=
| Fulfilled
| Rejected (e : Error)
| Deferred (p : PromiseId).

(** An [async] function never throws to its caller: a throw in its body
    rejects the promise it returns. *)
Definition async (m : M Promise) : M Promise :=
  fun w => match m w with
           | (Ret r, w') => (Ret r, w')
           | (Throw e, w') => (Ret (Rejected e), w')
           end.

(** ** Primitive effects *)

Definition grpcLog (e : LogEntry) : M unit :=
  modify (fun w => set_log (log w ++ [e]) w).

(** [this.subscriptions[key]]. *)
Definition get_entry (key : string) : M (Read Handle) :=
  gets (fun w => read key (tlookup key (table w))).

(** [this.subscriptions[key] = h]. *)
Definition put_entry (key : string) (h : Handle) : M unit :=
  modify (fun w => set_table (tset key h (table w)) w).

(** [delete this.subscriptions[key]]. *)
Definition delete_entry (key : string) : M unit :=
  modify (fun w => set_table (tdelete key (table w)) w).

(** [this.subscriptions[key].m(...)], for [m] one of [on] and [cancel]: a
    method call on the entry, which throws when the entry is undefined, and
    when it is a member of [Object.prototype], which has no such method. *)
Definition the_entry (key : string) (m : string) : M Handle :=
  let* o := get_entry key in
  match o with
  | Own h => ret h
  | Inherited =>
      throw (TypeError
               (String.append "this.subscriptions[key]."
                  (String.append m " is not a function")))
  | Undefined => throw (TypeError "this.subscriptions[key] is undefined")
  end.

(** [new Promise(executor)]: the executor runs at once, and a throw inside
    it does not leave the constructor: it rejects the new promise, which is
    then never resolved. *)
Definition executor (m : M unit) : M unit :=
  fun w => match m w with
           | (Ret _, w') => (Ret tt, w')
           | (Throw _, w') => (Ret tt, w')
           end.

Definition add_end (l : Listener) (s : Stream) : Stream :=
  {| s_method := s_method s; on_end := on_end s ++ [l];
     on_status := on_status s; cancel_calls := cancel_calls s |}.

Definition add_status (l : Listener) (s : Stream) : Stream :=
  {| s_method := s_method s; on_end := on_end s;
     on_status := on_status s ++ [l]; cancel_calls := cancel_calls s |}.

Definition add_cancel (s : Stream) : Stream :=
  {| s_method := s_method s; on_end := on_end s;
     on_status := on_status s; cancel_calls := S (cancel_calls s) |}.

(** [h.on('end', l)], [h.on('status', l)] and [h.cancel()].  The cancel
    request only reaches the transport: the stream answers, if it does, with
    events the environment delivers later. *)
Definition on_end_add (h : Handle) (l : Listener) : M unit :=
  modify (fun w => set_streams (alter (add_end l) h (streams w)) w).
Definition on_status_add (h : Handle) (l : Listener) : M unit :=
  modify (fun w => set_streams (alter (add_status l) h (streams w)) w).
Definition cancel (h : Handle) : M unit :=
  modify (fun w => set_streams (alter add_cancel h (streams w)) w).

(** [new Promise(...)]: a fresh pending promise. *)
Definition new_promise : M PromiseId :=
  fun w => (Ret (length (promises w)), set_promises (promises w ++ [false]) w).

(** [resolve()]. *)
Definition resolve (p : PromiseId) : M unit :=
  modify (fun w => set_promises (<[p := true]> (promises w)) w).

(** Whether the promise [p] has been resolved. *)
Definition resolved (p : PromiseId) (w : World) : bool :=
  default false (promises w !! p).

(** ** The class *)

Section ZapGrpc.

(** Two objects that reach [connect] from outside the sources: the names of
    the composed helper calls exported by [./lightning.methods], and the
    names of the methods of the Lightning service an [LndGrpc] instance is
    built with. *)
Variable lightningMethods : list string.
Variable lndLightning : list string.

(** Modelled from the spec: the export of [./lightning.subscriptions], which
    is not among the sources, is "one subscription-opening method per entry
    in a fixed SUBSCRIPTIONS map (key -> remote streaming-method name)". *)
Definition lightningSubscriptions : list string := SUBSCRIPTIONS.*2.

(** A fresh open stream, as the result of the remote call [m]. *)
Definition new_stream (m : string) : M Handle :=
  fun w =>
    (Ret (length (streams w)),
     set_streams (streams w ++ [{| s_method := m; on_end := [];
                                   on_status := []; cancel_calls := 0 |}]) w).

(** Modelled from the spec: [Lightning[method]()], for a subscription method
    of [./lightning.subscriptions], "obtains a StreamHandle".  The call
    throws when [Lightning] is undefined or has no such method; a [method]
    that is undefined or a member of [Object.prototype] names none. *)
Definition call_stream (L : option LightningService) (method : Read string)
  : M Handle :=
  match L, method with
  | Some l, Own m =>
      if includes m (methods l) then new_stream m
      else throw (TypeError "Lightning[method] is not a function")
  | Some _, (Inherited | Undefined) =>
      throw (TypeError "Lightning[method] is not a function")
  | None, _ => throw (TypeError "Lightning is undefined")
  end.

(** The [Lightning] object is shared with [this.services]: a change made
    through the local constant is a change of the registry's member. *)
Definition update_Lightning (f : LightningService -> LightningService)
  : M unit :=
  modify (fun w => set_services {| Lightning := f <$> Lightning (services w) |} w).

Definition add_forward (m : string) (l : LightningService) : LightningService :=
  {| methods := methods l;
     forwarded := if includes m (forwarded l) then forwarded l
                  else forwarded l ++ [m] |}.

Definition remove_forward (m : string) (l : LightningService)
  : LightningService :=
  {| methods := methods l;
     forwarded := List.filter (fun m' => negb (String.eqb m' m)) (forwarded l) |}.

Definition add_methods (ms : list string) (l : LightningService)
  : LightningService :=
  {| methods := methods l ++ ms; forwarded := forwarded l |}.

(** Modelled from the spec: [forwardAll(group, methodName, bus)] of
    [./helpers], which is not among the sources, "attaches listeners to
    every event the group currently emits under the given method's namespace
    and re-emits each onto the shared bus", "without double-registration".
    A group that is undefined cannot be listened to; a [method] that is no
    method name has no event to forward. *)
Definition forwardAll (L : option LightningService) (method : Read string)
  : M unit :=
  match L, method with
  | Some _, Own m => update_Lightning (add_forward m)
  | Some _, (Inherited | Undefined) => ret tt
  | None, _ => throw (TypeError "Lightning is undefined")
  end.

(** Modelled from the spec: [unforwardAll(group, methodName)] of
    [./helpers] "detaches exactly the listeners that forwardAll attached for
    that method, leaving other forwarders untouched"; "unforwarding a method
    never forwarded" is a no-op. *)
Definition unforwardAll (L : option LightningService) (method : Read string)
  : M unit :=
  match L, method with
  | Some _, Own m => update_Lightning (remove_forward m)
  | Some _, (Inherited | Undefined) => ret tt
  | None, _ => throw (TypeError "Lightning is undefined")
  end.

(** grpc.js:228-237. *)
Definition getConnectionSettings (w : World) : ConnectionSettings :=
  let o := options w in
  let useMacaroon' :=
    js_and (useMacaroon w) (JBool (negb (strict_eq (o_id o) (JStr "tmp")))) in
  let waitForMacaroon := JBool (strict_eq (o_type o) (JStr "local")) in
  let waitForCert := JBool (strict_eq (o_type o) (JStr "local")) in
  {| cs_host := o_host o; cs_cert := o_cert o; cs_macaroon := o_macaroon o;
     cs_waitForMacaroon := waitForMacaroon; cs_waitForCert := waitForCert;
     cs_useMacaroon := useMacaroon'; cs_protoDir := o_protoDir o |}.

(** The body of the [forEach] callback of [subscribe], grpc.js:133-162. *)
Definition subscribe_key (key : string) : M unit :=
  let* e := get_entry key in
  if read_truthy e then grpcLog (WarnAlreadyActive key)
  else
    let* L := gets (fun w => Lightning (services w)) in
    let method := read key (assoc key SUBSCRIPTIONS) in
    let* h := call_stream L method in
    do put_entry key h then
    do grpcLog (InfoStarted key) then
    do forwardAll L method then
    let* e' := get_entry key in
    match e' with
    | Own h' =>
        do on_end_add h' (SubscribeEnd key) then
        on_status_add h' (SubscribeStatus key)
    | Inherited =>
        throw (TypeError "this.subscriptions[key].on is not a function")
    | Undefined => ret tt
    end.

(** The keys a call resolves to, grpc.js:124 and 173. *)
Definition resolve_keys (allSubKeys streams_ : list string) : list string :=
  match streams_ with
  | [] => allSubKeys
  | _ => intersection allSubKeys streams_
  end.

(** grpc.js:121-163. *)
Definition subscribe (streams_ : list string) : M unit :=
  let allSubKeys := SUBSCRIPTIONS.*1 in
  let activeSubKeys := resolve_keys allSubKeys streams_ in
  match activeSubKeys with
  | [] => ret tt
  | _ =>
      do grpcLog (InfoSubscribing activeSubKeys) then
      forEach activeSubKeys subscribe_key
  end.

(** grpc.js:188-223. *)
Definition cancelSubscription (key : string) : M Promise :=
  async (
    let* e := get_entry key in
    if negb (read_truthy e) then
      do grpcLog (WarnNotActive key) then ret Fulfilled
    else
      do grpcLog (InfoUnsubscribingFrom key) then
      let* L := gets (fun w => Lightning (services w)) in
      let method := read key (assoc key SUBSCRIPTIONS) in
      do unforwardAll L method then
      let* p := new_promise in
      do executor (
           let* h1 := the_entry key "on" in
           do on_status_add h1 (CancelStatus key p) then
           let* h2 := the_entry key "on" in
           on_end_add h2 (CancelEnd key p)) then
      let* h3 := the_entry key "cancel" in
      do cancel h3 then
      ret (Deferred p)).

(** grpc.js:170-183.  The result is the array [unsubscribe] awaits with
    [Promise.all]; it is empty when the method returns at line 176. *)
Definition unsubscribe (streams_ : list string) : M (list Promise) :=
  let* allSubKeys := gets (fun w => Object_keys (table w)) in
  let activeSubKeys := resolve_keys allSubKeys streams_ in
  match activeSubKeys with
  | [] => ret []
  | _ =>
      do grpcLog (InfoUnsubscribing activeSubKeys) then
      mapM activeSubKeys cancelSubscription
  end.

(** The listener of grpc.js:108-114. *)
Definition on_info_data (data : InfoData) : M unit :=
  let* e := get_entry "channelgraph" in
  if truthy (synced_to_chain data) && negb (read_truthy e) then
    do subscribe ["channelgraph"] then
    let* _ := unsubscribe ["info"] in
    ret tt
  else ret tt.

(** grpc.js:102-115: [info_handlers] counts the listeners registered on
    [subscribeGetInfo.data]. *)
Definition subscribeAll : M unit :=
  do subscribe ["invoices"; "transactions"; "info"] then
  modify (fun w => set_info_handlers (S (info_handlers w)) w).

Definition GRPC_WALLET_UNLOCKER_SERVICE_ACTIVE : string :=
  "GRPC_WALLET_UNLOCKER_SERVICE_ACTIVE".
Definition GRPC_LIGHTNING_SERVICE_ACTIVE : string :=
  "GRPC_LIGHTNING_SERVICE_ACTIVE".

(** [this.emit(name)] for the two life-cycle events. *)
Definition this_emit (name : string) : M unit :=
  modify (fun w => set_emitted (emitted w ++ [name]) w).

(** [new LndGrpc(grpcOptions)]: a new instance of the package's class, in
    its initial state ["ready"], bound to [this.grpc]. *)
Definition new_LndGrpc (grpcOptions : ConnectionSettings) : M unit :=
  modify (fun w =>
    set_next_gid (S (next_gid w))
      (set_grpc (Some {| gid := next_gid w; g_settings := grpcOptions;
                         state := "ready"; can_disconnect := false;
                         g_listeners := [] |}) w)).

(** The [services] of a new instance. *)
Definition LndGrpc_services : Services :=
  {| Lightning := Some {| methods := lndLightning; forwarded := [] |} |}.

(** [Object.assign(this.services.Lightning, ms)]. *)
Definition assign_Lightning (ms : list string) : M unit :=
  let* L := gets (fun w => Lightning (services w)) in
  match L with
  | Some _ => update_Lightning (add_methods ms)
  | None => throw (TypeError "Object.assign: target is undefined")
  end.

Definition grpc_add_listener (name : string) (hd : GrpcHandler) (g : LndGrpc)
  : LndGrpc :=
  {| gid := gid g; g_settings := g_settings g; state := state g;
     can_disconnect := can_disconnect g;
     g_listeners := g_listeners g ++ [(name, hd)] |}.

Definition grpc_remove_listeners (name : string) (g : LndGrpc) : LndGrpc :=
  {| gid := gid g; g_settings := g_settings g; state := state g;
     can_disconnect := can_disconnect g;
     g_listeners :=
       List.filter (fun e => negb (String.eqb (fst e) name)) (g_listeners g) |}.

(** [this.grpc.on(name, hd)] and [this.grpc.removeAllListeners(name)]. *)
Definition grpc_on (name : string) (hd : GrpcHandler) : M unit :=
  let* g := gets grpc in
  match g with
  | Some gi => modify (set_grpc (Some (grpc_add_listener name hd gi)))
  | None => throw (TypeError "this.grpc is undefined")
  end.

Definition removeAllListeners (name : string) : M unit :=
  let* g := gets grpc in
  match g with
  | Some gi => modify (set_grpc (Some (grpc_remove_listeners name gi)))
  | None => throw (TypeError "this.grpc is undefined")
  end.

(** The guard of grpc.js:41. *)
Definition already_connected (g : option LndGrpc) : bool :=
  match g with
  | Some gi => negb (String.eqb (state gi) "ready")
  | None => false
  end.

(** grpc.js:40-72.  The promise of [this.grpc.connect(options)] belongs to
    the transport: what it does shows as later events. *)
Definition connect (opts : Options) : M unit :=
  let* g := gets grpc in
  if already_connected g then throw AlreadyConnected
  else
    do modify (set_options opts) then
    let* grpcOptions := gets getConnectionSettings in
    do new_LndGrpc grpcOptions then
    do modify (set_services LndGrpc_services) then
    do assign_Lightning lightningMethods then
    do assign_Lightning lightningSubscriptions then
    do grpc_on "locked" OnLocked then
    do grpc_on "active" OnActive then
    grpc_on "disconnected" OnDisconnected.

(** Where a call of [disconnect] stops: at its end, or at the [await] of
    grpc.js:80. *)
Inductive Await :=
| Finished
| AwaitTeardown.

(** grpc.js:83-85. *)
Definition remove_handlers : M unit :=
  do removeAllListeners "locked" then
  do removeAllListeners "active" then
  removeAllListeners "disconnected".

(** grpc.js:77-90, up to the [await] if there is one. *)
Definition disconnect_call : M Await :=
  let* g := gets grpc in
  match g with
  | Some gi =>
      if can_disconnect gi then ret AwaitTeardown
      else
        do remove_handlers then
        do modify assign_INITIAL_STATE then
        ret Finished
  | None =>
      do modify assign_INITIAL_STATE then
      ret Finished
  end.

(** grpc.js:80-90, from the [await] on: [ok] tells whether the promise of
    [this.grpc.disconnect(args)] was fulfilled.  When it was rejected the
    [await] throws, and nothing in the method catches it. *)
Definition disconnect_resume (ok : bool) : M unit :=
  if ok then
    do remove_handlers then
    modify assign_INITIAL_STATE
  else throw TeardownError.

(** ** Events *)

(** The listeners of a stream, by the event they were registered for.  A
    listener is never run for the other event. *)
Definition end_listener (l : Listener) : M unit :=
  match l with
  | SubscribeEnd key =>
      do grpcLog (InfoEnded key) then
      delete_entry key
  | CancelEnd key p =>
      do delete_entry key then
      do grpcLog (InfoUnsubscribed key) then
      resolve p
  | SubscribeStatus _ | CancelStatus _ _ => ret tt
  end.

Definition status_listener (code : Z) (l : Listener) : M unit :=
  match l with
  | SubscribeStatus key =>
      if (code =? CANCELLED)%Z then
        do delete_entry key then
        grpcLog (InfoCancelled key)
      else ret tt
  | CancelStatus key p =>
      if (code =? CANCELLED)%Z then
        do delete_entry key then
        do grpcLog (InfoUnsubscribed key) then
        resolve p
      else ret tt
  | SubscribeEnd _ | CancelEnd _ _ => ret tt
  end.

(** The stream [h] emits ['end'], or ['status'] with [callStatus.code]. *)
Definition emit_end (h : Handle) : M unit :=
  let* s := gets (fun w => streams w !! h) in
  match s with
  | Some s => forEach (on_end s) end_listener
  | None => ret tt
  end.

Definition emit_status (h : Handle) (code : Z) : M unit :=
  let* s := gets (fun w => streams w !! h) in
  match s with
  | Some s => forEach (on_status s) (status_listener code)
  | None => ret tt
  end.

(** The bus emits [subscribeGetInfo.data]: every listener registered by
    [subscribeAll] runs. *)
Definition emit_info_data (d : InfoData) : M unit :=
  let* n := gets info_handlers in
  forEach (replicate n tt) (fun _ => on_info_data d).

(** The Lightning service emits [subscribeGetInfo.data]; it reaches the bus
    when the forwarder of that method is attached. *)
Definition Lightning_emits_info_data (d : InfoData) : M unit :=
  let* L := gets (fun w => Lightning (services w)) in
  match L with
  | Some l =>
      if includes "subscribeGetInfo" (forwarded l) then emit_info_data d
      else ret tt
  | None => ret tt
  end.

Definition grpc_handler (hd : GrpcHandler) : M unit :=
  match hd with
  | OnLocked => this_emit GRPC_WALLET_UNLOCKER_SERVICE_ACTIVE
  | OnActive =>
      do this_emit GRPC_LIGHTNING_SERVICE_ACTIVE then
      subscribeAll
  | OnDisconnected =>
      let* _ := unsubscribe [] in
      ret tt
  end.

(** The transport emits [name]. *)
Definition grpc_emit (name : string) : M unit :=
  let* g := gets grpc in
  match g with
  | Some gi =>
      forEach
        (List.filter (fun e => String.eqb (fst e) name) (g_listeners gi)).*2
        grpc_handler
  | None => ret tt
  end.

(** The transport's state machine moved. *)
Definition grpc_moves (s : string) (can : bool) : M unit :=
  let* g := gets grpc in
  match g with
  | Some gi =>
      modify (set_grpc (Some {| gid := gid gi; g_settings := g_settings gi;
                                state := s; can_disconnect := can;
                                g_listeners := g_listeners gi |}))
  | None => ret tt
  end.

(** What can happen to the instance: a caller calls a method, an awaited
    teardown settles, a stream or the transport emits an event. *)
Inductive Event :=
| Call_connect (o : Options)
| Call_disconnect
| Resume_disconnect (ok : bool)
| Call_subscribeAll
| Call_subscribe (keys : list string)
| Call_unsubscribe (keys : list string)
| Call_cancelSubscription (key : string)
| Stream_end (h : Handle)
| Stream_status (h : Handle) (code : Z)
| Lightning_info_data (d : InfoData)
| Grpc_moves (s : string) (can : bool)
| Grpc_emit (name : string).

Definition step (ev : Event) : M unit :=
  match ev with
  | Call_connect o => connect o
  | Call_disconnect => let* _ := disconnect_call in ret tt
  | Resume_disconnect ok => disconnect_resume ok
  | Call_subscribeAll => subscribeAll
  | Call_subscribe keys => subscribe keys
  | Call_unsubscribe keys => let* _ := unsubscribe keys in ret tt
  | Call_cancelSubscription key => let* _ := cancelSubscription key in ret tt
  | Stream_end h => emit_end h
  | Stream_status h code => emit_status h code
  | Lightning_info_data d => Lightning_emits_info_data d
  | Grpc_moves s can => grpc_moves s can
  | Grpc_emit name => grpc_emit name
  end.

(** The world after an event; a throw leaves the world as it was when it
    happened. *)
Definition exec (ev : Event) (w : World) : World := (step ev w).2.

Definition run (evs : list Event) (w : World) : World :=
  foldl (fun w ev => exec ev w) w evs.

(** [disconnect(...args)] from call to return, grpc.js:77-90: when the
    method has to wait for the teardown, the events [during] happen while
    it waits, and [ok] tells how the teardown settles.  A [Throw] is the
    rejection of the promise the method returns. *)
Definition disconnect (during : list Event) (ok : bool) : M unit :=
  fun w =>
    match disconnect_call w with
    | (Ret Finished, w1) => (Ret tt, w1)
    | (Ret AwaitTeardown, w1) => disconnect_resume ok (run during w1)
    | (Throw e, w1) => (Throw e, w1)
    end.

(** Whether an event is a terminating event of the stream [h]: ['end'], or
    ['status'] with code CANCELLED. *)
Definition terminates (h : Handle) (ev : Event) : bool :=
  match ev with
  | Stream_end h' => bool_decide (h' = h)
  | Stream_status h' code => bool_decide (h' = h) && (code =? CANCELLED)%Z
  | _ => false
  end.


(** * Properties *)

(** ** The table *)

Lemma tlookup_tset_eq k h t : tlookup k (tset k h t) = Some h.
Proof.
  induction t as [|[k' h'] t IH]; simpl.
  - by rewrite String.eqb_refl.
  - destruct (String.eqb k' k) eqn:E; simpl; rewrite E; done.
Qed.

Lemma tlookup_tset_ne k k' h t :
  k <> k' -> tlookup k' (tset k h t) = tlookup k' t.
Proof.
  intros Hne. induction t as [|[k0 h0] t IH]; simpl.
  - by apply String.eqb_neq in Hne as ->.
  - destruct (String.eqb k0 k) eqn:E; simpl.
    + apply String.eqb_eq in E as ->.
      by apply String.eqb_neq in Hne as ->.
    + by rewrite IH.
Qed.

Lemma tlookup_tdelete_eq k t : tlookup k (tdelete k t) = None.
Proof.
  induction t as [|[k' h'] t IH]; simpl; [done|].
  destruct (String.eqb k' k) eqn:E; simpl; [done|]. by rewrite E.
Qed.

Lemma tlookup_tdelete_ne k k' t :
  k <> k' -> tlookup k' (tdelete k t) = tlookup k' t.
Proof.
  intros Hne. induction t as [|[k0 h0] t IH]; simpl; [done|].
  destruct (String.eqb k0 k) eqn:E; simpl.
  - apply String.eqb_eq in E as ->.
    by apply String.eqb_neq in Hne as ->.
  - by rewrite IH.
Qed.

Lemma tdelete_absent k t : tlookup k t = None -> tdelete k t = t.
Proof.
  induction t as [|[k' h'] t IH]; simpl; [done|].
  destruct (String.eqb k' k); [done|]. intros H. by rewrite IH.
Qed.

Lemma tset_absent k h t : tlookup k t = None -> tset k h t = t ++ [(k, h)].
Proof.
  induction t as [|[k' h'] t IH]; simpl; [done|].
  destruct (String.eqb k' k); [done|]. intros H. by rewrite IH.
Qed.

Lemma tlookup_None_keys k t : tlookup k t = None <-> k ∉ Object_keys t.
Proof.
  unfold Object_keys. induction t as [|[k' h'] t IH]; simpl.
  - split; [intros _; apply not_elem_of_nil | done].
  - rewrite not_elem_of_cons. destruct (String.eqb k' k) eqn:E.
    + apply String.eqb_eq in E as ->. split; [done|]. by intros [? _].
    + apply String.eqb_neq in E. rewrite IH. naive_solver.
Qed.

Lemma table_set_table t w : table (set_table t w) = t.
Proof. unfold table, set_table. simpl. by rewrite lookup_insert_eq. Qed.

Lemma table_set_log l w : table (set_log l w) = table w.
Proof. reflexivity. Qed.

Lemma includes_elem_of x l : includes x l = true <-> x ∈ l.
Proof.
  unfold includes. rewrite existsb_exists. split.
  - intros (y & Hy & E). apply String.eqb_eq in E as ->.
    by apply list_elem_of_In.
  - intros H. exists x. split; [by apply list_elem_of_In|].
    apply String.eqb_refl.
Qed.

Lemma includes_not_elem_of x l : includes x l = false <-> x ∉ l.
Proof.
  rewrite <- includes_elem_of. destruct (includes x l); naive_solver.
Qed.

(** [intersection]: membership, no duplicates. *)
Lemma elem_of_intersection_from x seen xs ys :
  x ∈ intersection_from seen xs ys <-> x ∈ xs /\ x ∈ ys /\ x ∉ seen.
Proof.
  revert seen. induction xs as [|a xs IH]; intros seen; simpl.
  - split; [by intros ?%elem_of_nil | by intros [?%elem_of_nil _]].
  - destruct (includes a ys) eqn:Ey; simpl.
    + destruct (includes a seen) eqn:Es; simpl.
      * apply includes_elem_of in Ey, Es. rewrite IH, elem_of_cons.
        split; [naive_solver|]. intros ([->|?] & ? & ?); naive_solver.
      * apply includes_elem_of in Ey. apply includes_not_elem_of in Es.
        rewrite !elem_of_cons, IH, not_elem_of_cons.
        destruct (decide (x = a)) as [->|]; naive_solver.
    + apply includes_not_elem_of in Ey. rewrite IH, elem_of_cons.
      split; [naive_solver|]. intros ([->|?] & ? & ?); naive_solver.
Qed.

Lemma NoDup_intersection_from seen xs ys :
  NoDup (intersection_from seen xs ys).
Proof.
  revert seen. induction xs as [|a xs IH]; intros seen; simpl.
  - constructor.
  - destruct (includes a ys && negb (includes a seen)); [|done].
    constructor; [|done]. rewrite elem_of_intersection_from.
    intros (_ & _ & Hn). apply Hn. by left.
Qed.

Lemma elem_of_intersection x xs ys :
  x ∈ intersection xs ys <-> x ∈ xs /\ x ∈ ys.
Proof.
  unfold intersection. rewrite elem_of_intersection_from.
  split; [naive_solver|]. intros [? ?]. split_and!; [done..|].
  apply not_elem_of_nil.
Qed.

Lemma NoDup_intersection xs ys : NoDup (intersection xs ys).
Proof. apply NoDup_intersection_from. Qed.

(** ** Connection settings *)

Definition local_options : Options :=
  {| o_id := JStr "wallet-1"; o_type := JStr "local";
     o_host := JStr "localhost:10009"; o_cert := JStr "tls.cert";
     o_macaroon := JStr "admin.macaroon"; o_protoDir := JStr "proto" |}.

Definition tmp_options : Options :=
  {| o_id := JStr "tmp"; o_type := JStr "local";
     o_host := JStr "localhost:10009"; o_cert := JStr "tls.cert";
     o_macaroon := JUndefined; o_protoDir := JStr "proto" |}.

(** The two wait flags follow the connection type. *)
Lemma getConnectionSettings_wait w :
  o_type (options w) = JStr "local" ->
  cs_waitForMacaroon (getConnectionSettings w) = JBool true /\
  cs_waitForCert (getConnectionSettings w) = JBool true.
Proof. intros H. unfold getConnectionSettings. simpl. by rewrite H. Qed.

(** [useMacaroon] is [this.useMacaroon && id !== 'tmp']: falsy as soon as
    the instance property is. *)
Lemma getConnectionSettings_useMacaroon w :
  cs_useMacaroon (getConnectionSettings w) =
  js_and (useMacaroon w)
         (JBool (negb (strict_eq (o_id (options w)) (JStr "tmp")))).
Proof. reflexivity. Qed.

(** ** Connect and disconnect *)

(** The transport [connect] builds, and the registry it installs. *)
Definition connected_grpc (opts : Options) (w : World) : LndGrpc :=
  {| gid := next_gid w;
     g_settings := getConnectionSettings (set_options opts w);
     state := "ready"; can_disconnect := false;
     g_listeners := [("locked", OnLocked); ("active", OnActive);
                     ("disconnected", OnDisconnected)] |}.

Definition connected_services : Services :=
  {| Lightning :=
       Some {| methods := (lndLightning ++ lightningMethods)
                            ++ lightningSubscriptions;
               forwarded := [] |} |}.

Definition connected_world (opts : Options) (w : World) : World :=
  set_grpc (Some (connected_grpc opts w))
    (set_services connected_services
       (set_next_gid (S (next_gid w)) (set_options opts w))).

Lemma connect_throws opts w :
  already_connected (grpc w) = true ->
  connect opts w = (Throw AlreadyConnected, w).
Proof.
  intros H. unfold connect, bind, gets. simpl.
  by rewrite H.
Qed.

Lemma connect_builds opts w :
  already_connected (grpc w) = false ->
  connect opts w = (Ret tt, connected_world opts w).
Proof.
  intros H. unfold connect, bind, gets. simpl. by rewrite H.
Qed.

Lemma already_connected_spec g :
  already_connected g = true <->
  exists gi, g = Some gi /\ state gi <> "ready".
Proof.
  destruct g as [gi|]; simpl.
  - rewrite negb_true_iff, String.eqb_neq. naive_solver.
  - naive_solver.
Qed.

(** C5: [connect(options)] throws "already connected", with the world
    untouched, exactly when [this.grpc] is set and its state is not
    ["ready"] (the state of a transport that is not connected); otherwise it
    returns after installing a new transport instance, built from
    [getConnectionSettings], and the registry of that instance. *)
Theorem connect_already_connected (opts : Options) (w : World) :
  let busy := exists gi, grpc w = Some gi /\ state gi <> "ready" in
  (busy <-> connect opts w = (Throw AlreadyConnected, w)) /\
  (busy <-> exists e w', connect opts w = (Throw e, w')) /\
  (~ busy <->
   connect opts w = (Ret tt, connected_world opts w)) /\
  grpc (connected_world opts w) = Some (connected_grpc opts w) /\
  gid (connected_grpc opts w) = next_gid w /\
  options (connected_world opts w) = opts /\
  services (connected_world opts w) = connected_services.
Proof.
  intros busy.
  assert (Hb : busy <-> already_connected (grpc w) = true)
    by (symmetry; apply already_connected_spec).
  destruct (already_connected (grpc w)) eqn:E.
  - assert (busy) by by apply Hb.
    rewrite (connect_throws _ _ E).
    split; [done|]. split; [split; eauto|]. split; [|done].
    split; [done | discriminate].
  - assert (~ busy) by (rewrite Hb; discriminate).
    rewrite (connect_builds _ _ E).
    split; [split; [done | discriminate]|].
    split; [split; [done | by intros (? & ? & ?)]|]. done.
Qed.

(** *** disconnect *)

Definition without_handlers (g : LndGrpc) : LndGrpc :=
  grpc_remove_listeners "disconnected"
    (grpc_remove_listeners "active" (grpc_remove_listeners "locked" g)).

Lemma remove_handlers_eq w g :
  grpc w = Some g ->
  remove_handlers w = (Ret tt, set_grpc (Some (without_handlers g)) w).
Proof.
  intros H. unfold remove_handlers, removeAllListeners, bind, gets, modify.
  simpl. rewrite H. reflexivity.
Qed.

Lemma remove_handlers_None w :
  grpc w = None -> exists e, remove_handlers w = (Throw e, w).
Proof.
  intros H. unfold remove_handlers, removeAllListeners, bind, gets, modify.
  simpl. rewrite H. eauto.
Qed.

Lemma disconnect_call_None w :
  grpc w = None -> disconnect_call w = (Ret Finished, assign_INITIAL_STATE w).
Proof. intros H. unfold disconnect_call, bind, gets. simpl. by rewrite H. Qed.

Lemma disconnect_call_cannot w g :
  grpc w = Some g -> can_disconnect g = false ->
  disconnect_call w =
    (Ret Finished,
     assign_INITIAL_STATE (set_grpc (Some (without_handlers g)) w)).
Proof.
  intros H Hc. unfold disconnect_call, bind, gets. simpl. rewrite H, Hc.
  pose proof (remove_handlers_eq w g H) as Hr.
  unfold bind in *. cbv beta. rewrite Hr. reflexivity.
Qed.

Lemma disconnect_call_can w g :
  grpc w = Some g -> can_disconnect g = true ->
  disconnect_call w = (Ret AwaitTeardown, w).
Proof.
  intros H Hc. unfold disconnect_call, bind, gets. simpl. by rewrite H, Hc.
Qed.

Lemma disconnect_resume_ok w g :
  grpc w = Some g ->
  disconnect_resume true w =
    (Ret tt, assign_INITIAL_STATE (set_grpc (Some (without_handlers g)) w)).
Proof.
  intros H. unfold disconnect_resume, bind.
  rewrite (remove_handlers_eq w g H). reflexivity.
Qed.

(** Every way [disconnect] ends without an error. *)
Definition disconnect_returns (w w' : World) : Prop :=
  disconnect_call w = (Ret Finished, w') \/
  disconnect_resume true w = (Ret tt, w').

Lemma disconnect_returns_inv w w' :
  disconnect_returns w w' ->
  w' = assign_INITIAL_STATE (set_grpc (without_handlers <$> grpc w) w).
Proof.
  intros [H|H].
  - destruct (grpc w) as [g|] eqn:Eg.
    + destruct (can_disconnect g) eqn:Ec.
      * rewrite (disconnect_call_can w g Eg Ec) in H. discriminate.
      * rewrite (disconnect_call_cannot w g Eg Ec) in H.
        by injection H as <-.
    + rewrite (disconnect_call_None w Eg) in H. injection H as <-.
      simpl. f_equal. destruct w; simpl in *. by subst.
  - destruct (grpc w) as [g|] eqn:Eg.
    + rewrite (disconnect_resume_ok w g Eg) in H. by injection H as <-.
    + unfold disconnect_resume, bind in H.
      destruct (remove_handlers_None w Eg) as [e He]. rewrite He in H.
      discriminate.
Qed.

Lemma disconnect_inv during ok w w' :
  disconnect during ok w = (Ret tt, w') ->
  disconnect_returns w w' \/ disconnect_returns (run during w) w'.
Proof.
  unfold disconnect. destruct (disconnect_call w) as [[[]|e] w1] eqn:E.
  - intros [= <-]. left. by left.
  - assert (w1 = w) as ->.
    { destruct (grpc w) as [g|] eqn:Eg.
      - destruct (can_disconnect g) eqn:Ec.
        + rewrite (disconnect_call_can w g Eg Ec) in E. by injection E.
        + rewrite (disconnect_call_cannot w g Eg Ec) in E. discriminate.
      - rewrite (disconnect_call_None w Eg) in E. discriminate. }
    destruct ok; [|discriminate]. intros H. right. by right.
  - discriminate.
Qed.

(** C6, as the code has it: with no transport, [disconnect()] returns
    without an error; every [disconnect] that returns leaves [options] and
    [services] at their initial empty values and [subscriptions] bound to
    the table object of [INITIAL_STATE], whose contents the assignment
    does not touch; a call that has to wait for the teardown resets nothing
    before the wait, and when the teardown fails it ends in that failure
    with nothing reset. *)
Theorem disconnect_resets_registries (w : World) :
  (grpc w = None ->
   forall during ok,
     disconnect during ok w = (Ret tt, assign_INITIAL_STATE w)) /\
  (forall during ok w',
     disconnect during ok w = (Ret tt, w') ->
     options w' = empty_options /\
     services w' = {| Lightning := None |} /\
     subscriptions w' = INITIAL_subscriptions) /\
  (forall w',
     disconnect_returns w w' ->
     options w' = empty_options /\
     services w' = {| Lightning := None |} /\
     subscriptions w' = INITIAL_subscriptions /\
     tables w' = tables w) /\
  (forall w', disconnect_call w = (Ret AwaitTeardown, w') -> w' = w) /\
  disconnect_resume false w = (Throw TeardownError, w) /\
  (forall g during,
     grpc w = Some g -> can_disconnect g = true ->
     disconnect during false w = (Throw TeardownError, run during w)).
Proof.
  split_and!.
  - intros Hg during ok. unfold disconnect.
    by rewrite (disconnect_call_None w Hg).
  - intros during ok w' [H|H]%disconnect_inv;
      apply disconnect_returns_inv in H as ->; done.
  - intros w' ->%disconnect_returns_inv. done.
  - intros w' H. destruct (grpc w) as [g|] eqn:Eg.
    + destruct (can_disconnect g) eqn:Ec.
      * rewrite (disconnect_call_can w g Eg Ec) in H. by injection H.
      * rewrite (disconnect_call_cannot w g Eg Ec) in H. discriminate.
    + rewrite (disconnect_call_None w Eg) in H. discriminate.
  - reflexivity.
  - intros g during Hg Hc. unfold disconnect.
    by rewrite (disconnect_call_can w g Hg Hc).
Qed.

(** C10: a [disconnect] that returns changes [options], [services] and
    [subscriptions], and removes the three listeners of the transport;
    [this.grpc] still is the instance it was, in the state it was, and the
    next [connect] throws exactly when that state is not ["ready"]. *)
Theorem disconnect_keeps_transport (w w' : World) (g : LndGrpc) :
  grpc w = Some g ->
  disconnect_returns w w' ->
  w' = assign_INITIAL_STATE (set_grpc (Some (without_handlers g)) w) /\
  (exists g', grpc w' = Some g' /\ gid g' = gid g /\ state g' = state g /\
              g_settings g' = g_settings g) /\
  useMacaroon w' = useMacaroon w /\ info_handlers w' = info_handlers w /\
  streams w' = streams w /\ promises w' = promises w /\
  table w' = default [] (tables w !! INITIAL_subscriptions) /\
  (forall opts,
     state g <> "ready" <-> connect opts w' = (Throw AlreadyConnected, w')).
Proof.
  intros Hg ->%disconnect_returns_inv. rewrite Hg. simpl.
  split_and!; try done.
  - eexists. split; [reflexivity|]. done.
  - intros opts.
    set (w' := assign_INITIAL_STATE _).
    pose proof (connect_already_connected opts w') as (H1 & _).
    simpl in H1. rewrite <- H1. subst w'. simpl.
    split.
    + intros Hs. eexists. split; [reflexivity|]. done.
    + intros (gi & [= <-] & Hs). done.
Qed.


(** ** subscribe *)

Local Arguments assoc : simpl never.

Lemma alter_snoc {A} (f : A -> A) (l : list A) (x : A) :
  alter f (length l) (l ++ [x]) = l ++ [f x].
Proof. by rewrite alter_app_r_alt, Nat.sub_diag by lia. Qed.

(** The registry has a Lightning service with the four streaming methods,
    as it does from [connect] to [disconnect]. *)
Definition has_streaming (w : World) : bool :=
  match Lightning (services w) with
  | Some l => forallb (fun m => includes m (methods l)) lightningSubscriptions
  | None => false
  end.

Lemma has_streaming_method w k m :
  has_streaming w = true -> assoc k SUBSCRIPTIONS = Some m ->
  exists l, Lightning (services w) = Some l /\ includes m (methods l) = true.
Proof.
  unfold has_streaming. destruct (Lightning (services w)) as [l|]; [|done].
  intros H Hm. exists l. split; [done|].
  rewrite forallb_forall in H. apply H. apply list_elem_of_In.
  unfold assoc, SUBSCRIPTIONS in Hm. unfold lightningSubscriptions. simpl.
  repeat (destruct (String.eqb _ k);
          [injection Hm as <-; set_solver|]).
  done.
Qed.

Lemma assoc_known k :
  k ∈ SUBSCRIPTIONS.*1 -> exists m, assoc k SUBSCRIPTIONS = Some m.
Proof.
  simpl. rewrite !elem_of_cons, elem_of_nil.
  intros [->|[->|[->|[->|[]]]]]; eexists; reflexivity.
Qed.

(** The keys of [SUBSCRIPTIONS] are no member of [Object.prototype]: for
    them a read finds the own property or nothing. *)
Lemma known_not_inherited k :
  k ∈ SUBSCRIPTIONS.*1 -> includes k Object_prototype = false.
Proof.
  simpl. rewrite !elem_of_cons, elem_of_nil.
  intros [->|[->|[->|[->|[]]]]]; reflexivity.
Qed.

Lemma assoc_unknown k l : k ∉ l.*1 -> assoc k l = None.
Proof.
  induction l as [|[k' m] l IH]; [done|].
  rewrite fmap_cons, not_elem_of_cons. intros [Hne Hl].
  change (assoc k ((k', m) :: l))
    with (if String.eqb k' k then Some m else assoc k l).
  destruct (String.eqb_spec k' k) as [->|_]; [done | by apply IH].
Qed.

Lemma assoc_Some_known k m :
  assoc k SUBSCRIPTIONS = Some m -> k ∈ SUBSCRIPTIONS.*1.
Proof.
  intros Hm. destruct (decide (k ∈ SUBSCRIPTIONS.*1)) as [|Hn]; [done|].
  rewrite (assoc_unknown k SUBSCRIPTIONS Hn) in Hm. discriminate.
Qed.

Lemma read_None_known {A} k :
  k ∈ SUBSCRIPTIONS.*1 -> @read A k None = Undefined.
Proof. intros H. unfold read. by rewrite (known_not_inherited k H). Qed.

Lemma read_truthy_own {A} k (o : option A) :
  includes k Object_prototype = false ->
  read_truthy (read k o) = bool_decide (is_Some o).
Proof.
  intros H. unfold read. rewrite H. by destruct o.
Qed.

(** The world after [subscribe]'s callback started the stream of [key] with
    the remote method [m]. *)
Definition subscribed (key m : string) (w : World) : World :=
  set_streams
    (streams w ++ [{| s_method := m; on_end := [SubscribeEnd key];
                      on_status := [SubscribeStatus key];
                      cancel_calls := 0 |}])
    (set_services {| Lightning := add_forward m <$> Lightning (services w) |}
       (set_log (log w ++ [InfoStarted key])
          (set_table (table w ++ [(key, length (streams w))]) w))).

Lemma subscribe_key_active key h w :
  tlookup key (table w) = Some h ->
  subscribe_key key w =
    (Ret tt, set_log (log w ++ [WarnAlreadyActive key]) w).
Proof.
  intros Ht. unfold subscribe_key, bind, get_entry, gets. simpl.
  by rewrite Ht.
Qed.

Lemma subscribe_key_new key m w :
  tlookup key (table w) = None ->
  has_streaming w = true ->
  assoc key SUBSCRIPTIONS = Some m ->
  subscribe_key key w = (Ret tt, subscribed key m w).
Proof.
  intros Ht Hs Hm.
  destruct (has_streaming_method w key m Hs Hm) as (l & HL & Hi).
  pose proof (assoc_Some_known key m Hm) as Hk.
  unfold subscribe_key, bind, get_entry, gets. simpl.
  rewrite Ht, (read_None_known key Hk). simpl.
  rewrite HL, Hm. simpl. rewrite Hi. simpl.
  unfold table at 1, set_table. simpl. rewrite lookup_insert_eq. simpl.
  rewrite tlookup_tset_eq. simpl. unfold on_status_add, modify. simpl.
  rewrite !alter_snoc. simpl.
  unfold subscribed, set_table. simpl.
  fold (table w). rewrite (tset_absent _ _ _ Ht). by rewrite HL.
Qed.

Lemma subscribed_has_streaming key m w :
  has_streaming w = true -> has_streaming (subscribed key m w) = true.
Proof.
  unfold has_streaming. simpl.
  by destruct (Lightning (services w)).
Qed.

Lemma table_subscribed key m w :
  table (subscribed key m w) = table w ++ [(key, length (streams w))].
Proof. unfold subscribed. apply table_set_table. Qed.

Lemma tlookup_app k t1 t2 :
  tlookup k (t1 ++ t2) =
  match tlookup k t1 with Some h => Some h | None => tlookup k t2 end.
Proof.
  induction t1 as [|[k' h'] t1 IH]; simpl; [done|].
  by destruct (String.eqb k' k).
Qed.

(** The stream [subscribe] starts for [key], with its two listeners. *)
Definition started_stream (key : string) : Stream :=
  {| s_method := default "" (assoc key SUBSCRIPTIONS);
     on_end := [SubscribeEnd key]; on_status := [SubscribeStatus key];
     cancel_calls := 0 |}.

(** What the callback logs for [key], given the table it found. *)
Definition subscribe_log (t : Table) (key : string) : LogEntry :=
  match tlookup key t with
  | Some _ => WarnAlreadyActive key
  | None => InfoStarted key
  end.

(** The keys of [ks] with no entry in [t]. *)
Definition inactive (t : Table) (ks : list string) : list string :=
  filter (fun k => tlookup k t = None) ks.

Lemma inactive_ext t1 t2 ks :
  (forall k, k ∈ ks -> tlookup k t1 = tlookup k t2) ->
  inactive t1 ks = inactive t2 ks.
Proof.
  unfold inactive. induction ks as [|k ks IH]; intros H; [done|].
  rewrite !filter_cons, (H k) by (by left).
  rewrite IH; [done|]. intros k' Hk'. apply H. by right.
Qed.

(** The loop of [subscribe], in closed form: the inactive keys get the next
    handles, in order, appended to the table; the others a warning. *)
Lemma forEach_subscribe_key ks w :
  NoDup ks ->
  (forall k, k ∈ ks -> k ∈ SUBSCRIPTIONS.*1) ->
  has_streaming w = true ->
  exists w',
    forEach ks subscribe_key w = (Ret tt, w') /\
    table w' =
      table w ++ zip (inactive (table w) ks)
                     (seq (length (streams w))
                          (length (inactive (table w) ks))) /\
    streams w' = streams w ++ (started_stream <$> inactive (table w) ks) /\
    log w' = log w ++ (subscribe_log (table w) <$> ks) /\
    promises w' = promises w /\
    grpc w' = grpc w /\
    info_handlers w' = info_handlers w /\
    has_streaming w' = true.
Proof.
  intros Hnd. revert w. induction Hnd as [|k ks Hk Hnd IH]; intros w Hkn Hs.
  - exists w. simpl. rewrite !app_nil_r. done.
  - assert (Hrest : forall w1,
              (forall k', k' ≠ k -> tlookup k' (table w1) = tlookup k' (table w)) ->
              inactive (table w1) ks = inactive (table w) ks /\
              subscribe_log (table w1) <$> ks = subscribe_log (table w) <$> ks).
    { intros w1 Hw1. split.
      - apply inactive_ext.
        intros k' Hk'. rewrite Hw1; [done|]. by intros ->.
      - apply list_fmap_ext. intros i k' Hi%list_elem_of_lookup_2.
        unfold subscribe_log. rewrite Hw1; [done|]. by intros ->. }
    simpl forEach. unfold bind.
    destruct (tlookup k (table w)) as [h|] eqn:Ht.
    + rewrite (subscribe_key_active k h w Ht).
      set (w1 := set_log _ w).
      destruct (IH w1) as (w' & Hrun & Htab & Hstr & Hlog & Hpr & Hg & Hga & Hs').
      { intros k' Hk'. apply Hkn. by right. }
      { done. }
      destruct (Hrest w1) as [Hina Hlg]; [done|].
      rewrite Hina in Htab, Hstr. rewrite Hlg in Hlog.
      assert (Hi : inactive (table w) (k :: ks) = inactive (table w) ks).
      { unfold inactive. rewrite filter_cons_False; [done|]. by rewrite Ht. }
      exists w'. rewrite Hi, Htab, Hstr, Hlog, Hpr, Hg, Hga.
      split_and!; try done.
      rewrite fmap_cons. unfold subscribe_log at 2. rewrite Ht.
      subst w1. simpl. by rewrite <- app_assoc.
    + destruct (assoc_known k) as [m Hm]; [apply Hkn; by left|].
      rewrite (subscribe_key_new k m w Ht Hs Hm).
      set (w1 := subscribed k m w).
      destruct (IH w1) as (w' & Hrun & Htab & Hstr & Hlog & Hpr & Hg & Hga & Hs').
      { intros k' Hk'. apply Hkn. by right. }
      { by apply subscribed_has_streaming. }
      destruct (Hrest w1) as [Hina Hlg].
      { intros k' Hne. subst w1. rewrite table_subscribed, tlookup_app.
        destruct (tlookup k' (table w)); [done|]. simpl.
        destruct (String.eqb_spec k k'); [congruence | done]. }
      rewrite Hina in Htab, Hstr. rewrite Hlg in Hlog.
      assert (Hi : inactive (table w) (k :: ks) = k :: inactive (table w) ks).
      { unfold inactive. by rewrite filter_cons_True. }
      exists w'. rewrite Hi, Htab, Hstr, Hlog, Hpr, Hg, Hga.
      subst w1. rewrite table_subscribed. simpl.
      split_and!; try done.
      * rewrite length_app. simpl.
        replace (length (streams w) + 1) with (S (length (streams w))) by lia.
        by rewrite <- app_assoc.
      * unfold started_stream at 2. rewrite Hm. simpl.
        by rewrite <- app_assoc.
      * unfold subscribe_log at 2. rewrite Ht. by rewrite <- app_assoc.
Qed.

Lemma tlookup_zip_notin k ks (hs : list Handle) :
  k ∉ ks -> tlookup k (zip ks hs) = None.
Proof.
  revert hs. induction ks as [|k' ks IH]; intros hs Hk; [done|].
  destruct hs as [|h hs]; [done|]. simpl.
  apply not_elem_of_cons in Hk as [Hne Hk].
  destruct (String.eqb_spec k' k); [congruence|]. by apply IH.
Qed.

Lemma tlookup_zip_seq k ks n i :
  NoDup ks -> ks !! i = Some k ->
  tlookup k (zip ks (seq n (length ks))) = Some (n + i).
Proof.
  intros Hnd. revert n i.
  induction Hnd as [|k' ks Hk' Hnd IH]; intros n i Hi; [done|].
  simpl. destruct i as [|i]; simpl in Hi.
  - injection Hi as ->. rewrite String.eqb_refl. f_equal. lia.
  - destruct (String.eqb_spec k' k) as [->|Hne].
    + exfalso. apply Hk'. by eapply list_elem_of_lookup_2.
    + rewrite (IH (S n) i Hi). f_equal. lia.
Qed.

Lemma Object_keys_app t1 t2 :
  Object_keys (t1 ++ t2) = Object_keys t1 ++ Object_keys t2.
Proof. unfold Object_keys. apply fmap_app. Qed.

Lemma NoDup_resolve_keys all ks : NoDup all -> NoDup (resolve_keys all ks).
Proof.
  intros H. unfold resolve_keys. destruct ks; [done|].
  apply NoDup_intersection.
Qed.

Lemma NoDup_SUBSCRIPTIONS_keys : NoDup SUBSCRIPTIONS.*1.
Proof. apply (bool_decide_unpack _). by vm_compute. Qed.

Lemma resolve_keys_known ks k :
  k ∈ resolve_keys SUBSCRIPTIONS.*1 ks -> k ∈ SUBSCRIPTIONS.*1.
Proof.
  unfold resolve_keys. destruct ks; [done|].
  by intros [? _]%elem_of_intersection.
Qed.

(** [subscribe], in closed form. *)
Lemma subscribe_closed_form streams_ w :
  has_streaming w = true ->
  let targets := resolve_keys SUBSCRIPTIONS.*1 streams_ in
  let fresh := inactive (table w) targets in
  exists w',
    subscribe streams_ w = (Ret tt, w') /\
    table w' =
      table w ++ zip fresh (seq (length (streams w)) (length fresh)) /\
    streams w' = streams w ++ (started_stream <$> fresh) /\
    log w' =
      log w ++ match targets with
               | [] => []
               | _ => InfoSubscribing targets
                        :: (subscribe_log (table w) <$> targets)
               end /\
    promises w' = promises w /\
    grpc w' = grpc w /\
    info_handlers w' = info_handlers w /\
    has_streaming w' = true.
Proof.
  intros Hs targets fresh. unfold subscribe. fold targets.
  destruct targets as [|k0 ks0] eqn:Et.
  - exists w. subst fresh. simpl. rewrite !app_nil_r. done.
  - rewrite <- Et. unfold bind, grpcLog, modify.
    set (w1 := set_log _ w).
    destruct (forEach_subscribe_key targets w1)
      as (w' & Hrun & Htab & Hstr & Hlog & Hpr & Hg & Hga & Hs').
    { subst targets. apply NoDup_resolve_keys, NoDup_SUBSCRIPTIONS_keys. }
    { subst targets. intros k. apply resolve_keys_known. }
    { done. }
    exists w'. rewrite Hrun, Htab, Hstr, Hlog, Hpr, Hg, Hga. subst w1.
    rewrite !table_set_log. simpl. subst fresh.
    split_and!; rewrite <- ?Et; try done.
    by rewrite <- app_assoc.
Qed.

Lemma subscribe_untargeted streams_ w w' k :
  has_streaming w = true ->
  subscribe streams_ w = (Ret tt, w') ->
  k ∉ resolve_keys SUBSCRIPTIONS.*1 streams_ ->
  tlookup k (table w') = tlookup k (table w).
Proof.
  intros Hs Hrun Hk.
  destruct (subscribe_closed_form streams_ w Hs) as (w'' & Hrun' & Htab & _).
  rewrite Hrun in Hrun'. injection Hrun' as <-.
  rewrite Htab, tlookup_app.
  destruct (tlookup k (table w)); [done|].
  apply tlookup_zip_notin. unfold inactive.
  rewrite list_elem_of_filter. naive_solver.
Qed.

(** C1: [subscribe] targets every known key when called with no key, and
    otherwise the known keys among the supplied ones, each once; entries
    already present are left as they are, with a warning for each targeted
    one; every other targeted key gets exactly one new entry, a fresh open
    stream with the two listeners of [subscribe]; no other key changes. *)
Theorem subscribe_targets (streams_ : list string) (w : World) :
  has_streaming w = true ->
  let targets := resolve_keys SUBSCRIPTIONS.*1 streams_ in
  let fresh := inactive (table w) targets in
  (streams_ = [] ->
   targets = ["invoices"; "transactions"; "channelgraph"; "info"]) /\
  (streams_ <> [] ->
   forall k, k ∈ targets <-> k ∈ SUBSCRIPTIONS.*1 /\ k ∈ streams_) /\
  NoDup targets /\
  exists w',
    subscribe streams_ w = (Ret tt, w') /\
    (forall k h,
       tlookup k (table w) = Some h -> tlookup k (table w') = Some h) /\
    (forall k h,
       k ∈ targets -> tlookup k (table w) = Some h ->
       WarnAlreadyActive k ∈ drop (length (log w)) (log w')) /\
    (forall k,
       k ∈ targets -> tlookup k (table w) = None ->
       exists h,
         tlookup k (table w') = Some h /\
         streams w !! h = None /\
         streams w' !! h = Some (started_stream k)) /\
    (forall k, k ∉ targets -> tlookup k (table w') = tlookup k (table w)) /\
    table w' =
      table w ++ zip fresh (seq (length (streams w)) (length fresh)) /\
    Object_keys (table w') = Object_keys (table w) ++ fresh /\
    NoDup fresh /\
    length (streams w') = length (streams w) + length fresh /\
    (forall h, h < length (streams w) -> streams w' !! h = streams w !! h).
Proof.
  intros Hs targets fresh.
  assert (Hnd : NoDup targets)
    by apply NoDup_resolve_keys, NoDup_SUBSCRIPTIONS_keys.
  assert (Hndf : NoDup fresh) by by apply NoDup_filter.
  split; [by intros ->|]. split.
  { intros Hne k. subst targets. unfold resolve_keys.
    destruct streams_; [done|]. apply elem_of_intersection. }
  split; [done|].
  destruct (subscribe_closed_form streams_ w Hs)
    as (w' & Hrun & Htab & Hstr & Hlog & _).
  fold targets in Htab, Hstr, Hlog. fold fresh in Htab, Hstr.
  exists w'. split; [done|]. split_and!; try done.
  - intros k h Hk. rewrite Htab, tlookup_app. by rewrite Hk.
  - intros k h Hin Hk. rewrite Hlog, drop_app_length.
    destruct targets as [|k0 ks0] eqn:Et; [by apply elem_of_nil in Hin|].
    right. apply list_elem_of_fmap. exists k. split; [|done].
    unfold subscribe_log. by rewrite Hk.
  - intros k Hin Hk.
    assert (Hf : k ∈ fresh) by by apply list_elem_of_filter.
    apply list_elem_of_lookup_1 in Hf as [i Hi].
    exists (length (streams w) + i). split_and!.
    + rewrite Htab, tlookup_app, Hk. by apply tlookup_zip_seq.
    + apply lookup_ge_None. lia.
    + rewrite Hstr, lookup_app_r by lia.
      replace (length (streams w) + i - length (streams w)) with i by lia.
      by rewrite list_lookup_fmap, Hi.
  - intros k Hk. by apply (subscribe_untargeted streams_).
  - rewrite Htab, Object_keys_app. f_equal. unfold Object_keys.
    apply fst_zip. by rewrite length_seq.
  - rewrite Hstr, length_app, length_fmap. done.
  - intros h Hh. rewrite Hstr. by apply lookup_app_l.
Qed.

(** A single known key resolves to itself. *)
Lemma resolve_keys_single key :
  key ∈ SUBSCRIPTIONS.*1 -> resolve_keys SUBSCRIPTIONS.*1 [key] = [key].
Proof.
  simpl. rewrite !elem_of_cons, elem_of_nil.
  intros [->|[->|[->|[->|[]]]]]; reflexivity.
Qed.

Lemma subscribe_single key w :
  key ∈ SUBSCRIPTIONS.*1 ->
  tlookup key (table w) = None ->
  has_streaming w = true ->
  exists w',
    subscribe [key] w = (Ret tt, w') /\
    table w' = table w ++ [(key, length (streams w))] /\
    streams w' = streams w ++ [started_stream key] /\
    log w' = log w ++ [InfoSubscribing [key]; InfoStarted key] /\
    promises w' = promises w /\
    grpc w' = grpc w /\
    info_handlers w' = info_handlers w /\
    has_streaming w' = true.
Proof.
  intros Hk Ht Hs.
  destruct (subscribe_closed_form [key] w Hs)
    as (w' & Hrun & Htab & Hstr & Hlog & Hrest).
  rewrite (resolve_keys_single key Hk) in Htab, Hstr, Hlog.
  assert (Hi : inactive (table w) [key] = [key]).
  { unfold inactive. rewrite filter_cons_True by done. done. }
  rewrite Hi in Htab, Hstr. simpl in Htab, Hstr, Hlog.
  unfold subscribe_log in Hlog. rewrite Ht in Hlog.
  exists w'. done.
Qed.

(** C9: the map binds ["transactions"] to the channel-graph method and
    ["channelgraph"] to the transactions method, and [subscribe] opens the
    stream of a key with the method the map gives: the stream it starts for
    ["transactions"] is a [subscribeChannelGraph] call, the one for
    ["channelgraph"] a [subscribeTransactions] call. *)
Theorem SUBSCRIPTIONS_swapped (w : World) :
  has_streaming w = true ->
  assoc "transactions" SUBSCRIPTIONS = Some "subscribeChannelGraph" /\
  assoc "channelgraph" SUBSCRIPTIONS = Some "subscribeTransactions" /\
  (tlookup "transactions" (table w) = None ->
   exists w' h s,
     subscribe ["transactions"] w = (Ret tt, w') /\
     tlookup "transactions" (table w') = Some h /\
     streams w !! h = None /\
     streams w' !! h = Some s /\
     s_method s = "subscribeChannelGraph") /\
  (tlookup "channelgraph" (table w) = None ->
   exists w' h s,
     subscribe ["channelgraph"] w = (Ret tt, w') /\
     tlookup "channelgraph" (table w') = Some h /\
     streams w !! h = None /\
     streams w' !! h = Some s /\
     s_method s = "subscribeTransactions").
Proof.
  intros Hs. split; [done|]. split; [done|].
  assert (H : forall key, key ∈ SUBSCRIPTIONS.*1 ->
            tlookup key (table w) = None ->
            exists w' h s,
              subscribe [key] w = (Ret tt, w') /\
              tlookup key (table w') = Some h /\
              streams w !! h = None /\
              streams w' !! h = Some s /\
              s_method s = default "" (assoc key SUBSCRIPTIONS)).
  { intros key Hk Ht.
    destruct (subscribe_single key w Hk Ht Hs)
      as (w' & Hrun & Htab & Hstr & _).
    exists w', (length (streams w)), (started_stream key).
    split; [done|]. split_and!.
    - rewrite Htab, tlookup_app, Ht. simpl. by rewrite String.eqb_refl.
    - by apply lookup_ge_None.
    - rewrite Hstr. by rewrite list_lookup_middle.
    - done. }
  split; intros Ht; apply H; try done; set_solver.
Qed.

(** ** cancelSubscription and unsubscribe *)

Lemma cancelSubscription_inactive key w :
  tlookup key (table w) = None ->
  includes key Object_prototype = false ->
  cancelSubscription key w =
    (Ret Fulfilled, set_log (log w ++ [WarnNotActive key]) w).
Proof.
  intros Ht Hk. unfold cancelSubscription, async, bind, get_entry, gets.
  unfold read. by rewrite Ht, Hk.
Qed.

Lemma inherited_unknown key :
  includes key Object_prototype = true -> assoc key SUBSCRIPTIONS = None.
Proof.
  intros Hk. apply assoc_unknown. intros Hin.
  rewrite (known_not_inherited key Hin) in Hk. discriminate.
Qed.

(** The world after [cancelSubscription(key)] read a member of
    [Object.prototype] for the entry: the guard of grpc.js:189 let it pass;
    with a Lightning service in the registry the promise was made, and
    rejected by its executor at the first [on]. *)
Definition rejecting (key : string) (w : World) : World :=
  let w1 := set_log (log w ++ [InfoUnsubscribingFrom key]) w in
  match Lightning (services w) with
  | Some _ => set_promises (promises w ++ [false]) w1
  | None => w1
  end.

Lemma cancelSubscription_inherited key w :
  tlookup key (table w) = None ->
  includes key Object_prototype = true ->
  cancelSubscription key w =
    (Ret (Rejected
            (match Lightning (services w) with
             | Some _ =>
                 TypeError "this.subscriptions[key].cancel is not a function"
             | None => TypeError "Lightning is undefined"
             end)),
     rejecting key w).
Proof.
  intros Ht Hk.
  unfold cancelSubscription, async, bind, get_entry, gets, rejecting.
  unfold executor, the_entry, bind, get_entry, gets, read.
  rewrite Ht, Hk, (inherited_unknown key Hk). cbn [negb read_truthy].
  unfold grpcLog, modify, unforwardAll, new_promise. cbn [services set_log].
  destruct (Lightning (services w)); [|done].
  simpl. unfold table in *. simpl. repeat (rewrite Ht; simpl). reflexivity.
Qed.

(** The registry after [unforwardAll(Lightning, SUBSCRIPTIONS[key])]. *)
Definition unforwarded (key : string) (w : World) : World :=
  match assoc key SUBSCRIPTIONS with
  | Some m =>
      set_services
        {| Lightning := remove_forward m <$> Lightning (services w) |} w
  | None => w
  end.

(** The world after [cancelSubscription(key)] found the entry [h]: the
    promise is the next one, pending; its two listeners are on [h], after
    the ones that were there; the cancel request is sent; the entry stays. *)
Definition cancelling (key : string) (h : Handle) (w : World) : World :=
  let p := length (promises w) in
  set_streams
    (alter add_cancel h
       (alter (add_end (CancelEnd key p)) h
          (alter (add_status (CancelStatus key p)) h (streams w))))
    (set_promises (promises w ++ [false])
       (unforwarded key (set_log (log w ++ [InfoUnsubscribingFrom key]) w))).

Lemma cancelSubscription_active key h l w :
  tlookup key (table w) = Some h ->
  Lightning (services w) = Some l ->
  cancelSubscription key w =
    (Ret (Deferred (length (promises w))), cancelling key h w).
Proof.
  intros Ht HL. unfold cancelSubscription, async, bind, get_entry, gets.
  unfold executor, the_entry, bind, get_entry, gets, cancelling, unforwarded.
  unfold read. rewrite Ht.
  destruct (assoc key SUBSCRIPTIONS) as [m|];
    [|destruct (includes key Object_prototype)];
    simpl; rewrite HL; simpl;
    unfold table in *; simpl; repeat (rewrite Ht; simpl);
    rewrite ?HL; reflexivity.
Qed.

Lemma cancelSubscription_no_Lightning key h w :
  tlookup key (table w) = Some h ->
  Lightning (services w) = None ->
  exists e,
    cancelSubscription key w =
      (Ret (Rejected e), set_log (log w ++ [InfoUnsubscribingFrom key]) w).
Proof.
  intros Ht HL. unfold cancelSubscription, async, bind, get_entry, gets.
  unfold read. rewrite Ht. simpl. rewrite HL. simpl. eauto.
Qed.

Lemma alter_length {A} (f : A -> A) (l : list A) :
  alter f (length l) l = l.
Proof.
  rewrite <- (app_nil_r l) at 2. by rewrite alter_app_r_alt, app_nil_r by lia.
Qed.

(** The world [rejecting] is the one [cancelling] gives for a handle that
    is no stream. *)
Lemma rejecting_cancelling key l w :
  includes key Object_prototype = true ->
  Lightning (services w) = Some l ->
  rejecting key w = cancelling key (length (streams w)) w.
Proof.
  intros Hk HL. unfold rejecting, cancelling, unforwarded.
  rewrite (inherited_unknown key Hk), HL, !alter_length.
  by destruct w.
Qed.

Lemma table_cancelling key h w : table (cancelling key h w) = table w.
Proof.
  unfold cancelling, unforwarded.
  by destruct (assoc key SUBSCRIPTIONS).
Qed.

Definition has_Lightning (w : World) : Prop :=
  is_Some (Lightning (services w)).

Lemma has_Lightning_cancelling key h w :
  has_Lightning w -> has_Lightning (cancelling key h w).
Proof.
  unfold has_Lightning, cancelling, unforwarded. intros [l Hl].
  destruct (assoc key SUBSCRIPTIONS); simpl; rewrite Hl; eauto.
Qed.

Lemma streams_cancelling key h w :
  streams (cancelling key h w) =
  alter (fun s => add_cancel
                    (add_end (CancelEnd key (length (promises w)))
                       (add_status (CancelStatus key (length (promises w))) s)))
        h (streams w).
Proof.
  unfold cancelling. simpl. rewrite !list_alter_alter_eq. reflexivity.
Qed.

Lemma promises_cancelling key h w :
  promises (cancelling key h w) = promises w ++ [false].
Proof.
  unfold cancelling, unforwarded. by destruct (assoc key SUBSCRIPTIONS).
Qed.

(** Cancel requests are never taken back. *)
Definition cancel_mono (w w' : World) : Prop :=
  forall h s, streams w !! h = Some s ->
    exists s', streams w' !! h = Some s' /\ cancel_calls s <= cancel_calls s'.

Lemma cancel_mono_refl w : cancel_mono w w.
Proof. intros h s Hs. eauto. Qed.

Lemma cancel_mono_trans w1 w2 w3 :
  cancel_mono w1 w2 -> cancel_mono w2 w3 -> cancel_mono w1 w3.
Proof.
  intros H12 H23 h s Hs. destruct (H12 h s Hs) as (s2 & Hs2 & Hle).
  destruct (H23 h s2 Hs2) as (s3 & Hs3 & Hle'). exists s3. split; [done|lia].
Qed.

Lemma cancel_mono_cancelling key h w : cancel_mono w (cancelling key h w).
Proof.
  intros h' s Hs. rewrite streams_cancelling.
  destruct (decide (h = h')) as [->|Hne].
  - rewrite list_lookup_alter_eq, Hs. simpl. eexists. split; [done|].
    simpl. lia.
  - rewrite list_lookup_alter_ne by done. eauto.
Qed.

Lemma cancelling_requests key h w s :
  streams w !! h = Some s ->
  exists s', streams (cancelling key h w) !! h = Some s' /\
             cancel_calls s' = S (cancel_calls s).
Proof.
  intros Hs.
  assert (H := list_lookup_alter_eq
                 (fun s => add_cancel
                    (add_end (CancelEnd key (length (promises w)))
                       (add_status (CancelStatus key (length (promises w))) s)))
                 (streams w) h).
  rewrite <- streams_cancelling, Hs in H. simpl in H. eauto.
Qed.

(** The [map] of [unsubscribe] over keys that all have an entry: no call
    throws or is skipped, every key gets its promise and its cancel
    request, and the table is as it was. *)
Lemma mapM_cancelSubscription ks w :
  has_Lightning w ->
  (forall k, k ∈ ks -> is_Some (tlookup k (table w))) ->
  exists w',
    mapM ks cancelSubscription w =
      (Ret (Deferred <$> seq (length (promises w)) (length ks)), w') /\
    table w' = table w /\
    promises w' = promises w ++ replicate (length ks) false /\
    has_Lightning w' /\
    cancel_mono w w' /\
    (forall k h s, k ∈ ks -> tlookup k (table w) = Some h ->
       streams w !! h = Some s ->
       exists s', streams w' !! h = Some s' /\
                  cancel_calls s < cancel_calls s').
Proof.
  revert w. induction ks as [|k ks IH]; intros w HL Hact.
  - exists w. simpl. rewrite app_nil_r. split_and!; try done.
    + apply cancel_mono_refl.
    + by intros k h s ?%elem_of_nil.
  - destruct (Hact k) as [h Hh]; [by left|].
    pose proof HL as [l Hl].
    simpl mapM. unfold bind.
    rewrite (cancelSubscription_active k h l w Hh Hl).
    destruct (IH (cancelling k h w)) as (w' & Hrun & Htab & Hpr & HL' & Hmono & Hreq).
    { by apply has_Lightning_cancelling. }
    { intros k' Hk'. rewrite table_cancelling. apply Hact. by right. }
    rewrite Hrun. exists w'. unfold ret.
    rewrite promises_cancelling, length_app in *. simpl in *.
    replace (length (promises w) + 1) with (S (length (promises w))) in * by lia.
    rewrite table_cancelling in *.
    split_and!; try done.
    + rewrite Hpr, <- app_assoc. done.
    + eapply cancel_mono_trans; [apply cancel_mono_cancelling | done].
    + intros k' h' s Hk' Hh' Hs. apply elem_of_cons in Hk' as [->|Hk'].
      * assert (h' = h) as -> by congruence.
        destruct (cancelling_requests k h w s Hs) as (s1 & Hs1 & Hc1).
        destruct (Hmono h s1 Hs1) as (s' & Hs' & Hle).
        exists s'. split; [done|lia].
      * destruct (cancel_mono_cancelling k h w h' s Hs) as (s1 & Hs1 & Hc1).
        destruct (Hreq k' h' s1 Hk' Hh' Hs1) as (s' & Hs' & Hlt).
        exists s'. split; [done|lia].
Qed.

Lemma tlookup_Some_keys k h t : tlookup k t = Some h -> k ∈ Object_keys t.
Proof.
  intros H. destruct (decide (k ∈ Object_keys t)) as [|Hn]; [done|].
  apply tlookup_None_keys in Hn. congruence.
Qed.

Lemma keys_tlookup_Some k t : k ∈ Object_keys t -> is_Some (tlookup k t).
Proof.
  intros H. destruct (tlookup k t) eqn:E; [eauto|].
  by apply tlookup_None_keys in E.
Qed.

(** The keys [unsubscribe] cancels. *)
Definition unsubscribe_keys (streams_ : list string) (w : World)
  : list string :=
  resolve_keys (Object_keys (table w)) streams_.

Lemma unsubscribe_keys_active streams_ w k :
  k ∈ unsubscribe_keys streams_ w -> is_Some (tlookup k (table w)).
Proof.
  unfold unsubscribe_keys, resolve_keys. intros H. apply keys_tlookup_Some.
  destruct streams_; [done|]. by apply elem_of_intersection in H as [? _].
Qed.

Lemma elem_of_unsubscribe_keys streams_ w k h :
  tlookup k (table w) = Some h ->
  (streams_ = [] \/ k ∈ streams_) ->
  k ∈ unsubscribe_keys streams_ w.
Proof.
  intros Hk%tlookup_Some_keys Hin. unfold unsubscribe_keys, resolve_keys.
  destruct streams_ as [|x xs]; [done|].
  apply elem_of_intersection. split; [done|].
  by destruct Hin.
Qed.

(** [unsubscribe], with the registry in place. *)
Lemma unsubscribe_closed_form streams_ w :
  has_Lightning w ->
  let ks := unsubscribe_keys streams_ w in
  exists w',
    unsubscribe streams_ w =
      (Ret (Deferred <$> seq (length (promises w)) (length ks)), w') /\
    table w' = table w /\
    promises w' = promises w ++ replicate (length ks) false /\
    has_Lightning w' /\
    cancel_mono w w' /\
    (forall k h s, k ∈ ks -> tlookup k (table w) = Some h ->
       streams w !! h = Some s ->
       exists s', streams w' !! h = Some s' /\
                  cancel_calls s < cancel_calls s').
Proof.
  intros HL ks. unfold unsubscribe, bind, gets.
  fold (unsubscribe_keys streams_ w). fold ks.
  destruct ks as [|k0 ks0] eqn:Ek.
  - exists w. simpl. rewrite app_nil_r. split_and!; try done.
    + apply cancel_mono_refl.
    + by intros k h s ?%elem_of_nil.
  - rewrite <- Ek. unfold grpcLog, modify.
    set (w1 := set_log _ w).
    destruct (mapM_cancelSubscription ks w1) as (w' & Hrun & Hrest).
    { done. }
    { intros k Hk. subst ks. by eapply unsubscribe_keys_active. }
    exists w'. split; [exact Hrun | exact Hrest].
Qed.

(** What [unsubscribe] does with a key of its list that has no entry: it
    still returns normally, having sent the cancel request of every listed
    key that has an entry. *)
Lemma unsubscribe_skips_inactive key ks w :
  has_Lightning w -> key ∈ ks ->
  exists prs w',
    unsubscribe ks w = (Ret prs, w') /\
    table w' = table w /\
    forall k h s,
      k ∈ ks -> tlookup k (table w) = Some h -> streams w !! h = Some s ->
      exists s', streams w' !! h = Some s' /\
                 cancel_calls s < cancel_calls s'.
Proof.
  intros HL Hin.
  destruct (unsubscribe_closed_form ks w HL)
    as (w' & Hrun & Htab & _ & _ & _ & Hreq).
  eexists _, w'. split; [done|]. split; [done|].
  intros k h s Hk Hh Hs. apply (Hreq k h s); [|done..].
  eapply elem_of_unsubscribe_keys; [done|]. by right.
Qed.

(** [cancelSubscription(key)] for a key that has no entry and names no
    member of [Object.prototype] logs the warning and returns, fulfilled,
    with the table, the streams and the promises as they were. *)
Lemma cancelSubscription_undefined_entry key w :
  tlookup key (table w) = None ->
  key ∉ Object_prototype ->
  exists w',
    cancelSubscription key w = (Ret Fulfilled, w') /\
    log w' = log w ++ [WarnNotActive key] /\
    table w' = table w /\
    streams w' = streams w /\
    promises w' = promises w.
Proof.
  intros Ht Hk%includes_not_elem_of.
  eexists. split; [by apply cancelSubscription_inactive|]. done.
Qed.

(** C7: the guard of grpc.js:189 reads [this.subscriptions[key]] through the
    prototype chain.  For a key that has no entry and names a member of
    [Object.prototype] - ["constructor"], ["toString"], ... -
    [cancelSubscription(key)] does not warn and return: it logs that it
    unsubscribes, and the promise it returns is rejected, with the TypeError
    of the call of [cancel] when the registry has a Lightning service.  The
    table and the streams are as they were.  An [unsubscribe] whose keys
    include such a key drops it: it returns normally, having sent the
    cancel request of every listed key that has an entry. *)
Theorem cancelSubscription_inherited_key (key : string) (w : World) :
  key ∈ Object_prototype ->
  tlookup key (table w) = None ->
  (exists e w',
     cancelSubscription key w = (Ret (Rejected e), w') /\
     (has_Lightning w ->
      e = TypeError "this.subscriptions[key].cancel is not a function") /\
     log w' = log w ++ [InfoUnsubscribingFrom key] /\
     table w' = table w /\
     streams w' = streams w) /\
  (forall ks,
     has_Lightning w -> key ∈ ks ->
     exists prs w',
       unsubscribe ks w = (Ret prs, w') /\
       table w' = table w /\
       forall k h s,
         k ∈ ks -> tlookup k (table w) = Some h -> streams w !! h = Some s ->
         exists s', streams w' !! h = Some s' /\
                    cancel_calls s < cancel_calls s').
Proof.
  intros Hk%includes_elem_of Ht. split.
  - eexists _, _. split; [by apply cancelSubscription_inherited|].
    unfold rejecting, has_Lightning.
    destruct (Lightning (services w)) as [l|].
    + done.
    + split; [by intros [l Hl]|]. done.
  - intros ks HL Hin. by apply (unsubscribe_skips_inactive key).
Qed.

(** ** The sync rule of subscribeAll *)

Lemma has_streaming_Lightning w : has_streaming w = true -> has_Lightning w.
Proof.
  unfold has_streaming, has_Lightning.
  destruct (Lightning (services w)); [eauto | done].
Qed.

(** Whether the listener acts on a payload: [synced_to_chain] is truthy and the
    table has no ["channelgraph"] entry (grpc.js:110). *)
Definition rule_fires (d : InfoData) (w : World) : bool :=
  truthy (synced_to_chain d) &&
  negb (bool_decide (is_Some (tlookup "channelgraph" (table w)))).

Lemma on_info_data_idle d w : rule_fires d w = false -> on_info_data d w = (Ret tt, w).
Proof.
  unfold rule_fires, on_info_data, bind, get_entry, gets.
  rewrite (read_truthy_own "channelgraph" _ eq_refl). by intros ->.
Qed.

Lemma on_info_data_acts d w w1 prs w2 :
  rule_fires d w = true ->
  subscribe ["channelgraph"] w = (Ret tt, w1) ->
  unsubscribe ["info"] w1 = (Ret prs, w2) ->
  on_info_data d w = (Ret tt, w2).
Proof.
  unfold rule_fires. intros Hf H1 H2.
  unfold on_info_data, bind, get_entry, gets.
  rewrite (read_truthy_own "channelgraph" _ eq_refl), Hf, H1, H2. done.
Qed.

Lemma subscribeAll_eq w w1 :
  subscribe ["invoices"; "transactions"; "info"] w = (Ret tt, w1) ->
  subscribeAll w = (Ret tt, set_info_handlers (S (info_handlers w1)) w1).
Proof. intros H. unfold subscribeAll, bind. by rewrite H. Qed.

(** C3, as the code has it, on the key ["channelgraph"]: [subscribeAll]
    registers its listener and starts nothing for that key; a
    [subscribeGetInfo.data] event makes the listener act exactly when
    [synced_to_chain] is truthy and the key has no entry; when it acts it
    calls [subscribe('channelgraph')], which gives the key a fresh stream,
    and right after it [unsubscribe('info')], which sends the cancel
    request of the info stream; and while the key has an entry - so from
    the moment the listener acted until that entry is removed - it does
    nothing, whatever the payload. *)
Theorem sync_rule (d : InfoData) (w : World) :
  has_streaming w = true ->
  (exists w',
     subscribeAll w = (Ret tt, w') /\
     tlookup "channelgraph" (table w') = tlookup "channelgraph" (table w) /\
     info_handlers w' = S (info_handlers w)) /\
  (rule_fires d w = true <->
   truthy (synced_to_chain d) = true /\
   tlookup "channelgraph" (table w) = None) /\
  (rule_fires d w = false -> on_info_data d w = (Ret tt, w)) /\
  (rule_fires d w = true ->
   exists w1 prs w2,
     subscribe ["channelgraph"] w = (Ret tt, w1) /\
     unsubscribe ["info"] w1 = (Ret prs, w2) /\
     on_info_data d w = (Ret tt, w2) /\
     streams w !! length (streams w) = None /\
     tlookup "channelgraph" (table w2) = Some (length (streams w)) /\
     (exists s, streams w2 !! length (streams w) = Some s) /\
     (forall h s,
        tlookup "info" (table w) = Some h -> streams w !! h = Some s ->
        exists s', streams w2 !! h = Some s' /\
                   cancel_calls s < cancel_calls s') /\
     (forall d', on_info_data d' w2 = (Ret tt, w2))) /\
  (is_Some (tlookup "channelgraph" (table w)) ->
   forall d', on_info_data d' w = (Ret tt, w)).
Proof.
  intros Hs.
  assert (Hpresent : forall w0 d',
            is_Some (tlookup "channelgraph" (table w0)) ->
            on_info_data d' w0 = (Ret tt, w0)).
  { intros w0 d' H. apply on_info_data_idle. unfold rule_fires.
    rewrite bool_decide_eq_true_2 by done. simpl. apply andb_false_r. }
  split_and!.
  - destruct (subscribe_closed_form ["invoices"; "transactions"; "info"] w Hs)
      as (w1 & Hrun & Htab & Hstr & Hlog & Hpr & Hg & Hga & Hs1).
    eexists. split; [by apply subscribeAll_eq|]. simpl. split; [|by f_equal].
    apply (subscribe_untargeted _ _ _ _ Hs Hrun).
    vm_compute. intros H. by repeat (apply elem_of_cons in H as [?|H]; [done|]);
    apply elem_of_nil in H.
  - unfold rule_fires. rewrite andb_true_iff, negb_true_iff.
    rewrite bool_decide_eq_false.
    destruct (tlookup "channelgraph" (table w)) eqn:E.
    + split; [intros [_ H]; exfalso; eauto | by intros [_ ?]].
    + split; [by intros [? _] | intros [? _]; split; [done|]].
      by intros [? ?].
  - apply on_info_data_idle.
  - intros Hf.
    assert (Ht : tlookup "channelgraph" (table w) = None).
    { unfold rule_fires in Hf. apply andb_true_iff in Hf as [_ Hf].
      apply negb_true_iff, bool_decide_eq_false in Hf.
      destruct (tlookup _ _); [exfalso; eauto | done]. }
    destruct (subscribe_single "channelgraph" w) as
      (w1 & Hrun & Htab & Hstr & Hlog & Hpr & Hg & Hga & Hs1);
      [set_solver | done | done |].
    destruct (unsubscribe_closed_form ["info"] w1)
      as (w2 & Hrun2 & Htab2 & Hpr2 & HL2 & Hmono & Hreq);
      [by apply has_streaming_Lightning|].
    assert (Hcg : tlookup "channelgraph" (table w2)
                  = Some (length (streams w))).
    { rewrite Htab2, Htab, tlookup_app, Ht. done. }
    eexists w1, _, w2. split_and!; try done.
    + by eapply on_info_data_acts.
    + by apply lookup_ge_None.
    + destruct (Hmono (length (streams w)) (started_stream "channelgraph"))
        as (s' & Hs' & _); [|eauto].
      rewrite Hstr. by rewrite list_lookup_middle.
    + intros h s Hh Hsh. apply (Hreq "info" h s).
      * eapply (elem_of_unsubscribe_keys _ _ _ h); [|right; set_solver].
        rewrite Htab, tlookup_app, Hh. done.
      * rewrite Htab, tlookup_app, Hh. done.
      * rewrite Hstr. rewrite lookup_app_l; [done|].
        by eapply lookup_lt_Some.
    + intros d'. apply Hpresent. rewrite Hcg. eauto.
  - intros H d'. by apply Hpresent.
Qed.

(** ** Stream events *)

(** Whether a listener acts on an event: [None] is ['end'], [Some code] is
    ['status'] with that code. *)
Definition fires (ev : option Z) (l : Listener) : bool :=
  match ev, l with
  | None, (SubscribeEnd _ | CancelEnd _ _) => true
  | Some code, (SubscribeStatus _ | CancelStatus _ _) => (code =? CANCELLED)%Z
  | _, _ => false
  end.

Definition deliver (ev : option Z) (l : Listener) : M unit :=
  match ev with
  | None => end_listener l
  | Some code => status_listener code l
  end.

Definition resolve_in (o : option PromiseId) (ps : list bool) : list bool :=
  match o with
  | Some p => <[p := true]> ps
  | None => ps
  end.

(** One listener: it never throws, never touches the streams, and when it
    acts it deletes the entry of its key and resolves its promise. *)
Lemma deliver_spec ev l w :
  exists w',
    deliver ev l w = (Ret tt, w') /\
    streams w' = streams w /\
    table w' =
      (if fires ev l then tdelete (listener_key l) (table w) else table w) /\
    promises w' =
      (if fires ev l then resolve_in (listener_promise l) (promises w)
       else promises w) /\
    grpc w' = grpc w /\ services w' = services w /\ info_handlers w' = info_handlers w.
Proof.
  destruct ev as [code|], l as [k|k|k p|k p]; simpl;
    try (eexists; split; [reflexivity|]; done);
    try (destruct (code =? CANCELLED)%Z;
         [|eexists; split; [reflexivity|]; done]);
    (eexists; split; [reflexivity|]; simpl; split; [done|];
     split; [apply table_set_table|done]).
Qed.

Lemma deliver_spec_useMacaroon ev l w :
  useMacaroon (deliver ev l w).2 = useMacaroon w.
Proof.
  destruct ev as [code|], l as [k|k|k p|k p]; simpl; try done;
    by destruct (code =? CANCELLED)%Z.
Qed.

Lemma forEach_deliver ev ls w :
  exists w',
    forEach ls (deliver ev) w = (Ret tt, w') /\
    streams w' = streams w /\
    length (promises w') = length (promises w) /\
    grpc w' = grpc w /\ services w' = services w /\ info_handlers w' = info_handlers w /\
    (forall k, tlookup k (table w) = None -> tlookup k (table w') = None) /\
    (forall k, (forall l, l ∈ ls -> fires ev l = true -> listener_key l ≠ k) ->
               tlookup k (table w') = tlookup k (table w)) /\
    (forall l, l ∈ ls -> fires ev l = true ->
               tlookup (listener_key l) (table w') = None) /\
    (forall p, promises w !! p = Some true -> promises w' !! p = Some true) /\
    (forall p, promises w !! p = Some false -> promises w' !! p = Some true ->
               exists l, l ∈ ls /\ fires ev l = true /\
                         listener_promise l = Some p).
Proof.
  revert w. induction ls as [|l ls IH]; intros w.
  - exists w. simpl. split_and!; try done.
    + by intros l ?%elem_of_nil.
    + congruence.
  - destruct (deliver_spec ev l w)
      as (w1 & Hrun & Hstr & Htab & Hpr & Hg & Hsv & Hga).
    destruct (IH w1)
      as (w' & Hrun' & Hstr' & Hlen' & Hg' & Hsv' & Hga' & Habs' & Hfr' & Hdel'
          & Hmono' & Hflip').
    exists w'. simpl forEach. unfold bind. rewrite Hrun.
    assert (Hlen1 : length (promises w1) = length (promises w)).
    { rewrite Hpr. destruct (fires ev l); [|done].
      destruct (listener_promise l); simpl; [apply length_insert|done]. }
    assert (Habs1 : forall k, tlookup k (table w) = None ->
                              tlookup k (table w1) = None).
    { intros k Hk. rewrite Htab. destruct (fires ev l); [|done].
      destruct (decide (listener_key l = k)) as [->|Hne].
      - apply tlookup_tdelete_eq.
      - by rewrite tlookup_tdelete_ne. }
    assert (Hmono1 : forall p, promises w !! p = Some true ->
                               promises w1 !! p = Some true).
    { intros p Hp. rewrite Hpr. destruct (fires ev l); [|done].
      destruct (listener_promise l) as [q|]; simpl; [|done].
      destruct (decide (q = p)) as [->|Hne].
      - apply list_lookup_insert_eq. by eapply lookup_lt_Some.
      - by rewrite list_lookup_insert_ne. }
    split_and!; try congruence.
    + intros k Hk. by apply Habs', Habs1.
    + intros k Hk. rewrite Hfr'.
      * rewrite Htab. destruct (fires ev l) eqn:Ef; [|done].
        apply tlookup_tdelete_ne. apply Hk; [by left | done].
      * intros l' Hl'. apply Hk. by right.
    + intros l' Hl' Hf. apply elem_of_cons in Hl' as [->|Hl'].
      * apply Habs'. rewrite Htab, Hf. apply tlookup_tdelete_eq.
      * by apply Hdel'.
    + intros p Hp. by apply Hmono', Hmono1.
    + intros p Hp Hp'.
      destruct (promises w1 !! p) as [[|]|] eqn:E1.
      * exists l. split; [by left|].
        rewrite Hpr in E1. destruct (fires ev l); [|congruence].
        split; [done|].
        destruct (listener_promise l) as [q|]; simpl in E1; [|congruence].
        destruct (decide (q = p)) as [->|Hne]; [done|].
        rewrite list_lookup_insert_ne in E1 by done. congruence.
      * destruct (Hflip' p E1 Hp') as (l' & Hl' & Hf & Hlp).
        exists l'. split; [by right | done].
      * apply lookup_ge_None in E1. apply lookup_lt_Some in Hp. lia.
Qed.

Lemma forEach_deliver_absent ev ls w :
  (forall l, l ∈ ls -> fires ev l = true ->
             tlookup (listener_key l) (table w) = None) ->
  exists w', forEach ls (deliver ev) w = (Ret tt, w') /\ table w' = table w.
Proof.
  revert w. induction ls as [|l ls IH]; intros w Habs.
  - by exists w.
  - destruct (deliver_spec ev l w) as (w1 & Hrun & _ & Htab & _).
    assert (Htab1 : table w1 = table w).
    { rewrite Htab. destruct (fires ev l) eqn:Ef; [|done].
      apply tdelete_absent, Habs; [by left | done]. }
    destruct (IH w1) as (w' & Hrun' & Htab').
    { intros l' Hl' Hf. rewrite Htab1. apply Habs; [by right | done]. }
    exists w'. simpl forEach. unfold bind. rewrite Hrun.
    split; [done | congruence].
Qed.

(** The listeners an event of the stream [h] runs. *)
Definition listeners_of (ev : option Z) (s : Stream) : list Listener :=
  match ev with
  | None => on_end s
  | Some _ => on_status s
  end.

Definition emit (h : Handle) (ev : option Z) : M unit :=
  match ev with
  | None => emit_end h
  | Some code => emit_status h code
  end.

Lemma emit_eq h ev w :
  emit h ev w =
  match streams w !! h with
  | Some s => forEach (listeners_of ev s) (deliver ev) w
  | None => (Ret tt, w)
  end.
Proof.
  destruct ev as [code|]; simpl;
    unfold emit_status, emit_end, bind, gets;
    by destruct (streams w !! h).
Qed.

(** C8, as the code has it.  Let every listener of the stream [h] be one
    registered for [key] - the listeners of the stream that was started for
    [key] are.  An ['end'] or ['status'] event of [h], with any code, never
    throws and never changes the entry of another key; and when [key] has
    no entry at that moment (its entry was removed and the key was not
    subscribed again), the event leaves the table as it was. *)
Theorem late_stream_event_is_noop
    (key : string) (h : Handle) (s : Stream) (ev : option Z) (w : World) :
  streams w !! h = Some s ->
  (forall l, l ∈ on_end s ++ on_status s -> listener_key l = key) ->
  exists w',
    emit h ev w = (Ret tt, w') /\
    (forall k, k ≠ key -> tlookup k (table w') = tlookup k (table w)) /\
    (tlookup key (table w) = None -> table w' = table w).
Proof.
  intros Hs Hkey. rewrite emit_eq, Hs.
  assert (Hin : forall l, l ∈ listeners_of ev s -> listener_key l = key).
  { intros l Hl. apply Hkey, elem_of_app. destruct ev; simpl in Hl; eauto. }
  destruct (forEach_deliver ev (listeners_of ev s) w)
    as (w' & Hrun & _ & _ & _ & _ & _ & _ & Hfr & _).
  exists w'. split; [done|]. split.
  - intros k Hne. apply Hfr. intros l Hl _. by rewrite Hin.
  - intros Hnone.
    destruct (forEach_deliver_absent ev (listeners_of ev s) w)
      as (w'' & Hrun' & Htab).
    { intros l Hl _. by rewrite Hin. }
    congruence.
Qed.

(** ** Relations every method respects *)

(** A relation between the world before and the world after that holds
    across the primitive effects: across any change that leaves the
    streams, the promises and [this.useMacaroon] alone, across a new
    stream, across a listener of [subscribe], and across the three steps
    [cancelSubscription] takes on an entry. *)
Class Respected (R : World -> World -> Prop) : Prop := {
  respected_preorder :: PreOrder R;
  respected_frame w w' :
    streams w' = streams w -> promises w' = promises w ->
    useMacaroon w' = useMacaroon w -> R w w';
  respected_new_stream m w : R w (new_stream m w).2;
  respected_on_end h l w :
    listener_promise l = None -> R w (on_end_add h l w).2;
  respected_on_status h l w :
    listener_promise l = None -> R w (on_status_add h l w).2;
  respected_cancelling k h w : R w (cancelling k h w);
}.

(** [m] takes every world to one related to it, whether it returns or
    throws. *)
Definition respects (R : World -> World -> Prop) {A} (m : M A) : Prop :=
  forall w, R w (m w).2.

Definition is_stream_event (ev : Event) : bool :=
  match ev with
  | Stream_end _ | Stream_status _ _ => true
  | _ => false
  end.

Create HintDb zap_respects.

Section Respects.

Context (R : World -> World -> Prop) `{!Respected R}.

Lemma respects_ret {A} (a : A) : respects R (ret a).
Proof. intros w. simpl. reflexivity. Qed.

Lemma respects_throw {A} e : respects R (@throw A e).
Proof. intros w. simpl. reflexivity. Qed.

Lemma respects_gets {A} (f : World -> A) : respects R (gets f).
Proof. intros w. simpl. reflexivity. Qed.

Lemma respects_modify (f : World -> World) :
  (forall w, streams (f w) = streams w) ->
  (forall w, promises (f w) = promises w) ->
  (forall w, useMacaroon (f w) = useMacaroon w) ->
  respects R (modify f).
Proof. intros Hs Hp Hu w. apply respected_frame; simpl; auto. Qed.

Lemma respects_bind {A B} (m : M A) (f : A -> M B) :
  respects R m -> (forall a, respects R (f a)) -> respects R (bind m f).
Proof.
  intros Hm Hf w. unfold bind. specialize (Hm w).
  destruct (m w) as [[a|e] w1]; simpl in *; [|done].
  etrans; [done | apply Hf].
Qed.

Lemma respects_forEach {A} (l : list A) (f : A -> M unit) :
  (forall a, respects R (f a)) -> respects R (forEach l f).
Proof.
  intros Hf. induction l as [|a l IH]; simpl.
  - apply respects_ret.
  - by apply respects_bind.
Qed.

Lemma respects_mapM {A B} (l : list A) (f : A -> M B) :
  (forall a, respects R (f a)) -> respects R (mapM l f).
Proof.
  intros Hf. induction l as [|a l IH]; simpl.
  - apply respects_ret.
  - apply respects_bind; [done|]. intros y.
    apply respects_bind; [done|]. intros ys. apply respects_ret.
Qed.

Lemma respects_async (m : M Promise) : respects R m -> respects R (async m).
Proof.
  intros Hm w. unfold async. specialize (Hm w).
  by destruct (m w) as [[a|e] w1].
Qed.

Lemma respects_new_stream m : respects R (new_stream m).
Proof. intros w. apply respected_new_stream. Qed.

Lemma respects_on_end_add h l :
  listener_promise l = None -> respects R (on_end_add h l).
Proof. intros Hl w. by apply respected_on_end. Qed.

Lemma respects_on_status_add h l :
  listener_promise l = None -> respects R (on_status_add h l).
Proof. intros Hl w. by apply respected_on_status. Qed.

Lemma respects_cancelSubscription k : respects R (cancelSubscription k).
Proof.
  intros w. destruct (tlookup k (table w)) as [h0|] eqn:Ht.
  - destruct (Lightning (services w)) as [l|] eqn:HL.
    + rewrite (cancelSubscription_active k h0 l w Ht HL).
      apply respected_cancelling.
    + destruct (cancelSubscription_no_Lightning k h0 w Ht HL) as [e ->].
      by apply respected_frame.
  - destruct (includes k Object_prototype) eqn:Hk.
    + rewrite (cancelSubscription_inherited k w Ht Hk). simpl.
      destruct (Lightning (services w)) as [l|] eqn:HL.
      * rewrite (rejecting_cancelling k l w Hk HL).
        apply respected_cancelling.
      * unfold rejecting. rewrite HL. by apply respected_frame.
    + rewrite (cancelSubscription_inactive k w Ht Hk).
      by apply respected_frame.
Qed.

Ltac respects_step :=
  first
    [ solve [auto with zap_respects]
    | apply respects_ret
    | apply respects_throw
    | apply respects_gets
    | apply respects_new_stream
    | apply respects_cancelSubscription
    | apply respects_on_end_add; reflexivity
    | apply respects_on_status_add; reflexivity
    | apply respects_modify; intros ?; reflexivity
    | apply respects_bind; [|intros ?]
    | apply respects_forEach; intros ?
    | apply respects_mapM; intros ?
    | apply respects_async
    | match goal with
      | |- respects _ (match ?x with _ => _ end) => destruct x
      end ].

Ltac respects_by_steps := cbv zeta; repeat respects_step.

Lemma respects_subscribe_key k : respects R (subscribe_key k).
Proof.
  unfold subscribe_key, get_entry, call_stream, put_entry, grpcLog,
    forwardAll, update_Lightning.
  respects_by_steps.
Qed.
#[local] Hint Resolve respects_subscribe_key : zap_respects.

Lemma respects_subscribe ks : respects R (subscribe ks).
Proof. unfold subscribe, grpcLog. respects_by_steps. Qed.
#[local] Hint Resolve respects_subscribe : zap_respects.

Lemma respects_unsubscribe ks : respects R (unsubscribe ks).
Proof. unfold unsubscribe, grpcLog. respects_by_steps. Qed.
#[local] Hint Resolve respects_unsubscribe : zap_respects.

Lemma respects_on_info_data d : respects R (on_info_data d).
Proof. unfold on_info_data, get_entry. respects_by_steps. Qed.
#[local] Hint Resolve respects_on_info_data : zap_respects.

Lemma respects_subscribeAll : respects R subscribeAll.
Proof. unfold subscribeAll. respects_by_steps. Qed.
#[local] Hint Resolve respects_subscribeAll : zap_respects.

Lemma respects_connect o : respects R (connect o).
Proof.
  unfold connect, new_LndGrpc, assign_Lightning, update_Lightning, grpc_on.
  respects_by_steps.
Qed.

Lemma respects_remove_handlers : respects R remove_handlers.
Proof. unfold remove_handlers, removeAllListeners. respects_by_steps. Qed.
#[local] Hint Resolve respects_remove_handlers : zap_respects.

Lemma respects_disconnect_call : respects R disconnect_call.
Proof. unfold disconnect_call. respects_by_steps. Qed.

Lemma respects_disconnect_resume ok : respects R (disconnect_resume ok).
Proof. unfold disconnect_resume. respects_by_steps. Qed.

Lemma respects_Lightning_emits_info_data d :
  respects R (Lightning_emits_info_data d).
Proof.
  unfold Lightning_emits_info_data, emit_info_data. respects_by_steps.
Qed.

Lemma respects_grpc_emit name : respects R (grpc_emit name).
Proof. unfold grpc_emit, grpc_handler, this_emit. respects_by_steps. Qed.

Lemma respects_grpc_moves st can : respects R (grpc_moves st can).
Proof. unfold grpc_moves. respects_by_steps. Qed.

(** Every event but those of a stream: method calls, the settled teardown,
    the events of the transport and of the Lightning service. *)
Lemma respects_step ev : is_stream_event ev = false -> respects R (step ev).
Proof.
  intros He. destruct ev; simpl; try discriminate.
  - apply respects_connect.
  - apply respects_bind; [apply respects_disconnect_call|].
    intros ?. apply respects_ret.
  - apply respects_disconnect_resume.
  - apply respects_subscribeAll.
  - apply respects_subscribe.
  - apply respects_bind; [apply respects_unsubscribe|].
    intros ?. apply respects_ret.
  - apply respects_bind; [apply respects_cancelSubscription|].
    intros ?. apply respects_ret.
  - apply respects_Lightning_emits_info_data.
  - apply respects_grpc_moves.
  - apply respects_grpc_emit.
Qed.

End Respects.

(** ** The property [useMacaroon] *)

(** [this.useMacaroon] is what it was. *)
Definition same_useMacaroon (w w' : World) : Prop :=
  useMacaroon w' = useMacaroon w.

#[global] Instance same_useMacaroon_respected : Respected same_useMacaroon.
Proof.
  split.
  - split; [by intros w | intros w1 w2 w3; unfold same_useMacaroon; congruence].
  - by intros w w' _ _ H.
  - done.
  - done.
  - done.
  - intros k h w. unfold same_useMacaroon, cancelling, unforwarded.
    by destruct (assoc k SUBSCRIPTIONS).
Qed.

(** No event assigns [this.useMacaroon]. *)
Lemma useMacaroon_exec ev w : useMacaroon (exec ev w) = useMacaroon w.
Proof.
  unfold exec. destruct (is_stream_event ev) eqn:E.
  - destruct ev; try discriminate; simpl.
    + change (emit_end h w) with (emit h None w). rewrite emit_eq.
      destruct (streams w !! h) as [s|]; [|done].
      apply (respects_forEach same_useMacaroon). intros l w'.
      apply (deliver_spec_useMacaroon None).
    + change (emit_status h code w) with (emit h (Some code) w).
      rewrite emit_eq. destruct (streams w !! h) as [s|]; [|done].
      apply (respects_forEach same_useMacaroon). intros l w'.
      apply (deliver_spec_useMacaroon (Some code)).
  - by apply (respects_step same_useMacaroon).
Qed.

Lemma useMacaroon_run evs w : useMacaroon (run evs w) = useMacaroon w.
Proof.
  revert w. induction evs as [|ev evs IH]; intros w; [done|].
  simpl. rewrite IH. apply useMacaroon_exec.
Qed.

(** C4, on the code.  On the instance the constructor builds, after any
    events, [this.useMacaroon] is [undefined], so the [useMacaroon] that
    [getConnectionSettings] returns is [undefined] whatever the options
    are: for [type = "local"] and an [id] other than ["tmp"] the two wait
    flags are [true] but [useMacaroon] is not, and for [id = "tmp"] it is
    [undefined] rather than [false]. *)
Theorem getConnectionSettings_useMacaroon_undefined
    (evs : list Event) (o : Options) :
  useMacaroon (run evs initial_world) = JUndefined /\
  cs_useMacaroon (getConnectionSettings (set_options o (run evs initial_world)))
    = JUndefined /\
  getConnectionSettings (set_options local_options initial_world) =
    {| cs_host := JStr "localhost:10009"; cs_cert := JStr "tls.cert";
       cs_macaroon := JStr "admin.macaroon";
       cs_waitForMacaroon := JBool true; cs_waitForCert := JBool true;
       cs_useMacaroon := JUndefined; cs_protoDir := JStr "proto" |} /\
  cs_useMacaroon (getConnectionSettings (set_options tmp_options initial_world))
    = JUndefined.
Proof.
  assert (H : useMacaroon (run evs initial_world) = JUndefined)
    by by rewrite useMacaroon_run.
  split; [done|]. split; [|done].
  rewrite getConnectionSettings_useMacaroon. simpl. by rewrite H.
Qed.

(** ** Who can resolve a promise *)

(** Every promise a listener resolves has been created. *)
Definition fresh_promises (w : World) : Prop :=
  forall h s l q,
    streams w !! h = Some s -> l ∈ on_end s ++ on_status s ->
    listener_promise l = Some q -> q < length (promises w).

(** The same, as a check. *)
Definition promises_fresh (w : World) : bool :=
  forallb
    (fun s =>
       forallb
         (fun l => match listener_promise l with
                   | Some q => Nat.ltb q (length (promises w))
                   | None => true
                   end)
         (on_end s ++ on_status s))
    (streams w).

Lemma promises_fresh_spec w :
  promises_fresh w = true <-> fresh_promises w.
Proof.
  unfold promises_fresh, fresh_promises. rewrite forallb_forall. split.
  - intros H h s l q Hs Hl Hq.
    specialize (H s). rewrite forallb_forall in H.
    assert (Hin : In s (streams w))
      by (apply list_elem_of_In; by eapply list_elem_of_lookup_2).
    specialize (H Hin l). rewrite Hq in H. apply Nat.ltb_lt, H.
    by apply list_elem_of_In.
  - intros H s Hs. apply forallb_forall. intros l Hl.
    destruct (listener_promise l) as [q|] eqn:Hq; [|done].
    apply list_elem_of_In, list_elem_of_lookup_1 in Hs as [h Hs].
    apply Nat.ltb_lt. eapply H; [done | by apply list_elem_of_In | done].
Qed.

Lemma fresh_promises_cancelling key h w :
  fresh_promises w -> fresh_promises (cancelling key h w).
Proof.
  intros Hf h' s' l q Hs' Hl Hq.
  rewrite promises_cancelling, length_app. simpl.
  rewrite streams_cancelling in Hs'.
  destruct (decide (h = h')) as [->|Hne].
  - rewrite list_lookup_alter_eq in Hs'.
    destruct (streams w !! h') as [s|] eqn:Hs; [|done].
    injection Hs' as <-. simpl in Hl.
    rewrite !elem_of_app, !list_elem_of_singleton in Hl.
    destruct Hl as [[Hl| ->]|[Hl| ->]].
    + assert (q < length (promises w)); [|lia].
      apply (Hf h' s l q Hs); [|done]. apply elem_of_app. by left.
    + injection Hq as <-. lia.
    + assert (q < length (promises w)); [|lia].
      apply (Hf h' s l q Hs); [|done]. apply elem_of_app. by right.
    + injection Hq as <-. lia.
  - rewrite list_lookup_alter_ne in Hs' by done.
    assert (q < length (promises w)); [|lia]. by eapply Hf.
Qed.

(** Every listener in [w'] that resolves [q] is a listener of the same
    stream in [w]: no stream got a new listener of that promise. *)
Definition no_new_resolver (q : PromiseId) (w w' : World) : Prop :=
  forall h' s' l,
    streams w' !! h' = Some s' -> l ∈ on_end s' ++ on_status s' ->
    listener_promise l = Some q ->
    exists s, streams w !! h' = Some s /\ l ∈ on_end s ++ on_status s.

Lemma no_new_resolver_new_stream q m w :
  no_new_resolver q w (new_stream m w).2.
Proof.
  simpl. intros h' s' l Hs' Hl Hlp.
  apply lookup_snoc_Some in Hs' as [[_ Hs']|[_ <-]]; [eauto|].
  by apply elem_of_nil in Hl.
Qed.

Lemma no_new_resolver_alter q (f : Stream -> Stream) h0 w :
  (forall s l, l ∈ on_end (f s) ++ on_status (f s) ->
               listener_promise l = Some q ->
               l ∈ on_end s ++ on_status s) ->
  no_new_resolver q w (set_streams (alter f h0 (streams w)) w).
Proof.
  intros Hf h' s' l Hs' Hl Hlp. simpl in Hs'.
  destruct (decide (h0 = h')) as [->|Hne].
  - rewrite list_lookup_alter_eq in Hs'.
    destruct (streams w !! h') as [s|]; [|done]. injection Hs' as <-.
    exists s. split; [done|]. by apply Hf.
  - rewrite list_lookup_alter_ne in Hs' by done. eauto.
Qed.

Lemma no_new_resolver_on_end q h0 l0 w :
  listener_promise l0 = None -> no_new_resolver q w (on_end_add h0 l0 w).2.
Proof.
  intros Hl0. apply no_new_resolver_alter. intros s l. simpl.
  rewrite !elem_of_app, list_elem_of_singleton.
  intros [[?| ->]|?] Hq; eauto. congruence.
Qed.

Lemma no_new_resolver_on_status q h0 l0 w :
  listener_promise l0 = None -> no_new_resolver q w (on_status_add h0 l0 w).2.
Proof.
  intros Hl0. apply no_new_resolver_alter. intros s l. simpl.
  rewrite !elem_of_app, list_elem_of_singleton.
  intros [?|[?| ->]] Hq; eauto. congruence.
Qed.

(** [cancelSubscription] adds the listeners of its new promise only. *)
Lemma no_new_resolver_cancelling q k h0 w :
  q ≠ length (promises w) ->
  no_new_resolver q w (set_streams (streams (cancelling k h0 w)) w).
Proof.
  intros Hq. rewrite streams_cancelling. apply no_new_resolver_alter.
  intros s l. simpl. rewrite !elem_of_app, !list_elem_of_singleton.
  intros [[?| ->]|[?| ->]] Hp; eauto; simpl in Hp; congruence.
Qed.

(** Freshness is kept. *)
Definition stays_fresh (w w' : World) : Prop :=
  fresh_promises w -> fresh_promises w'.

Lemma stays_fresh_no_new w w' :
  promises w' = promises w -> (forall q, no_new_resolver q w w') ->
  stays_fresh w w'.
Proof.
  intros Hp Hn Hf h' s' l q Hs' Hl Hq. rewrite Hp.
  destruct (Hn q h' s' l Hs' Hl Hq) as (s & Hs & Hls). by eapply Hf.
Qed.

#[global] Instance stays_fresh_respected : Respected stays_fresh.
Proof.
  split.
  - split; [by intros w Hf | intros w1 w2 w3 H12 H23 H; by apply H23, H12].
  - intros w w' Hs Hp _ Hf. unfold fresh_promises. by rewrite Hs, Hp.
  - intros m w. apply stays_fresh_no_new; [done|]. intros q.
    apply no_new_resolver_new_stream.
  - intros h l w Hl. apply stays_fresh_no_new; [done|]. intros q.
    by apply no_new_resolver_on_end.
  - intros h l w Hl. apply stays_fresh_no_new; [done|]. intros q.
    by apply no_new_resolver_on_status.
  - intros k h w Hf. by apply fresh_promises_cancelling.
Qed.

(** A stream event adds no listener and no promise. *)
Lemma emit_streams h ev w :
  streams (emit h ev w).2 = streams w /\
  length (promises (emit h ev w).2) = length (promises w).
Proof.
  rewrite emit_eq. destruct (streams w !! h) as [s|]; [|done].
  by destruct (forEach_deliver ev (listeners_of ev s) w)
    as (w' & -> & Hstr & Hlen & _).
Qed.

(** [ev] is the event [e] of the stream [h]. *)
Definition terminates_as (h : Handle) (e : option Z) (ev : Event) : Prop :=
  match ev with
  | Stream_end h' => h' = h /\ e = None
  | Stream_status h' code => h' = h /\ e = Some code
  | _ => False
  end.

Lemma exec_stream_event ev w :
  is_stream_event ev = true ->
  exists h e, exec ev w = (emit h e w).2 /\ terminates_as h e ev.
Proof.
  intros He. destruct ev; try discriminate.
  - exists h, None. by split.
  - exists h, (Some code). by split.
Qed.

Lemma fresh_promises_exec ev w :
  fresh_promises w -> fresh_promises (exec ev w).
Proof.
  intros Hf. destruct (is_stream_event ev) eqn:E.
  - destruct (exec_stream_event ev w E) as (h & e & -> & _).
    destruct (emit_streams h e w) as [Hs Hl].
    unfold fresh_promises. by rewrite Hs, Hl.
  - by apply (respects_step stays_fresh ev E w).
Qed.

(** Every world the instance reaches has fresh promises. *)
Lemma promises_fresh_run evs : promises_fresh (run evs initial_world) = true.
Proof.
  apply promises_fresh_spec.
  assert (H : forall w, fresh_promises w -> fresh_promises (run evs w)).
  { induction evs as [|ev evs IH]; intros w Hw; [done|].
    simpl. by apply IH, fresh_promises_exec. }
  apply H. by intros h s l q Hs.
Qed.

Section Ownership.

(** The promise [p] of a call [cancelSubscription(key)] that found the
    stream [h]. *)
Variable p : PromiseId.
Variable h : Handle.
Variable key : string.

(** [p] exists, and the only listeners that resolve it are listeners of the
    stream [h], registered for [key]. *)
Definition owns (w : World) : Prop :=
  p < length (promises w) /\
  forall h' s l,
    streams w !! h' = Some s -> l ∈ on_end s ++ on_status s ->
    listener_promise l = Some p ->
    h' = h /\ listener_key l = key.

(** From [w] to [w'] the promise keeps its owner and its state. *)
Definition keeps (w w' : World) : Prop :=
  owns w -> owns w' /\ promises w' !! p = promises w !! p.

Lemma keeps_no_new w w' :
  promises w' = promises w -> no_new_resolver p w w' -> keeps w w'.
Proof.
  intros Hp Hn [H1 H2]. unfold owns. rewrite Hp. split; [|done].
  split; [done|]. intros h' s' l Hs' Hl Hlp.
  destruct (Hn h' s' l Hs' Hl Hlp) as (s & Hsw & Hls). by eapply H2.
Qed.

Lemma keeps_cancelling k h0 w : keeps w (cancelling k h0 w).
Proof.
  intros Ho. pose proof Ho as [Hlt _].
  assert (Hk : keeps w (set_streams (streams (cancelling k h0 w)) w)).
  { apply keeps_no_new; [done|]. apply no_new_resolver_cancelling. lia. }
  destruct (Hk Ho) as [[_ Ho'] _]. simpl in Ho'.
  unfold owns. rewrite promises_cancelling, length_app. simpl.
  split; [split; [lia | done]|].
  by apply lookup_app_l.
Qed.

#[global] Instance keeps_respected : Respected keeps.
Proof.
  split.
  - split.
    + by intros w Ho.
    + intros w1 w2 w3 H12 H23 H1. destruct (H12 H1) as [H2 E2].
      destruct (H23 H2) as [H3 E3]. split; [done | congruence].
  - intros w w' Hs Hp _ [H1 H2]. unfold owns. by rewrite Hs, Hp.
  - intros m w. apply keeps_no_new; [done|].
    apply no_new_resolver_new_stream.
  - intros h0 l w Hl. apply keeps_no_new; [done|].
    by apply no_new_resolver_on_end.
  - intros h0 l w Hl. apply keeps_no_new; [done|].
    by apply no_new_resolver_on_status.
  - apply keeps_cancelling.
Qed.

(** A stream event changes no stream, so no owner. *)
Lemma emit_owns h' ev w : owns w -> owns (emit h' ev w).2.
Proof.
  intros [H1 H2]. destruct (emit_streams h' ev w) as [Hstr Hlen].
  unfold owns. by rewrite Hstr, Hlen.
Qed.

(** The only event that resolves [p] is a terminating event of [h], and it
    leaves [key] without an entry. *)
Lemma emit_resolves h' ev w :
  owns w ->
  promises w !! p = Some false ->
  promises (emit h' ev w).2 !! p = Some true ->
  h' = h /\ (ev = None \/ ev = Some CANCELLED) /\
  tlookup key (table (emit h' ev w).2) = None.
Proof.
  intros [H1 H2] Hf. rewrite emit_eq.
  destruct (streams w !! h') as [s|] eqn:Hs; [|simpl; congruence].
  destruct (forEach_deliver ev (listeners_of ev s) w)
    as (w' & -> & _ & _ & _ & _ & _ & _ & _ & Hdel & _ & Hflip). simpl.
  intros Ht. destruct (Hflip p Hf Ht) as (l & Hl & Hfires & Hlp).
  assert (Hin : l ∈ on_end s ++ on_status s).
  { apply elem_of_app. destruct ev; simpl in Hl; eauto. }
  destruct (H2 h' s l Hs Hin Hlp) as [-> Hk]. split; [done|]. split.
  - destruct ev as [code|]; [right | by left].
    destruct l; simpl in Hfires; try done;
      apply Z.eqb_eq in Hfires; by subst.
  - rewrite <- Hk. by apply Hdel.
Qed.

Lemma resolved_lookup w b :
  p < length (promises w) ->
  resolved p w = b <-> promises w !! p = Some b.
Proof.
  intros Hlt. unfold resolved.
  destruct (promises w !! p) as [b'|] eqn:E; simpl.
  - split; congruence.
  - apply lookup_ge_None in E. lia.
Qed.

Lemma exec_owns ev w : owns w -> owns (exec ev w).
Proof.
  intros Ho. destruct (is_stream_event ev) eqn:E.
  - destruct (exec_stream_event ev w E) as (h' & e & -> & _).
    by apply emit_owns.
  - by apply (respects_step keeps ev E w).
Qed.

Lemma exec_resolves ev w :
  owns w ->
  resolved p w = false ->
  resolved p (exec ev w) = true ->
  terminates h ev = true /\ tlookup key (table (exec ev w)) = None.
Proof.
  intros Ho Hf Ht. pose proof (exec_owns ev w Ho) as Ho'.
  apply resolved_lookup in Hf; [|apply Ho].
  apply resolved_lookup in Ht; [|apply Ho'].
  destruct (is_stream_event ev) eqn:E.
  - destruct (exec_stream_event ev w E) as (h' & e & Hex & Hev).
    rewrite Hex in Ht |- *.
    destruct (emit_resolves h' e w Ho Hf Ht) as (-> & Hc & Hk).
    split; [|done].
    destruct ev; try discriminate; simpl in Hev;
      destruct Hev as [-> ->]; simpl.
    + by apply bool_decide_eq_true.
    + destruct Hc as [|[= ->]]; [done|]. by rewrite bool_decide_eq_true_2.
  - destruct (respects_step keeps ev E w Ho) as [_ Hk].
    unfold exec in Ht. congruence.
Qed.

(** Along any trace, [p] is resolved only by a terminating event of [h],
    which at that moment leaves [key] without an entry. *)
Lemma run_resolves evs w :
  owns w ->
  resolved p w = false ->
  resolved p (run evs w) = true ->
  exists pre ev post,
    evs = pre ++ ev :: post /\
    terminates h ev = true /\
    resolved p (run pre w) = false /\
    resolved p (run (pre ++ [ev]) w) = true /\
    tlookup key (table (run (pre ++ [ev]) w)) = None.
Proof.
  revert w. induction evs as [|ev evs IH]; intros w Ho Hf Ht.
  - simpl in Ht. congruence.
  - simpl in Ht. destruct (resolved p (exec ev w)) eqn:E.
    + destruct (exec_resolves ev w Ho Hf E) as [Hterm Hk].
      exists [], ev, evs. done.
    + destruct (IH (exec ev w)) as (pre & ev' & post & -> & Hterm & H1 & H2 & H3);
        [by apply exec_owns | done | done |].
      exists (ev :: pre), ev', post. done.
Qed.

End Ownership.

(** ** cancelSubscription and unsubscribe resolve on termination *)

Lemma cancelling_owns key h w :
  fresh_promises w ->
  owns (length (promises w)) h key (cancelling key h w) /\
  resolved (length (promises w)) (cancelling key h w) = false.
Proof.
  intros Hf. split; [split|].
  - rewrite promises_cancelling, length_app. simpl. lia.
  - intros h' s' l Hs' Hl Hq.
    rewrite streams_cancelling in Hs'.
    destruct (decide (h = h')) as [->|Hne].
    + rewrite list_lookup_alter_eq in Hs'.
      destruct (streams w !! h') as [s|] eqn:Hs; [|done].
      injection Hs' as <-. simpl in Hl.
      rewrite !elem_of_app, !list_elem_of_singleton in Hl.
      destruct Hl as [[Hl| ->]|[Hl| ->]]; try done.
      * exfalso. assert (length (promises w) < length (promises w)); [|lia].
        apply (Hf h' s l _ Hs); [|done]. apply elem_of_app. by left.
      * exfalso. assert (length (promises w) < length (promises w)); [|lia].
        apply (Hf h' s l _ Hs); [|done]. apply elem_of_app. by right.
    + rewrite list_lookup_alter_ne in Hs' by done.
      exfalso. assert (length (promises w) < length (promises w)); [|lia].
      by eapply Hf.
  - unfold resolved. rewrite promises_cancelling.
    by rewrite list_lookup_middle.
Qed.

Lemma mapM_cancelSubscription_owns ks w i k hk :
  has_Lightning w ->
  fresh_promises w ->
  (forall k, k ∈ ks -> is_Some (tlookup k (table w))) ->
  ks !! i = Some k ->
  tlookup k (table w) = Some hk ->
  owns (length (promises w) + i) hk k (mapM ks cancelSubscription w).2 /\
  resolved (length (promises w) + i) (mapM ks cancelSubscription w).2 = false.
Proof.
  revert w i. induction ks as [|k0 ks IH]; intros w i HL Hf Hact Hi Hk; [done|].
  destruct (Hact k0) as [h0 Hh0]; [by left|].
  pose proof HL as [l Hl].
  assert (Hrun : (mapM (k0 :: ks) cancelSubscription w).2 =
                 (mapM ks cancelSubscription (cancelling k0 h0 w)).2).
  { simpl mapM. unfold bind.
    rewrite (cancelSubscription_active k0 h0 l w Hh0 Hl).
    by destruct (mapM ks cancelSubscription (cancelling k0 h0 w)) as [[?|?] ?]. }
  rewrite Hrun.
  destruct i as [|i]; simpl in Hi.
  - injection Hi as ->. assert (hk = h0) as -> by congruence.
    rewrite Nat.add_0_r.
    destruct (cancelling_owns k h0 w Hf) as [Ho Hr].
    pose proof (respects_mapM (keeps (length (promises w)) h0 k)
                  ks cancelSubscription
                  (respects_cancelSubscription _) (cancelling k h0 w) Ho)
      as [Ho' He].
    split; [done|].
    apply resolved_lookup; [apply Ho'|]. rewrite He.
    apply resolved_lookup; [apply Ho | done].
  - replace (length (promises w) + S i)
      with (length (promises (cancelling k0 h0 w)) + i)
      by (rewrite promises_cancelling, length_app; simpl; lia).
    apply IH; try done.
    + by apply has_Lightning_cancelling.
    + by apply fresh_promises_cancelling.
    + intros k' Hk'. rewrite table_cancelling. apply Hact. by right.
    + by rewrite table_cancelling.
Qed.

(** Whether a promise handed back by the class is fulfilled. *)
Definition fulfilled (w : World) (pr : Promise) : bool :=
  match pr with
  | Fulfilled => true
  | Rejected _ => false
  | Deferred p => resolved p w
  end.

(** [Promise.all]: fulfilled when each one is. *)
Definition all_fulfilled (prs : list Promise) (w : World) : bool :=
  forallb (fulfilled w) prs.

Lemma all_fulfilled_Deferred n len w i :
  all_fulfilled (Deferred <$> seq n len) w = true ->
  i < len -> resolved (n + i) w = true.
Proof.
  unfold all_fulfilled. rewrite forallb_forall. intros H Hi.
  apply (H (Deferred (n + i))). apply list_elem_of_In, list_elem_of_fmap.
  exists (n + i). split; [done|]. apply elem_of_seq. lia.
Qed.

(** C2: the promise of [cancelSubscription(key)], for a key with an entry,
    is pending when the method returns - the cancel request sent, the entry
    still there - and along every trace it is resolved only by an ['end']
    event or a ['status'] event with code CANCELLED of that key's stream
    handle, after which the key has no entry; and [unsubscribe()] makes one
    such promise per key of the table and awaits them all, so that it is
    fulfilled only after each key had such an event on its handle. *)
Theorem cancellation_resolves_on_termination
    (key : string) (h : Handle) (w : World) :
  has_Lightning w ->
  promises_fresh w = true ->
  tlookup key (table w) = Some h ->
  (exists p w1,
     cancelSubscription key w = (Ret (Deferred p), w1) /\
     resolved p w1 = false /\
     tlookup key (table w1) = Some h /\
     (forall s, streams w !! h = Some s ->
        exists s', streams w1 !! h = Some s' /\
                   cancel_calls s' = S (cancel_calls s)) /\
     forall evs,
       resolved p (run evs w1) = true ->
       exists pre ev post,
         evs = pre ++ ev :: post /\
         terminates h ev = true /\
         resolved p (run pre w1) = false /\
         resolved p (run (pre ++ [ev]) w1) = true /\
         tlookup key (table (run (pre ++ [ev]) w1)) = None) /\
  (exists prs w2,
     unsubscribe [] w = (Ret prs, w2) /\
     length prs = length (Object_keys (table w)) /\
     (forall pr, pr ∈ prs -> fulfilled w2 pr = false) /\
     forall evs,
       all_fulfilled prs (run evs w2) = true ->
       forall k hk,
         tlookup k (table w) = Some hk ->
         exists pre ev post,
           evs = pre ++ ev :: post /\
           terminates hk ev = true /\
           tlookup k (table (run (pre ++ [ev]) w2)) = None).
Proof.
  intros HL Hfb Hh.
  assert (Hf : fresh_promises w).
  { intros h' s l q. by apply promises_fresh_spec. }
  split.
  - pose proof HL as [l Hl].
    exists (length (promises w)), (cancelling key h w).
    destruct (cancelling_owns key h w Hf) as [Ho Hr].
    split; [by eapply cancelSubscription_active|].
    split; [done|]. split; [by rewrite table_cancelling|].
    split; [intros s; apply cancelling_requests|].
    intros evs. by apply run_resolves.
  - destruct (unsubscribe_closed_form [] w HL)
      as (w2 & Hrun & Htab & Hpr & HL2 & _ & _).
    unfold unsubscribe_keys, resolve_keys in Hrun, Hpr.
    set (ks := Object_keys (table w)) in *.
    assert (Hw2 : w2 = (mapM ks cancelSubscription
                          (set_log (log w ++ [InfoUnsubscribing ks]) w)).2).
    { unfold unsubscribe, bind, gets in Hrun. fold ks in Hrun.
      unfold resolve_keys in Hrun.
      destruct ks as [|k0 ks0] eqn:Ek.
      - apply tlookup_Some_keys in Hh. fold ks in Hh. rewrite Ek in Hh.
        by apply elem_of_nil in Hh.
      - unfold grpcLog, modify in Hrun.
        destruct (mapM (k0 :: ks0) cancelSubscription _) as [[?|?] ?];
          simpl in *; congruence. }
    set (w0 := set_log (log w ++ [InfoUnsubscribing ks]) w) in *.
    assert (Hown : forall i k hk,
              ks !! i = Some k -> tlookup k (table w) = Some hk ->
              owns (length (promises w) + i) hk k w2 /\
              resolved (length (promises w) + i) w2 = false).
    { intros i k hk Hi Hk. rewrite Hw2.
      apply (mapM_cancelSubscription_owns ks w0 i k hk); try done.
      intros k' Hk'. by apply keys_tlookup_Some. }
    eexists _, w2. split; [exact Hrun|].
    split; [by rewrite length_fmap, length_seq|]. split.
    + intros pr (q & -> & Hq)%list_elem_of_fmap.
      apply elem_of_seq in Hq. simpl.
      destruct (lookup_lt_is_Some_2 ks (q - length (promises w)))
        as [k Hk]; [lia|].
      destruct (keys_tlookup_Some k (table w)) as [hk Hhk].
      { by eapply list_elem_of_lookup_2. }
      destruct (Hown _ k hk Hk Hhk) as [_ Hr].
      by replace (length (promises w) + (q - length (promises w)))
        with q in Hr by lia.
    + intros evs Hall k hk Hk.
      pose proof (tlookup_Some_keys _ _ _ Hk) as Hin. fold ks in Hin.
      apply list_elem_of_lookup_1 in Hin as [i Hi].
      destruct (Hown i k hk Hi Hk) as [Ho Hr].
      assert (Hi' : i < length ks) by by eapply lookup_lt_Some.
      pose proof (all_fulfilled_Deferred _ _ _ i Hall Hi') as Hres.
      destruct (run_resolves _ _ _ evs w2 Ho Hr Hres)
        as (pre & ev & post & -> & Hterm & _ & _ & Hnone).
      by exists pre, ev, post.
Qed.


(** * Further properties of the class *)

(** ** subscribe and unsubscribe at the edges *)

Lemma intersection_nil xs ys :
  (forall k, k ∈ ys -> k ∉ xs) -> intersection xs ys = [].
Proof.
  intros H. destruct (intersection xs ys) as [|k l] eqn:E; [done|].
  assert (Hk : k ∈ intersection xs ys) by (rewrite E; by left).
  apply elem_of_intersection in Hk as [Hx Hy]. by destruct (H k Hy).
Qed.

(** A call of [subscribe] whose keys are all unknown does nothing at all:
    the intersection of grpc.js:124 is empty and the method returns at
    line 127, before it logs.  (With no key it would target every known
    key.) *)
Theorem subscribe_unknown_keys (streams_ : list string) (w : World) :
  streams_ <> [] ->
  (forall k, k ∈ streams_ -> k ∉ SUBSCRIPTIONS.*1) ->
  subscribe streams_ w = (Ret tt, w).
Proof.
  intros Hne Hunk. unfold subscribe, resolve_keys.
  destruct streams_ as [|k ks]; [done|].
  by rewrite (intersection_nil _ _ Hunk).
Qed.

(** The loop of [subscribe] when the registry has no Lightning service:
    warnings for the keys that have an entry, and a throw at the first key
    that has none. *)
Lemma forEach_subscribe_key_no_Lightning ks w :
  (forall k, k ∈ ks -> k ∈ SUBSCRIPTIONS.*1) ->
  Lightning (services w) = None ->
  exists w',
    forEach ks subscribe_key w =
      (match inactive (table w) ks with
       | [] => Ret tt
       | _ => Throw (TypeError "Lightning is undefined")
       end, w') /\
    table w' = table w /\ streams w' = streams w /\
    promises w' = promises w /\ services w' = services w.
Proof.
  intros Hks HL. revert w HL. induction ks as [|k ks IH]; intros w HL.
  - by exists w.
  - assert (Hk : k ∈ SUBSCRIPTIONS.*1) by (apply Hks; by left).
    assert (Hks' : forall k', k' ∈ ks -> k' ∈ SUBSCRIPTIONS.*1)
      by (intros k' Hk'; apply Hks; by right).
    simpl forEach. unfold bind.
    destruct (tlookup k (table w)) as [h|] eqn:Ht.
    + rewrite (subscribe_key_active k h w Ht).
      destruct (IH Hks' (set_log (log w ++ [WarnAlreadyActive k]) w) HL)
        as (w' & Hrun & Hrest).
      exists w'. rewrite Hrun. split; [|done].
      unfold inactive. rewrite filter_cons_False; [done|]. by rewrite Ht.
    + exists w. split; [|done].
      unfold inactive. rewrite filter_cons_True by done.
      unfold subscribe_key, bind, get_entry, gets.
      rewrite Ht, (read_None_known k Hk).
      simpl. by rewrite HL.
Qed.

(** Without a registry - before [connect], after [disconnect] - a call of
    [subscribe] that has a stream to start throws a TypeError (grpc.js:142
    calls a method of [undefined]) and starts nothing; a call whose
    targeted keys all have an entry only warns. *)
Theorem subscribe_without_registry (streams_ : list string) (w : World) :
  Lightning (services w) = None ->
  exists o w',
    subscribe streams_ w = (o, w') /\
    table w' = table w /\ streams w' = streams w /\
    promises w' = promises w /\
    (o = Ret tt <->
     inactive (table w) (resolve_keys SUBSCRIPTIONS.*1 streams_) = []) /\
    (o = Throw (TypeError "Lightning is undefined") <->
     inactive (table w) (resolve_keys SUBSCRIPTIONS.*1 streams_) <> []).
Proof.
  intros HL. unfold subscribe.
  destruct (resolve_keys SUBSCRIPTIONS.*1 streams_) as [|k0 ks0] eqn:Ek.
  - exists (Ret tt), w. split; [done|]. do 3 (split; [done|]).
    split; split; try done; discriminate.
  - unfold bind, grpcLog, modify.
    destruct (forEach_subscribe_key_no_Lightning (k0 :: ks0)
                (set_log (log w ++ [InfoSubscribing (k0 :: ks0)]) w))
      as (w' & Hrun & Htab & Hstr & Hpr & _); [|exact HL|].
    { intros k Hk. apply (resolve_keys_known streams_). by rewrite Ek. }
    rewrite table_set_log in Hrun, Htab. simpl in Hstr, Hpr.
    eexists _, w'. split; [exact Hrun|]. do 3 (split; [done|]).
    destruct (inactive (table w) (k0 :: ks0));
      split; split; try done; discriminate.
Qed.

Lemma inactive_nil t ks :
  (forall k, k ∈ ks -> is_Some (tlookup k t)) -> inactive t ks = [].
Proof.
  intros H. destruct (inactive t ks) as [|k l] eqn:E; [done|].
  assert (Hk : k ∈ inactive t ks) by (rewrite E; by left).
  apply list_elem_of_filter in Hk as [Hn Hk].
  destruct (H k Hk) as [h Hh]. congruence.
Qed.

Lemma tlookup_zip_seq_Some k ks n :
  NoDup ks -> k ∈ ks -> is_Some (tlookup k (zip ks (seq n (length ks)))).
Proof.
  intros Hnd [i Hi]%list_elem_of_lookup_1.
  rewrite (tlookup_zip_seq k ks n i Hnd Hi). eauto.
Qed.

(** [subscribe] is idempotent: the same call made again, right after the
    first, starts no stream and leaves the table as the first call left
    it; it only logs its warnings. *)
Theorem subscribe_twice (streams_ : list string) (w w1 : World) :
  has_streaming w = true ->
  subscribe streams_ w = (Ret tt, w1) ->
  exists w2,
    subscribe streams_ w1 = (Ret tt, w2) /\
    table w2 = table w1 /\
    streams w2 = streams w1 /\
    promises w2 = promises w1.
Proof.
  intros Hs Hrun.
  destruct (subscribe_closed_form streams_ w Hs)
    as (w1' & Hrun' & Htab & _ & _ & _ & _ & _ & Hs1).
  rewrite Hrun in Hrun'. injection Hrun' as <-.
  set (targets := resolve_keys SUBSCRIPTIONS.*1 streams_) in *.
  assert (Hnone : inactive (table w1) targets = []).
  { apply inactive_nil. intros k Hk.
    rewrite Htab, tlookup_app.
    destruct (tlookup k (table w)) as [h|] eqn:Hkw; [eauto|].
    apply tlookup_zip_seq_Some.
    - apply NoDup_filter, NoDup_resolve_keys, NoDup_SUBSCRIPTIONS_keys.
    - by apply list_elem_of_filter. }
  destruct (subscribe_closed_form streams_ w1 Hs1)
    as (w2 & Hrun2 & Htab2 & Hstr2 & _ & Hpr2 & _).
  fold targets in Htab2, Hstr2. rewrite Hnone in Htab2, Hstr2.
  simpl in Htab2, Hstr2. rewrite app_nil_r in Htab2, Hstr2.
  by exists w2.
Qed.

(** [unsubscribe] with nothing to cancel - keys none of which has an entry,
    or no key and an empty table - returns at grpc.js:176: no promise to
    await, no log line, no warning (the keys without an entry are dropped
    by the intersection; only [cancelSubscription] warns about them). *)
Theorem unsubscribe_nothing_active (streams_ : list string) (w : World) :
  (forall k, k ∈ streams_ -> tlookup k (table w) = None) ->
  (streams_ = [] -> table w = []) ->
  unsubscribe streams_ w = (Ret [], w).
Proof.
  intros Hnone Hempty. unfold unsubscribe, bind, gets, resolve_keys.
  destruct streams_ as [|k ks].
  - by rewrite Hempty.
  - rewrite intersection_nil; [done|].
    intros k' Hk'. apply tlookup_None_keys. by apply Hnone.
Qed.

Lemma forEach_nothing {A} (l : list A) (f : A -> M unit) w :
  (forall a, a ∈ l -> f a w = (Ret tt, w)) -> forEach l f w = (Ret tt, w).
Proof.
  induction l as [|a l IH]; intros H; [done|].
  simpl. unfold bind. rewrite (H a) by (by left).
  apply IH. intros a' Ha'. apply H. by right.
Qed.

(** A ['status'] event whose code is not CANCELLED changes nothing: the
    listeners of grpc.js:155-160 and 203-209 act on that one code only. *)
Theorem status_other_than_CANCELLED (h : Handle) (code : Z) (w : World) :
  code <> CANCELLED ->
  emit_status h code w = (Ret tt, w).
Proof.
  intros Hc%Z.eqb_neq. unfold emit_status, bind, gets.
  destruct (streams w !! h) as [s|]; [|done].
  apply forEach_nothing. intros l _.
  destruct l; simpl; by rewrite ?Hc.
Qed.

(** ** What a terminating event does *)

(** The events that end a stream: ['end'], and ['status'] with the code
    CANCELLED. *)
Definition terminating (ev : option Z) : Prop :=
  ev = None \/ ev = Some CANCELLED.

(** [s] is a stream that [subscribe] started for the key [k]: opened with
    the method the map binds to [k], carrying the two listeners of
    [subscribe], and with no listener of another key. *)
Definition stream_of (k : string) (s : Stream) : Prop :=
  assoc k SUBSCRIPTIONS = Some (s_method s) /\
  SubscribeEnd k ∈ on_end s /\
  SubscribeStatus k ∈ on_status s /\
  forall l, l ∈ on_end s ++ on_status s -> listener_key l = k.

Lemma tdelete_app k t1 t2 :
  tdelete k (t1 ++ t2) = tdelete k t1 ++ tdelete k t2.
Proof.
  induction t1 as [|[k' h'] t1 IH]; simpl; [done|].
  destruct (String.eqb k' k); [done|]. by rewrite IH.
Qed.

Lemma tdelete_idem k t : tdelete k (tdelete k t) = tdelete k t.
Proof. apply tdelete_absent, tlookup_tdelete_eq. Qed.

(** Listeners of one key: together they delete that key's entry, once. *)
Lemma forEach_deliver_same_key ev ls k w :
  (forall l, l ∈ ls -> listener_key l = k) ->
  exists w',
    forEach ls (deliver ev) w = (Ret tt, w') /\
    table w' =
      (if existsb (fires ev) ls then tdelete k (table w) else table w).
Proof.
  revert w. induction ls as [|l ls IH]; intros w Hk.
  - by exists w.
  - destruct (deliver_spec ev l w) as (w1 & Hrun & _ & Htab & _).
    destruct (IH w1) as (w' & Hrun' & Htab').
    { intros l' Hl'. apply Hk. by right. }
    exists w'. simpl forEach. unfold bind. rewrite Hrun.
    split; [done|]. rewrite Htab', Htab, (Hk l) by (by left). simpl.
    destruct (fires ev l), (existsb (fires ev) ls); simpl;
      by rewrite ?tdelete_idem.
Qed.

(** A listener that acts resolves its promise, and no later listener
    takes that back. *)
Lemma forEach_deliver_resolves ev ls w l p :
  l ∈ ls -> fires ev l = true -> listener_promise l = Some p ->
  p < length (promises w) ->
  promises (forEach ls (deliver ev) w).2 !! p = Some true.
Proof.
  revert w. induction ls as [|l0 ls IH]; intros w Hl Hf Hp Hlt.
  - by apply elem_of_nil in Hl.
  - destruct (deliver_spec ev l0 w) as (w1 & Hrun & _ & _ & Hpr & _).
    simpl forEach. unfold bind. rewrite Hrun.
    assert (Hlen : length (promises w1) = length (promises w)).
    { rewrite Hpr. destruct (fires ev l0); [|done].
      destruct (listener_promise l0); simpl; [apply length_insert | done]. }
    apply elem_of_cons in Hl as [->|Hl].
    + destruct (forEach_deliver ev ls w1)
        as (w' & -> & _ & _ & _ & _ & _ & _ & _ & _ & Hmono & _).
      simpl. apply Hmono. rewrite Hpr, Hf, Hp. simpl.
      by apply list_lookup_insert_eq.
    + apply IH; try done. lia.
Qed.

Lemma stream_of_fires k s ev :
  stream_of k s -> terminating ev ->
  existsb (fires ev) (listeners_of ev s) = true.
Proof.
  intros (_ & He & Hs & _) [-> | ->]; simpl; apply existsb_exists.
  - exists (SubscribeEnd k). split; [by apply list_elem_of_In | done].
  - exists (SubscribeStatus k). split; [by apply list_elem_of_In | done].
Qed.

Lemma stream_of_listeners k s ev l :
  stream_of k s -> l ∈ listeners_of ev s -> listener_key l = k.
Proof.
  intros (_ & _ & _ & H) Hl. apply H, elem_of_app.
  destruct ev; simpl in Hl; eauto.
Qed.

(** A terminating event of a stream started for [k] deletes the entry of
    [k], and nothing else. *)
Lemma emit_terminating k h s ev w :
  streams w !! h = Some s -> stream_of k s -> terminating ev ->
  exists w',
    emit h ev w = (Ret tt, w') /\
    table w' = tdelete k (table w) /\
    streams w' = streams w.
Proof.
  intros Hs Hk Hev. rewrite emit_eq, Hs.
  destruct (forEach_deliver_same_key ev (listeners_of ev s) k w)
    as (w' & Hrun & Htab).
  { intros l Hl. by eapply stream_of_listeners. }
  rewrite (stream_of_fires k s ev Hk Hev) in Htab.
  destruct (forEach_deliver ev (listeners_of ev s) w) as (w'' & Hrun' & Hstr & _).
  exists w'. split; [done|]. split; [done | congruence].
Qed.

Lemma cancelling_stream k h s w :
  streams w !! h = Some s ->
  streams (cancelling k h w) !! h =
    Some (add_cancel
            (add_end (CancelEnd k (length (promises w)))
               (add_status (CancelStatus k (length (promises w))) s))).
Proof.
  intros Hs. by rewrite streams_cancelling, list_lookup_alter_eq, Hs.
Qed.

(** After [cancelSubscription] registered its listeners on [h], a
    terminating event of [h] resolves the promise [p]. *)
Lemma emit_resolves_promise k p h s ev w :
  streams w !! h = Some s ->
  CancelEnd k p ∈ on_end s -> CancelStatus k p ∈ on_status s ->
  p < length (promises w) ->
  terminating ev ->
  exists w',
    emit h ev w = (Ret tt, w') /\
    resolved p w' = true /\
    tlookup k (table w') = None.
Proof.
  intros Hs He Hst Hlt Hev. rewrite emit_eq, Hs.
  destruct (forEach_deliver ev (listeners_of ev s) w)
    as (w' & Hrun & _ & _ & _ & _ & _ & _ & _ & Hdel & _).
  exists w'. split; [done|].
  assert (Hl : exists l, l ∈ listeners_of ev s /\ fires ev l = true /\
                         listener_promise l = Some p /\ listener_key l = k).
  { destruct Hev as [-> | ->]; simpl.
    - by exists (CancelEnd k p).
    - by exists (CancelStatus k p). }
  destruct Hl as (l & Hl & Hf & Hp & Hk). split.
  - unfold resolved.
    pose proof (forEach_deliver_resolves ev _ w l p Hl Hf Hp Hlt) as Hr.
    rewrite Hrun in Hr. simpl in Hr. by rewrite Hr.
  - rewrite <- Hk. by apply Hdel.
Qed.

(** The promise of [cancelSubscription] is kept: the first terminating
    event of the key's stream - ['end'], or ['status'] with CANCELLED -
    resolves it and removes the entry. *)
Theorem cancellation_completes
    (k : string) (h : Handle) (s : Stream) (ev : option Z) (w : World) :
  has_Lightning w ->
  tlookup k (table w) = Some h ->
  streams w !! h = Some s ->
  terminating ev ->
  exists p w1 w2,
    cancelSubscription k w = (Ret (Deferred p), w1) /\
    resolved p w1 = false /\
    emit h ev w1 = (Ret tt, w2) /\
    resolved p w2 = true /\
    tlookup k (table w2) = None.
Proof.
  intros [l HL] Hk Hs Hev.
  exists (length (promises w)), (cancelling k h w).
  destruct (emit_resolves_promise k (length (promises w)) h _ ev
              (cancelling k h w) (cancelling_stream k h s w Hs))
    as (w2 & Hrun & Hres & Hnone); try done.
  - simpl. apply elem_of_app. right. by left.
  - simpl. apply elem_of_app. right. by left.
  - rewrite promises_cancelling, length_app. simpl. lia.
  - exists w2. split; [by eapply cancelSubscription_active|].
    split; [|done]. unfold resolved. rewrite promises_cancelling.
    by rewrite list_lookup_middle.
Qed.

(** [cancelSubscription] called again before the stream confirmed: a second
    cancel request, a second promise, and the one terminating event
    resolves both. *)
Theorem cancelSubscription_twice
    (k : string) (h : Handle) (s : Stream) (ev : option Z) (w : World) :
  has_Lightning w ->
  tlookup k (table w) = Some h ->
  streams w !! h = Some s ->
  terminating ev ->
  exists p1 p2 w1 w2 w3 s2,
    cancelSubscription k w = (Ret (Deferred p1), w1) /\
    cancelSubscription k w1 = (Ret (Deferred p2), w2) /\
    p1 <> p2 /\
    resolved p1 w2 = false /\ resolved p2 w2 = false /\
    streams w2 !! h = Some s2 /\
    cancel_calls s2 = S (S (cancel_calls s)) /\
    emit h ev w2 = (Ret tt, w3) /\
    resolved p1 w3 = true /\ resolved p2 w3 = true /\
    tlookup k (table w3) = None.
Proof.
  intros HL Hk Hs Hev. pose proof HL as [l Hl].
  set (p1 := length (promises w)).
  set (w1 := cancelling k h w).
  assert (HL1 : has_Lightning w1) by by apply has_Lightning_cancelling.
  pose proof HL1 as [l1 Hl1].
  assert (Hk1 : tlookup k (table w1) = Some h)
    by (unfold w1; by rewrite table_cancelling).
  pose proof (cancelling_stream k h s w Hs) as Hs1. fold p1 w1 in Hs1.
  set (s1 := add_cancel _) in Hs1.
  set (p2 := length (promises w1)).
  set (w2 := cancelling k h w1).
  pose proof (cancelling_stream k h s1 w1 Hs1) as Hs2. fold p2 w2 in Hs2.
  set (s2 := add_cancel _) in Hs2.
  assert (Hp2 : p2 = S p1).
  { subst p2 w1. rewrite promises_cancelling, length_app. simpl. lia. }
  assert (Hpr2 : promises w2 = (promises w ++ [false]) ++ [false]).
  { subst w2 w1. by rewrite !promises_cancelling. }
  assert (Hlt : forall p, p = p1 \/ p = p2 -> p < length (promises w2)).
  { intros p Hp. rewrite Hpr2, !length_app. simpl. subst p1. lia. }
  destruct (emit_resolves_promise k p1 h s2 ev w2 Hs2) as (w3 & Hrun & Hr1 & Hnone);
    [| | by apply Hlt; left | done |].
  { subst s2 s1. simpl. set_solver. }
  { subst s2 s1. simpl. set_solver. }
  destruct (emit_resolves_promise k p2 h s2 ev w2 Hs2) as (w3' & Hrun' & Hr2 & _);
    [| | by apply Hlt; right | done |].
  { subst s2. simpl. set_solver. }
  { subst s2. simpl. set_solver. }
  assert (w3' = w3) as -> by congruence.
  exists p1, p2, w1, w2, w3, s2.
  split; [by eapply cancelSubscription_active|].
  split; [by eapply cancelSubscription_active|].
  split; [lia|].
  split.
  { unfold resolved. rewrite Hpr2, <- app_assoc. simpl.
    by rewrite list_lookup_middle. }
  split.
  { unfold resolved. rewrite Hpr2, list_lookup_middle; [done|].
    unfold p2, w1. by rewrite promises_cancelling. }
  done.
Qed.

(** Round trip: [subscribe(key)], [cancelSubscription(key)], and the
    stream's terminating event bring the table back to what it was, with
    the promise resolved. *)
Theorem subscribe_cancel_round_trip
    (key : string) (ev : option Z) (w : World) :
  has_streaming w = true ->
  key ∈ SUBSCRIPTIONS.*1 ->
  tlookup key (table w) = None ->
  terminating ev ->
  exists w1 h p w2 w3,
    subscribe [key] w = (Ret tt, w1) /\
    tlookup key (table w1) = Some h /\
    cancelSubscription key w1 = (Ret (Deferred p), w2) /\
    emit h ev w2 = (Ret tt, w3) /\
    table w3 = table w /\
    resolved p w3 = true.
Proof.
  intros Hs Hkn Hnone Hev.
  destruct (subscribe_single key w Hkn Hnone Hs)
    as (w1 & Hrun & Htab & Hstr & _ & _ & _ & _ & Hs1).
  set (h := length (streams w)).
  assert (Hk1 : tlookup key (table w1) = Some h).
  { rewrite Htab, tlookup_app, Hnone. simpl. by rewrite String.eqb_refl. }
  assert (Hst1 : streams w1 !! h = Some (started_stream key)).
  { rewrite Hstr. by apply list_lookup_middle. }
  pose proof (has_streaming_Lightning w1 Hs1) as HL1.
  pose proof HL1 as [l Hl].
  set (p := length (promises w1)).
  set (w2 := cancelling key h w1).
  pose proof (cancelling_stream key h _ w1 Hst1) as Hs2. fold p w2 in Hs2.
  set (s2 := add_cancel _) in Hs2.
  assert (Hof : stream_of key s2).
  { destruct (assoc_known key Hkn) as [m Hm].
    subst s2. unfold stream_of, started_stream. simpl. rewrite Hm. simpl.
    split; [done|]. split; [set_solver|]. split; [set_solver|].
    intros l0. rewrite !elem_of_cons, elem_of_nil.
    intros [->|[->|[->|[->|[]]]]]; done. }
  destruct (emit_terminating key h s2 ev w2 Hs2 Hof Hev)
    as (w3 & Hrun3 & Htab3 & _).
  destruct (emit_resolves_promise key p h s2 ev w2 Hs2)
    as (w3' & Hrun3' & Hres & _); try done.
  { subst s2. simpl. set_solver. }
  { subst s2. simpl. set_solver. }
  { subst w2 p. rewrite promises_cancelling, length_app. simpl. lia. }
  assert (w3' = w3) as -> by congruence.
  exists w1, h, p, w2, w3.
  split; [done|]. split; [done|].
  split; [by eapply cancelSubscription_active|].
  split; [done|]. split; [|done].
  rewrite Htab3. subst w2. rewrite table_cancelling, Htab, tdelete_app.
  rewrite (tdelete_absent _ _ Hnone). simpl.
  by rewrite String.eqb_refl, app_nil_r.
Qed.

(** ** Relations kept step by step *)

(** The combinators of the monad keep any reflexive and transitive
    relation their parts keep. *)
Section Steps.

Context (R : World -> World -> Prop) `{!PreOrder R}.

Lemma steps_ret {A} (a : A) : respects R (ret a).
Proof. intros w. simpl. reflexivity. Qed.

Lemma steps_throw {A} e : respects R (@throw A e).
Proof. intros w. simpl. reflexivity. Qed.

Lemma steps_gets {A} (f : World -> A) : respects R (gets f).
Proof. intros w. simpl. reflexivity. Qed.

Lemma steps_bind {A B} (m : M A) (f : A -> M B) :
  respects R m -> (forall a, respects R (f a)) -> respects R (bind m f).
Proof.
  intros Hm Hf w. unfold bind. specialize (Hm w).
  destruct (m w) as [[a|e] w1]; simpl in *; [|done].
  etrans; [done | apply Hf].
Qed.

Lemma steps_forEach {A} (l : list A) (f : A -> M unit) :
  (forall a, respects R (f a)) -> respects R (forEach l f).
Proof.
  intros Hf. induction l as [|a l IH]; simpl.
  - apply steps_ret.
  - by apply steps_bind.
Qed.

Lemma steps_mapM {A B} (l : list A) (f : A -> M B) :
  (forall a, respects R (f a)) -> respects R (mapM l f).
Proof.
  intros Hf. induction l as [|a l IH]; simpl.
  - apply steps_ret.
  - apply steps_bind; [done|]. intros y.
    apply steps_bind; [done|]. intros ys. apply steps_ret.
Qed.

Lemma steps_async (m : M Promise) : respects R m -> respects R (async m).
Proof.
  intros Hm w. unfold async. specialize (Hm w).
  by destruct (m w) as [[a|e] w1].
Qed.

Lemma steps_run (step_ : Event -> M unit) evs w :
  (forall ev, respects R (step_ ev)) ->
  R w (foldl (fun w ev => (step_ ev w).2) w evs).
Proof.
  intros H. revert w. induction evs as [|ev evs IH]; intros w; simpl.
  - reflexivity.
  - etrans; [apply (H ev w) | apply IH].
Qed.

End Steps.

Create HintDb zap_steps.

Ltac steps_step :=
  lazymatch goal with
  | |- respects ?R _ =>
      first
        [ solve [auto with zap_steps]
        | apply (steps_ret R)
        | apply (steps_throw R)
        | apply (steps_gets R)
        | apply (steps_bind R); [|intros ?]
        | apply (steps_forEach R); intros ?
        | apply (steps_mapM R); intros ?
        | apply (steps_async R)
        | match goal with
          | |- respects _ (match ?x with _ => _ end) => destruct x
          end ]
  end.

Ltac steps := cbv zeta; repeat steps_step.

(** *** The events the instance emitted *)

Definition same_emitted (w w' : World) : Prop := emitted w' = emitted w.

#[global] Instance same_emitted_preorder : PreOrder same_emitted.
Proof.
  split; [by intros w|]. intros w1 w2 w3. unfold same_emitted. congruence.
Qed.

#[local] Hint Extern 5 (respects same_emitted _) =>
  (intros ?; reflexivity) : zap_steps.

(** [subscribe] announces nothing. *)
Lemma same_emitted_subscribe ks : respects same_emitted (subscribe ks).
Proof.
  unfold subscribe, subscribe_key, call_stream, forwardAll. steps.
Qed.

(** ** The events of the transport *)

Lemma includes_app_r m a b :
  includes m b = true -> includes m (a ++ b) = true.
Proof.
  rewrite !includes_elem_of. intros H. apply elem_of_app. by right.
Qed.

(** [connect] leaves a registry with the four streaming methods. *)
Lemma has_streaming_connected opts w :
  has_streaming (connected_world opts w) = true.
Proof.
  unfold has_streaming. simpl.
  rewrite !includes_app_r; [done | reflexivity..].
Qed.

Lemma connect_Ret_inv opts w w1 :
  connect opts w = (Ret tt, w1) -> w1 = connected_world opts w.
Proof.
  intros H. destruct (already_connected (grpc w)) eqn:E.
  - rewrite (connect_throws opts w E) in H. discriminate.
  - rewrite (connect_builds opts w E) in H. by injection H.
Qed.

(** What the handlers [connect] registered do (grpc.js:59-65): on
    ['locked'] the instance announces that the wallet unlocker is active,
    and nothing else; on ['active'] it announces the Lightning service and
    runs [subscribeAll]: the streams of invoices, transactions and info
    are started where the table has no entry for them, the key
    ["channelgraph"] is left alone, and one more listener waits for the
    info events. *)
Theorem transport_active_starts_subscriptions
    (opts : Options) (w w1 : World) :
  connect opts w = (Ret tt, w1) ->
  let fresh := inactive (table w) ["invoices"; "transactions"; "info"] in
  grpc_emit "locked" w1 =
    (Ret tt,
     set_emitted (emitted w1 ++ [GRPC_WALLET_UNLOCKER_SERVICE_ACTIVE]) w1) /\
  exists w2,
    grpc_emit "active" w1 = (Ret tt, w2) /\
    emitted w2 = emitted w ++ [GRPC_LIGHTNING_SERVICE_ACTIVE] /\
    table w2 =
      table w ++ zip fresh (seq (length (streams w)) (length fresh)) /\
    streams w2 = streams w ++ (started_stream <$> fresh) /\
    tlookup "channelgraph" (table w2) = tlookup "channelgraph" (table w) /\
    info_handlers w2 = S (info_handlers w).
Proof.
  intros ->%connect_Ret_inv fresh. split; [reflexivity|].
  set (w1 := connected_world opts w).
  set (w1' := set_emitted (emitted w1 ++ [GRPC_LIGHTNING_SERVICE_ACTIVE]) w1).
  assert (Hs : has_streaming w1' = true)
    by exact (has_streaming_connected opts w).
  destruct (subscribe_closed_form ["invoices"; "transactions"; "info"] w1' Hs)
    as (w2 & Hrun & Htab & Hstr & _ & _ & _ & Hga & _).
  pose proof (same_emitted_subscribe ["invoices"; "transactions"; "info"] w1')
    as Hem. rewrite Hrun in Hem. unfold same_emitted in Hem. simpl in Hem.
  exists (set_info_handlers (S (info_handlers w2)) w2).
  split.
  { unfold grpc_emit, bind, gets. simpl.
    unfold bind, this_emit, modify. fold w1 w1'.
    by rewrite (subscribeAll_eq w1' w2 Hrun). }
  split; [done|].
  change (table w1') with (table w) in Htab.
  change (streams w1') with (streams w) in Htab, Hstr.
  change (resolve_keys SUBSCRIPTIONS.*1 ["invoices"; "transactions"; "info"])
    with ["invoices"; "transactions"; "info"] in Htab, Hstr.
  split; [done|]. split; [done|]. split; [|simpl; by rewrite Hga].
  change (table (set_info_handlers (S (info_handlers w2)) w2))
    with (table w2).
  rewrite Htab, tlookup_app.
  destruct (tlookup "channelgraph" (table w)); [done|].
  apply tlookup_zip_notin. unfold inactive. rewrite list_elem_of_filter.
  intros [_ H]. set_solver.
Qed.

Lemma In_without_handlers e g :
  In e (g_listeners (without_handlers g)) ->
  e.1 <> "locked" /\ e.1 <> "active" /\ e.1 <> "disconnected".
Proof.
  simpl. rewrite !filter_In, !negb_true_iff, !String.eqb_neq. tauto.
Qed.

(** After [disconnect] returned, the events of the transport reach no
    handler (grpc.js:83-85): a late ['active'] starts no subscription, a
    late ['disconnected'] cancels nothing. *)
Theorem transport_events_after_disconnect
    (name : string) (w w' : World) :
  disconnect_returns w w' ->
  name ∈ ["locked"; "active"; "disconnected"] ->
  grpc_emit name w' = (Ret tt, w').
Proof.
  intros ->%disconnect_returns_inv Hname.
  unfold grpc_emit, bind, gets. simpl.
  destruct (grpc w) as [g|]; simpl; [|done].
  set (l := List.filter _ _).
  assert (Hl : l = []).
  { destruct l as [|e l'] eqn:El; [done|]. exfalso.
    assert (Hin : In e l) by (rewrite El; by left).
    apply filter_In in Hin as [Hin He].
    apply (In_without_handlers e g) in Hin as (H1 & H2 & H3).
    apply String.eqb_eq in He. set_solver. }
  by rewrite Hl.
Qed.

(** The handlers [connect] registers, grpc.js:59-68. *)
Definition connect_handlers : list (string * GrpcHandler) :=
  [("locked", OnLocked); ("active", OnActive);
   ("disconnected", OnDisconnected)].

(** On ['disconnected'] the instance runs [unsubscribe()] (grpc.js:66-68):
    every entry of the table gets its cancel request and its promise, and
    stays in the table until its stream confirms. *)
Theorem transport_disconnected_cancels_all (g : LndGrpc) (w : World) :
  grpc w = Some g ->
  g_listeners g = connect_handlers ->
  has_Lightning w ->
  exists w',
    grpc_emit "disconnected" w = (Ret tt, w') /\
    table w' = table w /\
    promises w' = promises w ++ replicate (length (table w)) false /\
    forall k h s,
      tlookup k (table w) = Some h -> streams w !! h = Some s ->
      exists s', streams w' !! h = Some s' /\
                 cancel_calls s < cancel_calls s'.
Proof.
  intros Hg Hl HL.
  destruct (unsubscribe_closed_form [] w HL)
    as (w' & Hrun & Htab & Hpr & _ & _ & Hreq).
  exists w'. split.
  { unfold grpc_emit, bind, gets. rewrite Hg, Hl. simpl.
    unfold bind. by rewrite Hrun. }
  split; [done|]. split.
  { rewrite Hpr. unfold unsubscribe_keys, resolve_keys, Object_keys.
    by rewrite length_fmap. }
  intros k h s Hk Hs. apply (Hreq k h s); [|done..].
  eapply elem_of_unsubscribe_keys; [done | by left].
Qed.

(** ** Several listeners of the info events *)

Lemma on_info_data_spec d w :
  has_streaming w = true ->
  exists w',
    on_info_data d w = (Ret tt, w') /\
    (rule_fires d w = false -> w' = w) /\
    (rule_fires d w = true -> is_Some (tlookup "channelgraph" (table w'))).
Proof.
  intros Hs. destruct (rule_fires d w) eqn:Hf.
  - assert (Ht : tlookup "channelgraph" (table w) = None).
    { unfold rule_fires in Hf. apply andb_true_iff in Hf as [_ Hf].
      apply negb_true_iff, bool_decide_eq_false in Hf.
      destruct (tlookup _ _); [exfalso; eauto | done]. }
    destruct (subscribe_single "channelgraph" w) as
      (w1 & Hrun & Htab & _ & _ & _ & _ & _ & Hs1);
      [set_solver | done | done |].
    destruct (unsubscribe_closed_form ["info"] w1)
      as (w2 & Hrun2 & Htab2 & _); [by apply has_streaming_Lightning|].
    exists w2. split; [by eapply on_info_data_acts|].
    split; [done|]. intros _.
    rewrite Htab2, Htab, tlookup_app, Ht. simpl. eauto.
  - exists w. split; [by apply on_info_data_idle|]. done.
Qed.

(** [subscribeAll] registers one more listener every time it runs and none
    is ever removed, yet however many there are, an info event makes them
    act as one: the first does what a single listener would, and the
    others find the ["channelgraph"] entry, or the same payload, and do
    nothing. *)
Theorem info_listeners_act_as_one (d : InfoData) (w : World) :
  has_streaming w = true ->
  0 < info_handlers w ->
  emit_info_data d w = on_info_data d w.
Proof.
  intros Hs Hn. unfold emit_info_data, bind, gets.
  destruct (info_handlers w) as [|n]; [lia|]. simpl. unfold bind.
  destruct (on_info_data_spec d w Hs) as (w' & Hrun & Hidle & Hacts).
  rewrite Hrun. apply forEach_nothing. intros _ _.
  destruct (rule_fires d w) eqn:Hf.
  - apply on_info_data_idle. unfold rule_fires.
    rewrite (bool_decide_eq_true_2 _ (Hacts eq_refl)). apply andb_false_r.
  - rewrite (Hidle eq_refl). by apply on_info_data_idle.
Qed.

(** ** What every event keeps *)

(** The three ways the callback of [subscribe] goes (grpc.js:133-162): the
    read of the entry is truthy and it only warns; the remote call throws,
    before anything was changed; or the stream is started. *)
Lemma subscribe_key_cases key w :
  subscribe_key key w =
    (Ret tt, set_log (log w ++ [WarnAlreadyActive key]) w) \/
  (exists e, subscribe_key key w = (Throw e, w)) \/
  (exists m, tlookup key (table w) = None /\
     assoc key SUBSCRIPTIONS = Some m /\
     subscribe_key key w = (Ret tt, subscribed key m w)).
Proof.
  destruct (read_truthy (read key (tlookup key (table w)))) eqn:Hr.
  { left. unfold subscribe_key, bind, get_entry, gets. by rewrite Hr. }
  right.
  assert (Ht : tlookup key (table w) = None).
  { by destruct (tlookup key (table w)). }
  assert (Hk : includes key Object_prototype = false).
  { rewrite Ht in Hr. unfold read in Hr.
    by destruct (includes key Object_prototype). }
  assert (Hu : forall A, @read A key None = Undefined).
  { intros A. unfold read. by rewrite Hk. }
  destruct (Lightning (services w)) as [l|] eqn:HL.
  2:{ left. eexists. unfold subscribe_key, bind, get_entry, gets.
      rewrite Ht, Hu. simpl. rewrite HL. reflexivity. }
  destruct (assoc key SUBSCRIPTIONS) as [m|] eqn:Hm.
  2:{ left. eexists. unfold subscribe_key, bind, get_entry, gets.
      rewrite Ht, Hu. simpl. rewrite HL, Hm, Hu. reflexivity. }
  destruct (includes m (methods l)) eqn:Hi.
  2:{ left. eexists. unfold subscribe_key, bind, get_entry, gets.
      rewrite Ht, Hu. simpl. rewrite HL, Hm. simpl. rewrite Hi.
      reflexivity. }
  right. exists m. split; [done|]. split; [done|].
  unfold subscribe_key, bind, get_entry, gets.
  rewrite Ht, Hu. simpl.
  rewrite HL, Hm. simpl. rewrite Hi. simpl.
  unfold table at 1, set_table. simpl. rewrite lookup_insert_eq. simpl.
  rewrite tlookup_tset_eq. simpl. unfold on_status_add, modify. simpl.
  rewrite !alter_snoc. simpl.
  unfold subscribed, set_table. simpl.
  fold (table w). rewrite (tset_absent _ _ _ Ht). by rewrite HL.
Qed.

(** A relation between the world before and the world after that holds
    across every effect of the class on the table, the streams and the
    listeners of the info events: across any change that leaves them
    alone, across a started stream, a cancellation under way, a deleted
    entry, the reset of [disconnect] and a new listener of the info
    events. *)
Class Kept (R : World -> World -> Prop) : Prop := {
  kept_preorder :: PreOrder R;
  kept_frame w w' :
    tables w' = tables w -> subscriptions w' = subscriptions w ->
    streams w' = streams w -> info_handlers w' = info_handlers w ->
    R w w';
  kept_subscribed k m w :
    tlookup k (table w) = None -> assoc k SUBSCRIPTIONS = Some m ->
    R w (subscribed k m w);
  kept_cancelling k h w :
    tlookup k (table w) = Some h -> R w (cancelling k h w);
  kept_delete k w : R w (set_table (tdelete k (table w)) w);
  kept_reset w : R w (assign_INITIAL_STATE w);
  kept_listener w : R w (set_info_handlers (S (info_handlers w)) w);
}.

Create HintDb zap_keeps.

Section Keeps.

Context (R : World -> World -> Prop) `{!Kept R}.

Lemma keeps_modify (f : World -> World) :
  (forall w, tables (f w) = tables w) ->
  (forall w, subscriptions (f w) = subscriptions w) ->
  (forall w, streams (f w) = streams w) ->
  (forall w, info_handlers (f w) = info_handlers w) ->
  respects R (modify f).
Proof. intros Ht Hs Hst Hi w. apply kept_frame; simpl; auto. Qed.

Lemma keeps_delete_entry k : respects R (delete_entry k).
Proof. intros w. apply kept_delete. Qed.

Lemma keeps_reset : respects R (modify assign_INITIAL_STATE).
Proof. intros w. apply kept_reset. Qed.

Lemma keeps_listener :
  respects R (modify (fun w => set_info_handlers (S (info_handlers w)) w)).
Proof. intros w. apply kept_listener. Qed.

Lemma keeps_subscribe_key k : respects R (subscribe_key k).
Proof.
  intros w.
  destruct (subscribe_key_cases k w)
    as [->|[(e & ->)|(m & Ht & Hm & ->)]]; simpl.
  - by apply kept_frame.
  - reflexivity.
  - by apply kept_subscribed.
Qed.

Lemma keeps_cancelSubscription k : respects R (cancelSubscription k).
Proof.
  intros w. destruct (tlookup k (table w)) as [h0|] eqn:Ht.
  - destruct (Lightning (services w)) as [l|] eqn:HL.
    + rewrite (cancelSubscription_active k h0 l w Ht HL).
      by apply kept_cancelling.
    + destruct (cancelSubscription_no_Lightning k h0 w Ht HL) as [e ->].
      by apply kept_frame.
  - destruct (includes k Object_prototype) eqn:Hk.
    + rewrite (cancelSubscription_inherited k w Ht Hk). simpl.
      apply kept_frame; unfold rejecting;
        by destruct (Lightning (services w)).
    + rewrite (cancelSubscription_inactive k w Ht Hk). by apply kept_frame.
Qed.

#[local] Hint Resolve keeps_delete_entry keeps_reset keeps_listener
  keeps_subscribe_key keeps_cancelSubscription : zap_keeps.

Ltac keeps_step :=
  lazymatch goal with
  | |- respects ?R' _ =>
      first
        [ solve [auto with zap_keeps]
        | apply keeps_modify; intros ?; reflexivity
        | steps_step ]
  end.

Ltac keeps_by_steps := cbv zeta; repeat keeps_step.

Lemma keeps_subscribe ks : respects R (subscribe ks).
Proof. unfold subscribe, grpcLog. keeps_by_steps. Qed.
#[local] Hint Resolve keeps_subscribe : zap_keeps.

Lemma keeps_unsubscribe ks : respects R (unsubscribe ks).
Proof. unfold unsubscribe, grpcLog. keeps_by_steps. Qed.
#[local] Hint Resolve keeps_unsubscribe : zap_keeps.

Lemma keeps_on_info_data d : respects R (on_info_data d).
Proof. unfold on_info_data, get_entry. keeps_by_steps. Qed.
#[local] Hint Resolve keeps_on_info_data : zap_keeps.

Lemma keeps_subscribeAll : respects R subscribeAll.
Proof. unfold subscribeAll. keeps_by_steps. Qed.
#[local] Hint Resolve keeps_subscribeAll : zap_keeps.

Lemma keeps_connect o : respects R (connect o).
Proof.
  unfold connect, new_LndGrpc, assign_Lightning, update_Lightning, grpc_on.
  keeps_by_steps.
Qed.

Lemma keeps_remove_handlers : respects R remove_handlers.
Proof. unfold remove_handlers, removeAllListeners. keeps_by_steps. Qed.
#[local] Hint Resolve keeps_remove_handlers : zap_keeps.

Lemma keeps_disconnect_call : respects R disconnect_call.
Proof. unfold disconnect_call. keeps_by_steps. Qed.

Lemma keeps_disconnect_resume ok : respects R (disconnect_resume ok).
Proof. unfold disconnect_resume. keeps_by_steps. Qed.

Lemma keeps_Lightning_emits_info_data d :
  respects R (Lightning_emits_info_data d).
Proof.
  unfold Lightning_emits_info_data, emit_info_data. keeps_by_steps.
Qed.

Lemma keeps_grpc_emit name : respects R (grpc_emit name).
Proof. unfold grpc_emit, grpc_handler, this_emit. keeps_by_steps. Qed.

Lemma keeps_grpc_moves st can : respects R (grpc_moves st can).
Proof. unfold grpc_moves. keeps_by_steps. Qed.

Lemma keeps_emit_end h : respects R (emit_end h).
Proof.
  unfold emit_end, end_listener, grpcLog, resolve. keeps_by_steps.
Qed.

Lemma keeps_emit_status h code : respects R (emit_status h code).
Proof.
  unfold emit_status, status_listener, grpcLog, resolve. keeps_by_steps.
Qed.

(** Every event: method calls, the settled teardown, the events of the
    streams, of the transport and of the Lightning service. *)
Lemma keeps_step ev : respects R (step ev).
Proof.
  destruct ev; simpl.
  - apply keeps_connect.
  - apply (steps_bind R); [apply keeps_disconnect_call|].
    intros ?. apply (steps_ret R).
  - apply keeps_disconnect_resume.
  - apply keeps_subscribeAll.
  - apply keeps_subscribe.
  - apply (steps_bind R); [apply keeps_unsubscribe|].
    intros ?. apply (steps_ret R).
  - apply (steps_bind R); [apply keeps_cancelSubscription|].
    intros ?. apply (steps_ret R).
  - apply keeps_emit_end.
  - apply keeps_emit_status.
  - apply keeps_Lightning_emits_info_data.
  - apply keeps_grpc_moves.
  - apply keeps_grpc_emit.
Qed.

Lemma keeps_run evs w : R w (run evs w).
Proof. apply (steps_run R step). apply keeps_step. Qed.

End Keeps.

(** *** The listeners of the info events *)

Definition more_listeners (w w' : World) : Prop :=
  info_handlers w <= info_handlers w'.

#[global] Instance more_listeners_kept : Kept more_listeners.
Proof.
  split; [split|..]; unfold more_listeners.
  - intros w. lia.
  - intros w1 w2 w3. lia.
  - intros w w' _ _ _ H. lia.
  - intros k m w _ _. simpl. lia.
  - intros k h w _. unfold cancelling, unforwarded.
    destruct (assoc k SUBSCRIPTIONS); simpl; lia.
  - intros k w. simpl. lia.
  - intros w. simpl. lia.
  - intros w. simpl. lia.
Qed.

(** A listener of the info events is never removed (grpc.js:108-114 has
    no counterpart in [unsubscribe] or [disconnect]): whatever happens to
    the instance, there are as many as before, or more. *)
Theorem info_listeners_never_removed (evs : list Event) (w : World) :
  info_handlers w <= info_handlers (run evs w).
Proof. apply (keeps_run more_listeners). Qed.

(** *** The table and its streams *)

(** The table is the shared object of [INITIAL_STATE], its keys are
    distinct, every entry is a stream started for its key, and every
    stream was started for some key. *)
Definition well_formed (w : World) : Prop :=
  subscriptions w = INITIAL_subscriptions /\
  NoDup (Object_keys (table w)) /\
  (forall k h, tlookup k (table w) = Some h ->
     exists s, streams w !! h = Some s /\ stream_of k s) /\
  (forall h s, streams w !! h = Some s -> exists k, stream_of k s).

Definition stays_well_formed (w w' : World) : Prop :=
  well_formed w -> well_formed w'.

Lemma stream_of_inj k k' s : stream_of k s -> stream_of k' s -> k = k'.
Proof.
  intros (_ & He & _) (_ & _ & _ & Hall).
  apply (Hall (SubscribeEnd k)). apply elem_of_app. by left.
Qed.

Lemma stream_of_known k s : stream_of k s -> k ∈ SUBSCRIPTIONS.*1.
Proof. intros (Hm & _). by eapply assoc_Some_known. Qed.

Lemma stream_of_cancelling k p s :
  stream_of k s ->
  stream_of k (add_cancel (add_end (CancelEnd k p)
                             (add_status (CancelStatus k p) s))).
Proof.
  intros (Hm & He & Hs & Hall). split; [done|]. simpl.
  split; [set_solver|]. split; [set_solver|].
  intros l. rewrite !elem_of_app, !list_elem_of_singleton.
  intros [[Hl| ->]|[Hl| ->]]; try done; apply Hall, elem_of_app; eauto.
Qed.

Lemma tlookup_tdelete_Some k k' t h :
  tlookup k' (tdelete k t) = Some h -> tlookup k' t = Some h.
Proof.
  destruct (decide (k = k')) as [->|Hne].
  - by rewrite tlookup_tdelete_eq.
  - by rewrite tlookup_tdelete_ne.
Qed.

Lemma NoDup_tdelete k t :
  NoDup (Object_keys t) -> NoDup (Object_keys (tdelete k t)).
Proof.
  unfold Object_keys. induction t as [|[k' h'] t IH]; simpl; [done|].
  rewrite NoDup_cons. intros [Hk Hnd].
  destruct (String.eqb_spec k' k) as [->|Hne]; [by apply IH|].
  simpl. apply NoDup_cons. split; [|by apply IH].
  apply (tlookup_None_keys k' (tdelete k t)).
  rewrite tlookup_tdelete_ne by done. by apply tlookup_None_keys.
Qed.

Lemma subscriptions_cancelling k h w :
  subscriptions (cancelling k h w) = subscriptions w.
Proof.
  unfold cancelling, unforwarded. by destruct (assoc k SUBSCRIPTIONS).
Qed.

#[global] Instance stays_well_formed_kept : Kept stays_well_formed.
Proof.
  split.
  - split; [intros w H; exact H|]. intros w1 w2 w3 H1 H2 H. by apply H2, H1.
  - intros w w' Ht Hsub Hst _ (Hs & Hnd & Hent & Hstr).
    assert (Htab : table w' = table w) by (unfold table; by rewrite Ht, Hsub).
    unfold well_formed. rewrite Htab, Hst, Hsub. done.
  - intros k m w Hnone Hm (Hs & Hnd & Hent & Hstr).
    assert (Hnew : stream_of k {| s_method := m; on_end := [SubscribeEnd k];
                                  on_status := [SubscribeStatus k];
                                  cancel_calls := 0 |}).
    { split; [done|]. simpl. split; [set_solver|]. split; [set_solver|].
      intros l Hl.
      repeat (apply elem_of_cons in Hl as [->|Hl]; [done|]).
      by apply elem_of_nil in Hl. }
    unfold well_formed. rewrite table_subscribed.
    split; [done|]. split; [|split].
    + unfold Object_keys. rewrite fmap_app. simpl.
      apply NoDup_app. split; [done|]. split; [|apply NoDup_singleton].
      intros x Hx ->%list_elem_of_singleton.
      by apply (tlookup_None_keys k (table w)) in Hnone.
    + intros k' h. rewrite tlookup_app. simpl.
      destruct (tlookup k' (table w)) as [h'|] eqn:Hk'.
      * intros [= <-]. destruct (Hent k' h' Hk') as (s & Hs' & Hof).
        exists s. split; [|done]. by apply lookup_app_l_Some.
      * destruct (String.eqb_spec k k') as [<-|_]; [|done].
        intros [= <-]. eexists. split; [|exact Hnew].
        by rewrite list_lookup_middle.
    + intros h s. simpl. intros [[_ Hl]|[_ <-]]%lookup_snoc_Some; eauto.
  - intros k h w Hk (Hs & Hnd & Hent & Hstr).
    destruct (Hent k h Hk) as (s & Hsh & Hof).
    unfold well_formed.
    rewrite table_cancelling, subscriptions_cancelling, streams_cancelling.
    split; [done|]. split; [done|]. split.
    + intros k' h' Hk'. destruct (Hent k' h' Hk') as (s' & Hs' & Hof').
      destruct (decide (h' = h)) as [->|Hne].
      * rewrite list_lookup_alter_eq, Hs'. simpl. eexists. split; [done|].
        assert (s' = s) as -> by congruence.
        rewrite (stream_of_inj k' k s Hof' Hof).
        by apply stream_of_cancelling.
      * rewrite list_lookup_alter_ne by done. eauto.
    + intros h' s'. destruct (decide (h' = h)) as [->|Hne].
      * rewrite list_lookup_alter_eq, Hsh. simpl. intros [= <-].
        exists k. by apply stream_of_cancelling.
      * rewrite list_lookup_alter_ne by done. apply Hstr.
  - intros k w (Hs & Hnd & Hent & Hstr). unfold well_formed.
    rewrite table_set_table. split; [done|].
    split; [by apply NoDup_tdelete|]. split; [|done].
    intros k' h Hk'. apply (Hent k' h). by eapply tlookup_tdelete_Some.
  - intros w (Hs & Hnd & Hent & Hstr).
    assert (Htab : table (assign_INITIAL_STATE w) = table w)
      by (unfold table; simpl; by rewrite Hs).
    unfold well_formed. by rewrite Htab.
  - by intros w H.
Qed.

Lemma well_formed_initial : well_formed initial_world.
Proof.
  split; [done|]. split; [apply NoDup_nil_2|].
  split; [intros k h [=] | intros h s [=]].
Qed.

(** Every world the instance can reach from [new ZapGrpc()]. *)
Lemma well_formed_run evs : well_formed (run evs initial_world).
Proof.
  apply (keeps_run stays_well_formed evs initial_world), well_formed_initial.
Qed.

(** Whatever happened to the instance since [new ZapGrpc()], the table
    holds each key at most once and only keys of [SUBSCRIPTIONS]: there
    are never more than four active subscriptions. *)
Theorem table_keys_known_and_distinct (evs : list Event) :
  let w := run evs initial_world in
  NoDup (Object_keys (table w)) /\
  (forall k, k ∈ Object_keys (table w) -> k ∈ SUBSCRIPTIONS.*1) /\
  length (table w) <= 4.
Proof.
  intros w. destruct (well_formed_run evs) as (_ & Hnd & Hent & _).
  fold w in Hnd, Hent.
  assert (Hsub : forall k, k ∈ Object_keys (table w) -> k ∈ SUBSCRIPTIONS.*1).
  { intros k [h Hk]%keys_tlookup_Some.
    destruct (Hent k h Hk) as (s & _ & Hof). by eapply stream_of_known. }
  split; [done|]. split; [done|].
  pose proof (submseteq_length _ _ (NoDup_submseteq _ _ Hnd Hsub)) as Hlen.
  unfold Object_keys in Hlen. by rewrite !length_fmap in Hlen.
Qed.

(** Whatever happened to the instance since [new ZapGrpc()], an entry of
    the table is a stream that was opened with the method of its key and
    still carries the two listeners of [subscribe], and no other key has
    the same stream. *)
Theorem entries_are_their_own_streams
    (evs : list Event) (k : string) (h : Handle) :
  let w := run evs initial_world in
  tlookup k (table w) = Some h ->
  (exists s, streams w !! h = Some s /\
             assoc k SUBSCRIPTIONS = Some (s_method s) /\
             SubscribeEnd k ∈ on_end s /\
             SubscribeStatus k ∈ on_status s) /\
  (forall k', tlookup k' (table w) = Some h -> k' = k).
Proof.
  intros w Hk. destruct (well_formed_run evs) as (_ & _ & Hent & _).
  fold w in Hent. destruct (Hent k h Hk) as (s & Hs & Hof). split.
  - exists s. by destruct Hof as (? & ? & ? & _).
  - intros k' Hk'. destruct (Hent k' h Hk') as (s' & Hs' & Hof').
    assert (s' = s) as -> by congruence. by eapply stream_of_inj.
Qed.

(** Whatever happened to the instance since [new ZapGrpc()], the
    listeners of a stream are those of one key, the key whose method
    opened it.  So an event of the stream never throws, leaves the entry
    of every other key alone, and when it is a terminating event, ['end']
    or ['status'] with CANCELLED, the table loses the entry of that key
    and nothing else. *)
Theorem stream_event_on_reachable_world
    (evs : list Event) (h : Handle) (s : Stream) (ev : option Z) :
  let w := run evs initial_world in
  streams w !! h = Some s ->
  exists k w',
    assoc k SUBSCRIPTIONS = Some (s_method s) /\
    emit h ev w = (Ret tt, w') /\
    streams w' = streams w /\
    (terminating ev -> table w' = tdelete k (table w)) /\
    (forall k', k' <> k -> tlookup k' (table w') = tlookup k' (table w)).
Proof.
  intros w Hs. destruct (well_formed_run evs) as (_ & _ & _ & Hstr).
  fold w in Hstr. destruct (Hstr h s Hs) as (k & Hof).
  destruct (forEach_deliver_same_key ev (listeners_of ev s) k w)
    as (w' & Hrun & Htab).
  { intros l Hl. by eapply stream_of_listeners. }
  destruct (forEach_deliver ev (listeners_of ev s) w)
    as (w'' & Hrun' & Hst & _).
  assert (w'' = w') as -> by congruence.
  exists k, w'. split; [by destruct Hof|].
  split; [by rewrite emit_eq, Hs|]. split; [done|]. split.
  - intros Hev. by rewrite Htab, (stream_of_fires k s ev Hof Hev).
  - intros k' Hne. rewrite Htab.
    destruct (existsb _ _); [by apply tlookup_tdelete_ne | done].
Qed.

(** ** From connect to disconnect *)

Definition is_disconnect (ev : Event) : bool :=
  match ev with
  | Call_disconnect | Resume_disconnect _ => true
  | _ => false
  end.

(** The registry keeps its Lightning service with the four streaming
    methods. *)
Definition keeps_streaming (w w' : World) : Prop :=
  has_streaming w = true -> has_streaming w' = true.

#[global] Instance keeps_streaming_preorder : PreOrder keeps_streaming.
Proof.
  split; [intros w H; exact H|]. intros w1 w2 w3 H1 H2 H. by apply H2, H1.
Qed.

#[local] Hint Extern 5 (respects keeps_streaming _) =>
  (intros ? H; exact H) : zap_steps.

Lemma has_streaming_cancelling k h w :
  has_streaming w = true -> has_streaming (cancelling k h w) = true.
Proof.
  unfold has_streaming, cancelling, unforwarded.
  destruct (assoc k SUBSCRIPTIONS); simpl; [|done].
  by destruct (Lightning (services w)).
Qed.

Lemma keeps_streaming_subscribe_key k :
  respects keeps_streaming (subscribe_key k).
Proof.
  intros w.
  destruct (subscribe_key_cases k w)
    as [->|[(e & ->)|(m & Ht & Hm & ->)]]; simpl.
  - by intros H.
  - by intros H.
  - intros H. by apply subscribed_has_streaming.
Qed.

Lemma keeps_streaming_cancelSubscription k :
  respects keeps_streaming (cancelSubscription k).
Proof.
  intros w. destruct (tlookup k (table w)) as [h0|] eqn:Ht.
  - destruct (Lightning (services w)) as [l|] eqn:HL.
    + rewrite (cancelSubscription_active k h0 l w Ht HL).
      intros H. by apply has_streaming_cancelling.
    + destruct (cancelSubscription_no_Lightning k h0 w Ht HL) as [e ->].
      by intros H.
  - destruct (includes k Object_prototype) eqn:Hk.
    + rewrite (cancelSubscription_inherited k w Ht Hk). simpl.
      unfold rejecting. intros H.
      by destruct (Lightning (services w)) eqn:HL.
    + rewrite (cancelSubscription_inactive k w Ht Hk). by intros H.
Qed.

Lemma keeps_streaming_connect o : respects keeps_streaming (connect o).
Proof.
  intros w. destruct (already_connected (grpc w)) eqn:E.
  - rewrite (connect_throws o w E). by intros H.
  - rewrite (connect_builds o w E). intros _. apply has_streaming_connected.
Qed.

#[local] Hint Resolve keeps_streaming_subscribe_key
  keeps_streaming_cancelSubscription keeps_streaming_connect : zap_steps.

Lemma keeps_streaming_subscribe ks : respects keeps_streaming (subscribe ks).
Proof. unfold subscribe. steps. Qed.

Lemma keeps_streaming_unsubscribe ks :
  respects keeps_streaming (unsubscribe ks).
Proof. unfold unsubscribe. steps. Qed.

#[local] Hint Resolve keeps_streaming_subscribe keeps_streaming_unsubscribe
  : zap_steps.

(** Every event but a call of [disconnect] and its settled teardown. *)
Lemma keeps_streaming_step ev :
  is_disconnect ev = false -> respects keeps_streaming (step ev).
Proof.
  intros He. destruct ev; try discriminate; simpl;
    unfold subscribeAll, Lightning_emits_info_data, emit_info_data,
      on_info_data, grpc_moves, grpc_emit, grpc_handler, subscribeAll,
      emit_end, end_listener, emit_status, status_listener;
    steps.
Qed.

Lemma keeps_streaming_run evs w :
  Forall (fun ev => is_disconnect ev = false) evs ->
  has_streaming w = true -> has_streaming (run evs w) = true.
Proof.
  intros Hevs. revert w.
  induction Hevs as [|ev evs Hev _ IH]; intros w Hw; [done|].
  simpl. apply IH. by apply (keeps_streaming_step ev Hev w).
Qed.

(** From the return of [connect] until [disconnect] is called, whatever
    else happens - method calls, events of the streams, of the transport
    and of the Lightning service - [subscribe] returns without a throw and
    [unsubscribe] returns promises none of which is rejected. *)
Theorem registry_lasts_until_disconnect
    (opts : Options) (w0 : World) (evs : list Event) (ks : list string) :
  already_connected (grpc w0) = false ->
  Forall (fun ev => is_disconnect ev = false) evs ->
  exists w,
    connect opts w0 = (Ret tt, w) /\
    (exists w', subscribe ks (run evs w) = (Ret tt, w')) /\
    (exists prs w',
       unsubscribe ks (run evs w) = (Ret prs, w') /\
       forall e, Rejected e ∉ prs).
Proof.
  intros Hc Hevs. exists (connected_world opts w0).
  split; [by apply connect_builds|].
  pose proof (keeps_streaming_run evs _ Hevs (has_streaming_connected opts w0))
    as Hs.
  split.
  - destruct (subscribe_closed_form ks _ Hs) as (w' & Hrun & _). eauto.
  - destruct (unsubscribe_closed_form ks _ (has_streaming_Lightning _ Hs))
      as (w' & Hrun & _).
    eexists _, w'. split; [exact Hrun|].
    intros e (p & [=] & _)%list_elem_of_fmap.
Qed.

(** ** unsubscribe and the streams it was not asked about *)

Lemma well_formed_handle_key w k k' h :
  well_formed w ->
  tlookup k (table w) = Some h -> tlookup k' (table w) = Some h -> k = k'.
Proof.
  intros (_ & _ & Hent & _) Hk Hk'.
  destruct (Hent k h Hk) as (s & Hs & Hof).
  destruct (Hent k' h Hk') as (s' & Hs' & Hof').
  assert (s' = s) as -> by congruence. by eapply stream_of_inj.
Qed.

(** The cancellations of [unsubscribe] leave alone every stream that is
    not the entry of one of their keys. *)
Lemma mapM_cancelSubscription_others ks w h' :
  has_Lightning w ->
  (forall k, k ∈ ks -> is_Some (tlookup k (table w))) ->
  (forall k, k ∈ ks -> tlookup k (table w) <> Some h') ->
  streams (mapM ks cancelSubscription w).2 !! h' = streams w !! h'.
Proof.
  revert w. induction ks as [|k ks IH]; intros w HL Hact Hoth; [done|].
  destruct (Hact k) as [h Hh]; [by left|].
  pose proof HL as [l Hl].
  simpl mapM. unfold bind.
  rewrite (cancelSubscription_active k h l w Hh Hl).
  assert (Hmid : streams (cancelling k h w) !! h' = streams w !! h').
  { rewrite streams_cancelling. apply list_lookup_alter_ne.
    intros ->. apply (Hoth k); [by left | done]. }
  rewrite <- Hmid.
  assert (IH' : streams (mapM ks cancelSubscription (cancelling k h w)).2 !! h'
                = streams (cancelling k h w) !! h').
  { apply IH.
    - by apply has_Lightning_cancelling.
    - intros k0 Hk0. rewrite table_cancelling. apply Hact. by right.
    - intros k0 Hk0. rewrite table_cancelling. apply Hoth. by right. }
  by destruct (mapM ks cancelSubscription (cancelling k h w)) as [[prs|e] w'].
Qed.

(** Whatever happened to the instance since [new ZapGrpc()], a call of
    [unsubscribe] with keys leaves the subscription of every other key as
    it was: its entry, its stream, the listeners of the stream, and no
    cancel request sent to it. *)
Theorem unsubscribe_spares_other_keys
    (evs : list Event) (ks : list string) (k : string) (h : Handle) :
  let w := run evs initial_world in
  has_Lightning w ->
  ks <> [] ->
  k ∉ ks ->
  tlookup k (table w) = Some h ->
  exists prs w',
    unsubscribe ks w = (Ret prs, w') /\
    tlookup k (table w') = Some h /\
    streams w' !! h = streams w !! h.
Proof.
  intros w HL Hne Hk Hh.
  pose proof (well_formed_run evs) as Hwf. fold w in Hwf.
  destruct (unsubscribe_closed_form ks w HL)
    as (w' & Hrun & Htab & _).
  eexists _, w'. split; [exact Hrun|]. split; [by rewrite Htab|].
  assert (Hw' : w' = (unsubscribe ks w).2) by by rewrite Hrun.
  rewrite Hw'. unfold unsubscribe, bind, gets.
  fold (unsubscribe_keys ks w).
  destruct (unsubscribe_keys ks w) as [|k0 ks0] eqn:Ek; [done|].
  rewrite <- Ek. unfold grpcLog, modify.
  set (w1 := set_log _ w).
  apply (mapM_cancelSubscription_others (unsubscribe_keys ks w) w1 h).
  - exact HL.
  - intros k1 Hk1. by apply (unsubscribe_keys_active ks w).
  - intros k1 Hk1 Hk1h.
    assert (k1 = k) as -> by by eapply (well_formed_handle_key w).
    apply Hk. unfold unsubscribe_keys, resolve_keys in Hk1.
    destruct ks as [|x xs]; [done|].
    by apply elem_of_intersection in Hk1 as [_ ?].
Qed.

End ZapGrpc.

(** * Worked traces

    The theorems above at concrete worlds: the instance is built, connected
    with [local_options], and the transport reports ["active"]. *)

Definition demo_lightningMethods : list string := ["getInfo"; "payInvoice"].
Definition demo_lndLightning : list string :=
  ["getInfo"; "sendPayment"; "subscribeInvoices"].

Definition replay (evs : list Event) : World :=
  run demo_lightningMethods demo_lndLightning evs initial_world.

Definition synced : InfoData := {| synced_to_chain := JBool true |}.

(** Connected, nothing subscribed yet. *)
Definition connected : list Event :=
  [Call_connect local_options; Grpc_moves "active" true].

(** The transport emitted ["active"]: [subscribeAll] ran, the streams of
    invoices, transactions and info are the handles 0, 1 and 2. *)
Definition active : list Event := connected ++ [Grpc_emit "active"].

Ltac decide_by_computation :=
  apply (bool_decide_unpack _); vm_compute; exact I.

Ltac conjuncts :=
  repeat match goal with |- _ /\ _ => split end.

Lemma subscribe_targets_witness :
  has_streaming (replay active) = true /\
  exists w',
    subscribe ["channelgraph"; "info"; "nope"; "channelgraph"] (replay active)
      = (Ret tt, w') /\
    tlookup "info" (table w') = Some 2 /\
    is_Some (tlookup "channelgraph" (table w')) /\
    tlookup "nope" (table w') = None.
Proof.
  assert (H : has_streaming (replay active) = true) by (vm_compute; reflexivity).
  split; [exact H|].
  destruct (subscribe_targets ["channelgraph"; "info"; "nope"; "channelgraph"]
              (replay active) H)
    as (_ & _ & _ & w' & Hrun & Hold & _ & Hnew & Hout & _).
  exists w'. split; [exact Hrun|]. split; [|split].
  - apply Hold. vm_compute. reflexivity.
  - destruct (Hnew "channelgraph") as (h & Hh & _).
    + decide_by_computation.
    + vm_compute. reflexivity.
    + rewrite Hh. eexists. reflexivity.
  - rewrite Hout.
    + vm_compute. reflexivity.
    + decide_by_computation.
Defined.

Lemma cancellation_resolves_on_termination_witness :
  has_Lightning (replay active) /\
  promises_fresh (replay active) = true /\
  tlookup "info" (table (replay active)) = Some 2 /\
  exists p w1,
    cancelSubscription "info" (replay active) = (Ret (Deferred p), w1) /\
    resolved p w1 = false /\
    tlookup "info" (table w1) = Some 2.
Proof.
  assert (H1 : has_Lightning (replay active))
    by (unfold has_Lightning; vm_compute; eexists; reflexivity).
  assert (H2 : promises_fresh (replay active) = true)
    by (vm_compute; reflexivity).
  assert (H3 : tlookup "info" (table (replay active)) = Some 2)
    by (vm_compute; reflexivity).
  split; [exact H1|]. split; [exact H2|]. split; [exact H3|].
  destruct (cancellation_resolves_on_termination
              demo_lightningMethods demo_lndLightning
              "info" 2 (replay active) H1 H2 H3)
    as [(p & w1 & Hrun & Hpending & Hentry & _) _].
  exists p, w1. split; [exact Hrun|]. split; [exact Hpending | exact Hentry].
Defined.

Lemma sync_rule_witness :
  has_streaming (replay active) = true /\
  rule_fires synced (replay active) = true /\
  exists w2,
    on_info_data synced (replay active) = (Ret tt, w2) /\
    tlookup "channelgraph" (table w2) = Some 3.
Proof.
  assert (H : has_streaming (replay active) = true) by (vm_compute; reflexivity).
  assert (Hf : rule_fires synced (replay active) = true)
    by (vm_compute; reflexivity).
  split; [exact H|]. split; [exact Hf|].
  destruct (sync_rule synced (replay active) H) as (_ & _ & _ & Hacts & _).
  destruct (Hacts Hf) as (w1 & prs & w2 & _ & _ & Hacted & _ & Hentry & _).
  exists w2. split; [exact Hacted | exact Hentry].
Defined.

Lemma cancelSubscription_inherited_key_witness :
  "constructor" ∈ Object_prototype /\
  tlookup "constructor" (table (replay active)) = None /\
  exists w',
    cancelSubscription "constructor" (replay active) =
      (Ret (Rejected
              (TypeError "this.subscriptions[key].cancel is not a function")),
       w') /\
    log w' = log (replay active) ++ [InfoUnsubscribingFrom "constructor"] /\
    table w' = table (replay active).
Proof.
  assert (H1 : "constructor" ∈ Object_prototype) by decide_by_computation.
  assert (H2 : tlookup "constructor" (table (replay active)) = None)
    by (vm_compute; reflexivity).
  assert (H3 : has_Lightning (replay active))
    by (unfold has_Lightning; vm_compute; eexists; reflexivity).
  split; [exact H1|]. split; [exact H2|].
  destruct (cancelSubscription_inherited_key "constructor" (replay active)
              H1 H2)
    as [(e & w' & Hrun & He & Hlog & Htab & _) _].
  rewrite (He H3) in Hrun.
  exists w'. split; [exact Hrun|]. split; [exact Hlog | exact Htab].
Defined.

(** The info stream was cancelled: its entry is gone, its handle is not. *)
Definition info_cancelled : list Event :=
  active ++ [Stream_status 2 CANCELLED].

Definition info_stream : Stream :=
  {| s_method := "subscribeGetInfo"; on_end := [SubscribeEnd "info"];
     on_status := [SubscribeStatus "info"]; cancel_calls := 0 |}.

Lemma late_stream_event_is_noop_witness :
  streams (replay info_cancelled) !! 2 = Some info_stream /\
  (forall l, l ∈ on_end info_stream ++ on_status info_stream ->
             listener_key l = "info") /\
  tlookup "info" (table (replay info_cancelled)) = None /\
  exists w',
    emit 2 None (replay info_cancelled) = (Ret tt, w') /\
    table w' = table (replay info_cancelled).
Proof.
  assert (H1 : streams (replay info_cancelled) !! 2 = Some info_stream)
    by (vm_compute; reflexivity).
  assert (H2 : forall l, l ∈ on_end info_stream ++ on_status info_stream ->
                         listener_key l = "info").
  { intros l Hl. simpl in Hl.
    apply elem_of_cons in Hl as [->|Hl]; [reflexivity|].
    apply elem_of_cons in Hl as [->|Hl]; [reflexivity|].
    by apply elem_of_nil in Hl. }
  assert (H3 : tlookup "info" (table (replay info_cancelled)) = None)
    by (vm_compute; reflexivity).
  split; [exact H1|]. split; [exact H2|]. split; [exact H3|].
  destruct (late_stream_event_is_noop "info" 2 info_stream None
              (replay info_cancelled) H1 H2)
    as (w' & Hrun & _ & Hsame).
  exists w'. split; [exact Hrun | exact (Hsame H3)].
Defined.

Lemma SUBSCRIPTIONS_swapped_witness :
  has_streaming (replay connected) = true /\
  tlookup "transactions" (table (replay connected)) = None /\
  exists w' h s,
    subscribe ["transactions"] (replay connected) = (Ret tt, w') /\
    streams w' !! h = Some s /\
    s_method s = "subscribeChannelGraph".
Proof.
  assert (H : has_streaming (replay connected) = true)
    by (vm_compute; reflexivity).
  assert (Ht : tlookup "transactions" (table (replay connected)) = None)
    by (vm_compute; reflexivity).
  split; [exact H|]. split; [exact Ht|].
  destruct (SUBSCRIPTIONS_swapped (replay connected) H)
    as (_ & _ & Htx & _).
  destruct (Htx Ht) as (w' & h & s & Hrun & _ & _ & Hs & Hm).
  exists w', h, s. split; [exact Hrun|]. split; [exact Hs | exact Hm].
Defined.

(** What the transport does while [disconnect] waits for it: it goes back
    to ["ready"] and emits ['disconnected']. *)
Definition teardown : list Event :=
  [Grpc_moves "ready" false; Grpc_emit "disconnected"].

(** [disconnect] was called and the teardown is about to settle. *)
Definition tearing_down : list Event := active ++ Call_disconnect :: teardown.

Definition disconnected : list Event :=
  tearing_down ++ [Resume_disconnect true].

Lemma disconnect_keeps_transport_witness :
  (exists g, grpc (replay tearing_down) = Some g /\ gid g = 0) /\
  disconnect_returns (replay tearing_down) (replay disconnected) /\
  exists g',
    grpc (replay disconnected) = Some g' /\
    gid g' = 0 /\ state g' = "ready".
Proof.
  destruct (grpc (replay tearing_down)) as [g|] eqn:Hg;
    [|vm_compute in Hg; discriminate].
  assert (Hid : gid g = 0) by (vm_compute in Hg; by injection Hg as <-).
  assert (Hst : state g = "ready") by (vm_compute in Hg; by injection Hg as <-).
  assert (Hret : disconnect_returns (replay tearing_down) (replay disconnected)).
  { right. vm_compute. reflexivity. }
  split; [by exists g|]. split; [exact Hret|].
  destruct (disconnect_keeps_transport
              demo_lightningMethods demo_lndLightning
              (replay tearing_down) (replay disconnected) g Hg Hret)
    as (_ & (g' & Hg' & Hid' & Hst' & _) & _).
  exists g'. split; [exact Hg'|]. split; congruence.
Defined.

(** ** Where the specification and the code part *)

(** C3: the sync rule acts a second time.  The instance connects, the transport
    becomes active, an info event reports the chain as synced: the listener
    starts the stream 3 for ["channelgraph"].  Then [disconnect]: the
    transport emits ['disconnected'], the four streams confirm their
    cancellation, the teardown settles.  The instance connects again, the
    transport becomes active, [subscribeAll] starts the streams 4, 5, 6; the
    next synced info event finds no ["channelgraph"] entry, and the listener
    acts again: stream 7. *)
Definition first_sync : list Event := active ++ [Lightning_info_data synced].

Definition reconnected : list Event :=
  first_sync
    ++ [Call_disconnect; Grpc_moves "ready" false; Grpc_emit "disconnected";
        Stream_status 0 CANCELLED; Stream_status 1 CANCELLED;
        Stream_status 2 CANCELLED; Stream_status 3 CANCELLED;
        Resume_disconnect true]
    ++ [Call_connect local_options; Grpc_moves "active" true;
        Grpc_emit "active"].

Definition second_sync : list Event :=
  reconnected ++ [Lightning_info_data synced].

(** How many times the log says that the stream of [key] was started. *)
Definition count_started (key : string) (w : World) : nat :=
  length (filter (fun e => e = InfoStarted key) (log w)).

Lemma sync_rule_acts_twice :
  tlookup "channelgraph" (table (replay active)) = None /\
  rule_fires synced (replay active) = true /\
  tlookup "channelgraph" (table (replay first_sync)) = Some 3 /\
  count_started "channelgraph" (replay first_sync) = 1 /\
  tlookup "channelgraph" (table (replay reconnected)) = None /\
  rule_fires synced (replay reconnected) = true /\
  tlookup "channelgraph" (table (replay second_sync)) = Some 7 /\
  count_started "channelgraph" (replay second_sync) = 2.
Proof. conjuncts; vm_compute; reflexivity. Qed.

(** C6: two ways [disconnect] leaves a registry that is not empty.  When the
    awaited teardown is rejected the method ends there: [options] still are
    the options of the connection.  And when it is fulfilled, the
    assignment of [INITIAL_STATE] binds [subscriptions] to the very object
    the entries were written to: the three entries of [subscribeAll], whose
    cancellation was requested and not yet confirmed, are still in it. *)
Lemma disconnect_leaves_registries :
  disconnect demo_lightningMethods demo_lndLightning teardown false
    (replay active) = (Throw TeardownError, replay tearing_down) /\
  options (replay tearing_down) = local_options /\
  options (replay tearing_down) <> empty_options /\
  disconnect demo_lightningMethods demo_lndLightning teardown true
    (replay active) = (Ret tt, replay disconnected) /\
  options (replay disconnected) = empty_options /\
  subscriptions (replay disconnected) = INITIAL_subscriptions /\
  table (replay disconnected)
    = [("invoices", 0); ("transactions", 1); ("info", 2)].
Proof.
  conjuncts; try (vm_compute; reflexivity).
  vm_compute. discriminate.
Qed.

(** C8: a late event of a detached handle removes the entry of another
    stream.  The info stream 2 confirms its cancellation and its entry is
    removed; ["info"] is subscribed again, stream 3; then the ['end'] of
    stream 2 arrives, and its listener, which holds the key and not the
    handle, deletes the entry of stream 3. *)
Definition info_again : list Event :=
  info_cancelled ++ [Call_subscribe ["info"]].

Definition late_end : list Event := info_again ++ [Stream_end 2].

Lemma late_end_removes_new_entry :
  tlookup "info" (table (replay active)) = Some 2 /\
  tlookup "info" (table (replay info_cancelled)) = None /\
  tlookup "info" (table (replay info_again)) = Some 3 /\
  table (replay info_again)
    = [("invoices", 0); ("transactions", 1); ("info", 3)] /\
  emit_end 2 (replay info_again)
    = (Ret tt, replay late_end) /\
  table (replay late_end) = [("invoices", 0); ("transactions", 1)] /\
  table (replay late_end) <> table (replay info_again).
Proof.
  conjuncts; try (vm_compute; reflexivity).
  vm_compute. discriminate.
Qed.

(** ** The further properties at concrete worlds *)

(** The transport emitted ["active"] twice: two listeners of the info
    events. *)
Definition active_twice : list Event := active ++ [Grpc_emit "active"].

(** Connected, the transport still in its state ["ready"]. *)
Definition just_connected : list Event := [Call_connect local_options].

Lemma subscribe_unknown_keys_witness :
  subscribe ["nope"; "peers"] (replay active) = (Ret tt, replay active).
Proof.
  apply subscribe_unknown_keys; [done|].
  intros k Hk.
  repeat (apply elem_of_cons in Hk as [->|Hk]; [decide_by_computation|]).
  by apply elem_of_nil in Hk.
Defined.

Lemma subscribe_without_registry_witness :
  Lightning (services initial_world) = None /\
  exists w',
    subscribe [] initial_world =
      (Throw (TypeError "Lightning is undefined"), w') /\
    table w' = table initial_world /\
    streams w' = streams initial_world.
Proof.
  split; [reflexivity|].
  destruct (subscribe_without_registry [] initial_world eq_refl)
    as (o & w' & Hrun & Htab & Hstr & _ & _ & Hthrow).
  assert (Ho : o = Throw (TypeError "Lightning is undefined")).
  { apply Hthrow. vm_compute. discriminate. }
  rewrite Ho in Hrun. exists w'. split; [exact Hrun|].
  split; [exact Htab | exact Hstr].
Defined.

Lemma subscribe_twice_witness :
  has_streaming (replay connected) = true /\
  exists w1 w2,
    subscribe ["info"] (replay connected) = (Ret tt, w1) /\
    subscribe ["info"] w1 = (Ret tt, w2) /\
    table w2 = table w1 /\
    streams w2 = streams w1.
Proof.
  assert (H : has_streaming (replay connected) = true)
    by (vm_compute; reflexivity).
  split; [exact H|].
  destruct (subscribe_single "info" (replay connected))
    as (w1 & Hrun & _); [decide_by_computation | vm_compute; reflexivity
                        | exact H |].
  destruct (subscribe_twice ["info"] (replay connected) w1 H Hrun)
    as (w2 & Hrun2 & Htab & Hstr & _).
  exists w1, w2. split; [exact Hrun|]. split; [exact Hrun2|].
  split; [exact Htab | exact Hstr].
Defined.

Lemma unsubscribe_nothing_active_witness :
  unsubscribe ["channelgraph"; "nope"] (replay active) =
    (Ret [], replay active).
Proof.
  apply unsubscribe_nothing_active; [|discriminate].
  intros k Hk.
  repeat (apply elem_of_cons in Hk as [->|Hk]; [vm_compute; reflexivity|]).
  by apply elem_of_nil in Hk.
Defined.

Lemma status_other_than_CANCELLED_witness :
  emit_status 2 0 (replay active) = (Ret tt, replay active).
Proof. apply status_other_than_CANCELLED. discriminate. Defined.

Lemma cancellation_completes_witness :
  tlookup "info" (table (replay active)) = Some 2 /\
  exists p w1 w2,
    cancelSubscription "info" (replay active) = (Ret (Deferred p), w1) /\
    resolved p w1 = false /\
    emit 2 (Some CANCELLED) w1 = (Ret tt, w2) /\
    resolved p w2 = true /\
    tlookup "info" (table w2) = None.
Proof.
  assert (H1 : has_Lightning (replay active))
    by (unfold has_Lightning; vm_compute; eexists; reflexivity).
  assert (H2 : tlookup "info" (table (replay active)) = Some 2)
    by (vm_compute; reflexivity).
  assert (H3 : streams (replay active) !! 2 = Some (started_stream "info"))
    by (vm_compute; reflexivity).
  split; [exact H2|].
  apply (cancellation_completes "info" 2 (started_stream "info")
           (Some CANCELLED) (replay active) H1 H2 H3).
  right. reflexivity.
Defined.

Lemma cancelSubscription_twice_witness :
  tlookup "invoices" (table (replay active)) = Some 0 /\
  exists p1 p2 w1 w2 w3,
    cancelSubscription "invoices" (replay active) = (Ret (Deferred p1), w1) /\
    cancelSubscription "invoices" w1 = (Ret (Deferred p2), w2) /\
    emit 0 None w2 = (Ret tt, w3) /\
    resolved p1 w3 = true /\ resolved p2 w3 = true.
Proof.
  assert (H1 : has_Lightning (replay active))
    by (unfold has_Lightning; vm_compute; eexists; reflexivity).
  assert (H2 : tlookup "invoices" (table (replay active)) = Some 0)
    by (vm_compute; reflexivity).
  assert (H3 : streams (replay active) !! 0 = Some (started_stream "invoices"))
    by (vm_compute; reflexivity).
  split; [exact H2|].
  destruct (cancelSubscription_twice "invoices" 0 (started_stream "invoices")
              None (replay active) H1 H2 H3)
    as (p1 & p2 & w1 & w2 & w3 & s2 & Hc1 & Hc2 & _ & _ & _ & _ & _ & Hev
        & Hr1 & Hr2 & _); [left; reflexivity|].
  exists p1, p2, w1, w2, w3.
  split; [exact Hc1|]. split; [exact Hc2|]. split; [exact Hev|].
  split; [exact Hr1 | exact Hr2].
Defined.

Lemma subscribe_cancel_round_trip_witness :
  tlookup "channelgraph" (table (replay active)) = None /\
  exists w1 h p w2 w3,
    subscribe ["channelgraph"] (replay active) = (Ret tt, w1) /\
    tlookup "channelgraph" (table w1) = Some h /\
    cancelSubscription "channelgraph" w1 = (Ret (Deferred p), w2) /\
    emit h None w2 = (Ret tt, w3) /\
    table w3 = table (replay active) /\
    resolved p w3 = true.
Proof.
  assert (H : tlookup "channelgraph" (table (replay active)) = None)
    by (vm_compute; reflexivity).
  split; [exact H|].
  apply (subscribe_cancel_round_trip "channelgraph" None (replay active)).
  - vm_compute. reflexivity.
  - decide_by_computation.
  - exact H.
  - left. reflexivity.
Defined.

Lemma transport_active_starts_subscriptions_witness :
  exists w1 w2,
    connect demo_lightningMethods demo_lndLightning local_options
      initial_world = (Ret tt, w1) /\
    grpc_emit "active" w1 = (Ret tt, w2) /\
    emitted w2 = [GRPC_LIGHTNING_SERVICE_ACTIVE] /\
    Object_keys (table w2) = ["invoices"; "transactions"; "info"] /\
    info_handlers w2 = 1.
Proof.
  set (w1 := connected_world demo_lightningMethods demo_lndLightning
               local_options initial_world).
  assert (Hc : connect demo_lightningMethods demo_lndLightning local_options
                 initial_world = (Ret tt, w1))
    by (apply connect_builds; reflexivity).
  destruct (transport_active_starts_subscriptions
              demo_lightningMethods demo_lndLightning
              local_options initial_world w1 Hc)
    as (_ & w2 & Hrun & Hem & Htab & _ & _ & Hn).
  exists w1, w2. split; [exact Hc|]. split; [exact Hrun|].
  split; [exact Hem|]. split; [|exact Hn].
  rewrite Htab. vm_compute. reflexivity.
Defined.

Lemma transport_events_after_disconnect_witness :
  exists w',
    disconnect_call (replay just_connected) = (Ret Finished, w') /\
    grpc_emit "active" w' = (Ret tt, w').
Proof.
  set (w' := (disconnect_call (replay just_connected)).2).
  assert (Hd : disconnect_call (replay just_connected) = (Ret Finished, w'))
    by (vm_compute; reflexivity).
  exists w'. split; [exact Hd|].
  apply (transport_events_after_disconnect "active" (replay just_connected)).
  - left. exact Hd.
  - decide_by_computation.
Defined.

Lemma transport_disconnected_cancels_all_witness :
  has_Lightning (replay active) /\
  exists w',
    grpc_emit "disconnected" (replay active) = (Ret tt, w') /\
    table w' = table (replay active) /\
    length (promises w') = 3.
Proof.
  assert (H1 : has_Lightning (replay active))
    by (unfold has_Lightning; vm_compute; eexists; reflexivity).
  split; [exact H1|].
  assert (Hg : exists g, grpc (replay active) = Some g /\
                         g_listeners g = connect_handlers)
    by (vm_compute; eexists; split; reflexivity).
  destruct Hg as (g & Hg & Hl).
  destruct (transport_disconnected_cancels_all g (replay active) Hg Hl H1)
    as (w' & Hrun & Htab & Hpr & _).
  exists w'. split; [exact Hrun|]. split; [exact Htab|].
  rewrite Hpr. vm_compute. reflexivity.
Defined.

Lemma info_listeners_act_as_one_witness :
  info_handlers (replay active_twice) = 2 /\
  emit_info_data synced (replay active_twice) =
    on_info_data synced (replay active_twice).
Proof.
  assert (H : info_handlers (replay active_twice) = 2)
    by (vm_compute; reflexivity).
  split; [exact H|].
  apply info_listeners_act_as_one.
  - vm_compute. reflexivity.
  - rewrite H. lia.
Defined.

(** The world after the events [evs], from [new ZapGrpc()]. *)
Abbreviation reached evs :=
  (run demo_lightningMethods demo_lndLightning evs initial_world).

Lemma entries_are_their_own_streams_witness :
  tlookup "info" (table (reached active)) = Some 2 /\
  exists s,
    streams (reached active) !! 2 = Some s /\
    assoc "info" SUBSCRIPTIONS = Some (s_method s).
Proof.
  assert (H : tlookup "info" (table (reached active)) = Some 2)
    by (vm_compute; reflexivity).
  split; [exact H|].
  destruct (entries_are_their_own_streams
              demo_lightningMethods demo_lndLightning active "info" 2 H)
    as [(s & Hs & Hm & _) _].
  exists s. split; [exact Hs | exact Hm].
Defined.

Lemma stream_event_on_reachable_world_witness :
  streams (reached active) !! 1 = Some (started_stream "transactions") /\
  exists k w',
    assoc k SUBSCRIPTIONS = Some "subscribeChannelGraph" /\
    emit 1 None (reached active) = (Ret tt, w') /\
    table w' = tdelete k (table (reached active)).
Proof.
  assert (H : streams (reached active) !! 1 =
              Some (started_stream "transactions"))
    by (vm_compute; reflexivity).
  split; [exact H|].
  destruct (stream_event_on_reachable_world
              demo_lightningMethods demo_lndLightning active 1
              (started_stream "transactions") None H)
    as (k & w' & Hk & Hrun & _ & Hdel & _).
  exists k, w'. split; [exact Hk|]. split; [exact Hrun|].
  apply Hdel. left. reflexivity.
Defined.

Lemma registry_lasts_until_disconnect_witness :
  exists w w',
    connect demo_lightningMethods demo_lndLightning local_options
      initial_world = (Ret tt, w) /\
    subscribe []
      (run demo_lightningMethods demo_lndLightning
         [Grpc_moves "active" true; Grpc_emit "active"; Stream_end 0] w) =
      (Ret tt, w').
Proof.
  destruct (registry_lasts_until_disconnect
              demo_lightningMethods demo_lndLightning local_options
              initial_world
              [Grpc_moves "active" true; Grpc_emit "active"; Stream_end 0] [])
    as (w & Hc & (w' & Hs) & _).
  - reflexivity.
  - repeat constructor.
  - exists w, w'. split; [exact Hc | exact Hs].
Defined.

Lemma unsubscribe_spares_other_keys_witness :
  tlookup "invoices" (table (reached active)) = Some 0 /\
  exists prs w',
    unsubscribe ["info"] (reached active) = (Ret prs, w') /\
    tlookup "invoices" (table w') = Some 0 /\
    streams w' !! 0 = streams (reached active) !! 0.
Proof.
  assert (H1 : has_Lightning (reached active))
    by (unfold has_Lightning; vm_compute; eexists; reflexivity).
  assert (H2 : tlookup "invoices" (table (reached active)) = Some 0)
    by (vm_compute; reflexivity).
  split; [exact H2|].
  apply (unsubscribe_spares_other_keys
           demo_lightningMethods demo_lndLightning active ["info"]
           "invoices" 0 H1).
  - discriminate.
  - decide_by_computation.
  - exact H2.
Defined.
